(** * Word-document exam parser: a shallow embedding and its properties

    The development follows the parser module of the repository
    (parseWordToExam, parseDocumentXML, parseQuestionsFromParagraphs,
    groupQuestionsIntoSections, extractOptionsWithUnderline,
    buildFormattedText, escapeHtml).

    JavaScript strings are sequences of UTF-16 code units, and every
    offset the parser computes counts code units; a string is therefore
    a [list N].  Offsets are JavaScript numbers holding integers and are
    modelled in [Z].  A question number is the double parseInt returns
    for a string of digits: a natural of at most 53 significant bits, or
    Infinity; it is modelled in [N] by its value, Infinity by 2^1024
    ([roundToDouble]). *)

From Stdlib Require Import String Ascii.
From stdpp Require Import base list gmap sorting.

Local Open Scope Z_scope.
Local Open Scope nat_scope.

(** ** Strings *)

Abbreviation str := (list N).

Module Utf8.
(** String literals of this file are UTF-8 bytes; [decode] turns them
    into the UTF-16 code units the program sees. *)

Definition cont (b : N) : N := N.land b 63.

Definition units_of_code_point (cp : N) : str :=
  if (cp <? 65536)%N then [cp]
  else let v := (cp - 65536)%N in
       [(55296 + N.shiftr v 10)%N; (56320 + N.land v 1023)%N].

Fixpoint decode_bytes (fuel : nat) (bs : list N) : str :=
  match fuel, bs with
  | S fuel', b0 :: rest =>
      if (b0 <? 128)%N then b0 :: decode_bytes fuel' rest
      else if (b0 <? 224)%N then
        match rest with
        | b1 :: rest' =>
            (N.shiftl (N.land b0 31) 6 + cont b1)%N :: decode_bytes fuel' rest'
        | _ => []
        end
      else if (b0 <? 240)%N then
        match rest with
        | b1 :: b2 :: rest' =>
            (N.shiftl (N.land b0 15) 12 + N.shiftl (cont b1) 6 + cont b2)%N
              :: decode_bytes fuel' rest'
        | _ => []
        end
      else
        match rest with
        | b1 :: b2 :: b3 :: rest' =>
            units_of_code_point
              (N.shiftl (N.land b0 7) 18 + N.shiftl (cont b1) 12
               + N.shiftl (cont b2) 6 + cont b3)%N
              ++ decode_bytes fuel' rest'
        | _ => []
        end
  | _, _ => []
  end.

Fixpoint bytes_of (s : string) : list N :=
  match s with
  | EmptyString => []
  | String a s' => N_of_ascii a :: bytes_of s'
  end.

Definition decode (s : string) : str :=
  let bs := bytes_of s in decode_bytes (length bs) bs.
End Utf8.

Abbreviation utf16 := Utf8.decode.

Definition str_eqb (a b : str) : bool := bool_decide (a = b).

Definition inRange (lo hi c : N) : bool := ((lo <=? c) && (c <=? hi))%N.

(** White space and line terminators of ECMAScript: the set behind
    [\s] and behind [String.prototype.trim]. *)
Definition isSpace (c : N) : bool :=
  (inRange 9 13 c || (c =? 32) || (c =? 160) || (c =? 5760)
   || inRange 8192 8202 c || (c =? 8232) || (c =? 8233) || (c =? 8239)
   || (c =? 8287) || (c =? 12288) || (c =? 65279))%N.

Definition isLineTerminator (c : N) : bool :=
  ((c =? 10) || (c =? 13) || (c =? 8232) || (c =? 8233))%N.

Definition isDigit (c : N) : bool := inRange 48 57 c.

Fixpoint trimStart (s : str) : str :=
  match s with
  | c :: s' => if isSpace c then trimStart s' else s
  | [] => []
  end.

Definition trimEnd (s : str) : str := rev (trimStart (rev s)).

Definition trim (s : str) : str := trimEnd (trimStart s).

(** [s.slice(a, b)] for integer arguments. *)
Definition slice (s : str) (a b : Z) : str :=
  let len := Z.of_nat (length s) in
  let from := if (a <? 0)%Z then Z.max (len + a) 0 else Z.min a len in
  let to := if (b <? 0)%Z then Z.max (len + b) 0 else Z.min b len in
  take (Z.to_nat (to - from)) (drop (Z.to_nat from) s).

(** [s.substr(a, n)] for integer arguments. *)
Definition substr (s : str) (a n : Z) : str :=
  let len := Z.of_nat (length s) in
  let from := if (a <? 0)%Z then Z.max (len + a) 0 else Z.min a len in
  let cnt := Z.min (Z.max n 0) (len - from) in
  take (Z.to_nat cnt) (drop (Z.to_nat from) s).

Fixpoint isPrefixOf (p s : str) : bool :=
  match p, s with
  | [], _ => true
  | a :: p', b :: s' => (a =? b)%N && isPrefixOf p' s'
  | _ :: _, [] => false
  end.

(** [s.includes(p)] *)
Fixpoint includes (s p : str) : bool :=
  isPrefixOf p s ||
  match s with
  | [] => false
  | _ :: s' => includes s' p
  end.

Definition lowerUnit (c : N) : N := if inRange 65 90 c then (c + 32)%N else c.

(** [s.toLowerCase()].  The program lower-cases a string only to look
    for the ASCII words circle, read, complete, rewrite and put inside
    it or to compare it with the word none.  Outside A-Z the only code
    units whose lower case contains an ASCII letter are U+0130 (i
    followed by a combining dot) and U+212A (k); both are mapped as
    ECMAScript does. *)
Definition toLowerCase (s : str) : str :=
  flat_map (fun c => if (c =? 304)%N then [105; 775]%N
                     else if (c =? 8490)%N then [107%N]
                     else [lowerUnit c]) s.

(** [s.toUpperCase()].  The program upper-cases an option letter taken
    from A-D and a shading colour it compares with FFFFFF; beside a-z
    the small ligatures ff, fi, fl, ffi, ffl, long-st and st, the sharp
    s, the dotless i and the long s are the code units whose upper case
    holds an ASCII letter, and they are mapped as ECMAScript does. *)
Definition toUpperCase (s : str) : str :=
  flat_map (fun c =>
    if inRange 97 122 c then [(c - 32)%N]
    else if (c =? 223)%N then [83; 83]%N
    else if (c =? 305)%N then [73%N]
    else if (c =? 383)%N then [83%N]
    else if (c =? 64256)%N then [70; 70]%N
    else if (c =? 64257)%N then [70; 73]%N
    else if (c =? 64258)%N then [70; 76]%N
    else if (c =? 64259)%N then [70; 70; 73]%N
    else if (c =? 64260)%N then [70; 70; 76]%N
    else if (c =? 64261)%N then [83; 84]%N
    else if (c =? 64262)%N then [83; 84]%N
    else [c]) s.

(** ** Regular expressions

    The patterns of the program are regular-expression literals; they are
    kept as data and run by a backtracking matcher that follows the
    ECMAScript semantics: alternatives left to right, greedy and lazy
    repetition, an iteration that consumes nothing is rejected, the
    first start index that matches wins. *)

Inductive regex : Type :=
| RChar (p : N -> bool)
| REmpty
| RSeq (r1 r2 : regex)
| RAlt (r1 r2 : regex)
| RStar (greedy : bool) (r : regex)
| RGroup (i : nat) (r : regex)
| RBol
| REol.

Record mstate : Type := MState {
  m_pos : nat;
  m_rest : str;
  m_caps : list (nat * str)
}.

Fixpoint rmatch (r : regex) (k : mstate -> option mstate) (s : mstate)
  : option mstate :=
  match r with
  | RChar p =>
      match m_rest s with
      | c :: t => if p c then k (MState (S (m_pos s)) t (m_caps s)) else None
      | [] => None
      end
  | REmpty => k s
  | RSeq a b => rmatch a (rmatch b k) s
  | RAlt a b =>
      match rmatch a k s with
      | Some x => Some x
      | None => rmatch b k s
      end
  | RStar g a =>
      (fix loop (fuel : nat) (s : mstate) {struct fuel} : option mstate :=
         match fuel with
         | O => k s
         | S fuel' =>
             if g then
               match rmatch a (fun s' => if m_pos s' =? m_pos s then None
                                         else loop fuel' s') s with
               | Some x => Some x
               | None => k s
               end
             else
               match k s with
               | Some x => Some x
               | None =>
                   rmatch a (fun s' => if m_pos s' =? m_pos s then None
                                       else loop fuel' s') s
               end
         end) (length (m_rest s)) s
  | RGroup i a =>
      rmatch a (fun s' =>
        k (MState (m_pos s') (m_rest s')
             ((i, take (m_pos s' - m_pos s) (m_rest s)) :: m_caps s'))) s
  | RBol => if m_pos s =? 0 then k s else None
  | REol => match m_rest s with [] => k s | _ :: _ => None end
  end.

(** The result of a successful [exec]: [m.index], [m[0]], the groups,
    and the text that follows the match. *)
Record rmatch_result : Type := MatchResult {
  index : nat;
  matched : str;
  groups : list (nat * str);
  after : str
}.

Fixpoint search_from (r : regex) (pos : nat) (rest : str)
  : option rmatch_result :=
  match rmatch r Some (MState pos rest []) with
  | Some s' =>
      Some (MatchResult pos (take (m_pos s' - pos) rest) (m_caps s') (m_rest s'))
  | None =>
      match rest with
      | [] => None
      | _ :: t => search_from r (S pos) t
      end
  end.

(** [s.match(r)] for a pattern without the g flag. *)
Definition regex_match (r : regex) (s : str) : option rmatch_result :=
  search_from r 0 s.

Definition regex_test (r : regex) (s : str) : bool :=
  bool_decide (is_Some (regex_match r s)).

(** [m[i]] of a group that took part in the match. *)
Definition group (i : nat) (m : rmatch_result) : str :=
  match List.find (fun c => fst c =? i) (groups m) with
  | Some c => snd c
  | None => []
  end.

(** Successive [exec] calls of a pattern with the g flag, until the
    first null: each call searches from lastIndex, the end of the match
    before.  A call whose match is empty would leave lastIndex where it
    is; [None] stands for that loop, which never ends. *)
Fixpoint exec_all (fuel : nat) (r : regex) (pos : nat) (rest : str)
  : option (list rmatch_result) :=
  match search_from r pos rest with
  | None => Some []
  | Some m =>
      match fuel with
      | O => None
      | S fuel' =>
          if bool_decide (matched m = []) then None
          else ms ← exec_all fuel' r (index m + length (matched m)) (after m);
               Some (m :: ms)
      end
  end.

(** *** Pattern building blocks *)

(** Canonicalize of a pattern without the u flag maps a code unit to
    its one-unit upper case.  It is spelled out for the letters the
    patterns of the program hold: ASCII, the Latin-1 letters and
    U+0111; on the others it only has to keep a code unit apart from
    those, which the identity does. *)
Definition canonicalize (c : N) : N :=
  if inRange 97 122 c then (c - 32)%N
  else if inRange 224 254 c && negb (c =? 247)%N then (c - 32)%N
  else if (c =? 273)%N then 272%N
  else c.

Definition ichar (c : N) : regex :=
  RChar (fun x => (canonicalize x =? canonicalize c)%N).

Fixpoint iword (w : str) : regex :=
  match w with
  | [] => REmpty
  | [c] => ichar c
  | c :: w' => RSeq (ichar c) (iword w')
  end.

Definition rplus (r : regex) : regex := RSeq r (RStar true r).
Definition ropt (r : regex) : regex := RAlt r REmpty.
Definition rseq (rs : list regex) : regex := foldr RSeq REmpty rs.

Definition rspace : regex := RChar isSpace.
Definition rdigit : regex := RChar isDigit.
Definition rdot : regex := RChar (fun c => negb (isLineTerminator c)).

Set Warnings "-register-all".

(** ** Data model (the interfaces of the program) *)

Record ParagraphRun : Type := {
  run_text : str;
  hasHighlight : bool;
  hasUnderline : bool;
  hasBold : bool;
  run_start : Z;
  run_end : Z
}.

Record ParagraphData : Type := {
  pd_text : str;
  pd_runs : list ParagraphRun
}.

Record QuestionOption : Type := {
  letter : str;
  opt_text : str;
  textWithUnderline : str;
  isCorrect : bool
}.

Record SectionInfo : Type := {
  sec_letter : str;
  sec_name : str;
  sec_points : str
}.

Inductive QuestionType : Type := multiple_choice | writing | unknown.

Record Question : Type := {
  number : N;
  section : option SectionInfo;
  part : option str;
  q_text : str;
  options : list QuestionOption;
  correctAnswer : option str;
  type : QuestionType;
  passage : str
}.

Record ExamSection : Type := {
  es_name : str;
  es_description : str;
  es_points : str;
  es_questions : list Question;
  es_readingPassage : str
}.

(** [answers] is an object whose property names are question numbers;
    a Number names a property by its decimal string, which differs for
    different Numbers, so the object is a map keyed by the Number. *)
Record ExamData : Type := {
  title : str;
  timeLimit : Z;
  sections : list ExamSection;
  questions : list Question;
  answers : gmap N str
}.


Global Instance QuestionType_eq_dec : EqDecision QuestionType.
Proof. solve_decision. Defined.
Global Instance QuestionOption_eq_dec : EqDecision QuestionOption.
Proof. solve_decision. Defined.
Global Instance SectionInfo_eq_dec : EqDecision SectionInfo.
Proof. solve_decision. Defined.
Global Instance Question_eq_dec : EqDecision Question.
Proof. solve_decision. Defined.

(** ** The document tree

    The part of the DOM the parser reads: elements with a qualified
    name, attributes and children, and text nodes. *)

Inductive node : Type :=
| Element (tagName : str) (attributes : list (str * str)) (childNodes : list node)
| TextNode (data : str).

(** The descendants of a node in tree order. *)
Fixpoint descendants (n : node) : list node :=
  match n with
  | Element _ _ cs =>
      (fix over (l : list node) : list node :=
         match l with
         | [] => []
         | c :: l' => c :: descendants c ++ over l'
         end) cs
  | TextNode _ => []
  end.

Definition hasTagName (name : str) (n : node) : bool :=
  match n with
  | Element t _ _ => str_eqb t name
  | TextNode _ => false
  end.

(** [n.getElementsByTagName(name)] *)
Definition getElementsByTagName (name : str) (n : node) : list node :=
  List.filter (hasTagName name) (descendants n).

(** [n.textContent] of an element *)
Definition textContent (n : node) : str :=
  match n with
  | TextNode d => d
  | Element _ _ _ =>
      flat_map (fun d => match d with TextNode t => t | Element _ _ _ => [] end)
        (descendants n)
  end.

(** [n.getAttribute(name)]; [None] is null. *)
Definition getAttribute (name : str) (n : node) : option str :=
  match n with
  | Element _ attrs _ =>
      snd <$> List.find (fun a => str_eqb (fst a) name) attrs
  | TextNode _ => None
  end.

(** A document is its root node; its own childNodes hold the document
    element. *)
Abbreviation Document := node.

(** ** Sorting

    [Array.prototype.sort] is stable; with a comparator that orders by a
    key its result is the stable insertion sort of the array. *)

Section js_sort.
Context {A : Type} (cmp : A -> A -> Z).

Fixpoint sort_insert (x : A) (l : list A) : list A :=
  match l with
  | [] => [x]
  | y :: l' => if (cmp x y <=? 0)%Z then x :: y :: l'
               else y :: sort_insert x l'
  end.

Definition js_sort (l : list A) : list A := foldr sort_insert [] l.

(** The order the comparator stands for. *)
Definition cmp_le (x y : A) : Prop := (cmp x y <= 0)%Z.
End js_sort.

(** [a.localeCompare(b)] on the option letters, which are single
    letters of A-D: their order is the order of the code units. *)
Fixpoint localeCompare (a b : str) : Z :=
  match a, b with
  | [], [] => 0
  | [], _ :: _ => (-1)
  | _ :: _, [] => 1
  | x :: a', y :: b' =>
      if (x <? y)%N then (-1) else if (y <? x)%N then 1 else localeCompare a' b'
  end%Z.

(** ** escapeHtml and buildFormattedText *)

(** [div.textContent = text; return div.innerHTML]: the serialisation
    of a text node replaces the ampersand, the no-break space and the
    angle brackets. *)
Definition escapeUnit (c : N) : str :=
  if (c =? 38)%N then utf16 "&amp;"
  else if (c =? 160)%N then utf16 "&nbsp;"
  else if (c =? 60)%N then utf16 "&lt;"
  else if (c =? 62)%N then utf16 "&gt;"
  else [c].

Definition escapeHtml (text : str) : str := flat_map escapeUnit text.

(** [s.replace(/p+/g, ' ')] for a character class [p] *)
Fixpoint collapseFrom (p : N -> bool) (inRun : bool) (s : str) : str :=
  match s with
  | [] => []
  | c :: s' =>
      if p c then
        if inRun then collapseFrom p true s' else 32%N :: collapseFrom p true s'
      else c :: collapseFrom p false s'
  end.

Definition collapse (p : N -> bool) (s : str) : str := collapseFrom p false s.

Definition quote : N := 34%N.
Definition span_open : str :=
  utf16 "<span class=" ++ [quote] ++ utf16 "underlined-part" ++ [quote]
  ++ utf16 ">".
Definition span_close : str := utf16 "</span>".
Definition strong_open : str := utf16 "<strong>".
Definition strong_close : str := utf16 "</strong>".

(** The two guards of the loop body: the run misses the range, or the
    portion it contributes is empty. *)
Definition textPortion (run : ParagraphRun) (startPos endPos : Z) : str :=
  if ((run_end run <=? startPos) || (endPos <=? run_start run))%Z then []
  else
    let overlapStart := Z.max (run_start run) startPos in
    let overlapEnd := Z.min (run_end run) endPos in
    let runOffset := (overlapStart - run_start run)%Z in
    let runLength := (overlapEnd - overlapStart)%Z in
    substr (run_text run) runOffset runLength.

Definition applyFormatting (run : ParagraphRun) (formattedText : str) : str :=
  if hasUnderline run && hasBold run then
    span_open ++ strong_open ++ formattedText ++ strong_close ++ span_close
  else if hasUnderline run then span_open ++ formattedText ++ span_close
  else if hasBold run then strong_open ++ formattedText ++ strong_close
  else formattedText.

(** The value of [result] when the loop over the runs ends. *)
Fixpoint formattedRuns (runs : list ParagraphRun) (startPos endPos : Z) : str :=
  match runs with
  | [] => []
  | run :: runs' =>
      let portion := textPortion run startPos endPos in
      (if bool_decide (portion = []) then []
       else applyFormatting run (escapeHtml portion))
      ++ formattedRuns runs' startPos endPos
  end.

Definition buildFormattedText (runs : list ParagraphRun) (startPos endPos : Z)
  : str :=
  trim (collapse isSpace (formattedRuns runs startPos endPos)).

(** ** extractOptionsWithUnderline *)

Definition unit_of (s : string) : N := hd 0%N (utf16 s).

(** [/([A-D])[\.\)]\s*/g] *)
Definition optionRegex : regex :=
  rseq [RGroup 1 (RChar (inRange (unit_of "A") (unit_of "D")));
        RChar (fun c => (c =? unit_of ".")%N || (c =? unit_of ")")%N);
        RStar true rspace].

Record optionMatch : Type := {
  om_letter : str;
  matchStart : Z;
  matchEnd : Z;
  contentStart : Z
}.

Definition endsWithSpace (s : str) : bool :=
  match last s with Some c => (c =? 32)%N | None => false end.

Definition optionMatch_of (m : rmatch_result) : optionMatch :=
  let len := Z.of_nat (length (matched m)) in
  {| om_letter := toUpperCase (group 1 m);
     matchStart := Z.of_nat (index m);
     matchEnd := (Z.of_nat (index m) + len
                  - (if endsWithSpace (matched m) then 1 else 0))%Z;
     contentStart := (Z.of_nat (index m) + len)%Z |}.

(** The array [matches] the while loop fills; the loop ends because
    every match of the pattern holds at least two code units
    ([optionMatches_total]). *)
Definition optionMatches (line : str) : list optionMatch :=
  match exec_all (length line) optionRegex 0 line with
  | Some ms => optionMatch_of <$> ms
  | None => []
  end.

Definition overlapsHighlight (matchStart nextStart : Z) (run : ParagraphRun)
  : bool :=
  let overlapStart := Z.max (run_start run) matchStart in
  let overlapEnd := Z.min (run_end run) nextStart in
  (overlapStart <? overlapEnd)%Z && hasHighlight run.

Definition hasLetter (l : str) (opts : list QuestionOption) : bool :=
  bool_decide (is_Some (List.find (fun o => str_eqb (letter o) l) opts)).

(** The for loop over [matches]; [opts] is [question.options]. *)
Fixpoint addOptions (line : str) (runs : list ParagraphRun)
    (ms : list optionMatch) (opts : list QuestionOption)
  : list QuestionOption :=
  match ms with
  | [] => opts
  | m :: ms' =>
      let nextStart :=
        match ms' with
        | m' :: _ => matchStart m'
        | [] => Z.of_nat (length line)
        end in
      let optionText :=
        trim (collapse isSpace
                (collapse (fun c => (c =? 9)%N)
                   (trim (slice line (contentStart m) nextStart)))) in
      if hasLetter (om_letter m) opts || bool_decide (optionText = []) then
        addOptions line runs ms' opts
      else
        addOptions line runs ms'
          (opts ++ [{| letter := om_letter m;
                       opt_text := optionText;
                       textWithUnderline :=
                         buildFormattedText runs (contentStart m) nextStart;
                       isCorrect :=
                         existsb (overlapsHighlight (matchStart m) nextStart)
                           runs |}])
  end.

Definition set_options (q : Question) (o : list QuestionOption) : Question :=
  {| number := number q; section := section q; part := part q;
     q_text := q_text q; options := o; correctAnswer := correctAnswer q;
     type := type q; passage := passage q |}.

Definition set_type (q : Question) (t : QuestionType) : Question :=
  {| number := number q; section := section q; part := part q;
     q_text := q_text q; options := options q;
     correctAnswer := correctAnswer q; type := t; passage := passage q |}.

Definition set_correctAnswer (q : Question) (a : option str) : Question :=
  {| number := number q; section := section q; part := part q;
     q_text := q_text q; options := options q; correctAnswer := a;
     type := type q; passage := passage q |}.

Definition set_text (q : Question) (t : str) : Question :=
  {| number := number q; section := section q; part := part q;
     q_text := t; options := options q; correctAnswer := correctAnswer q;
     type := type q; passage := passage q |}.

Definition compareLetters (a b : QuestionOption) : Z :=
  localeCompare (letter a) (letter b).

(** The function mutates [question]; the embedding returns the object
    as it is when the function returns. *)
Definition extractOptionsWithUnderline (pData : ParagraphData)
    (question : Question) : Question :=
  let line := pd_text pData in
  let runs := pd_runs pData in
  let matches := optionMatches line in
  if bool_decide (length matches = 0) then question
  else
    let q1 := set_options question (addOptions line runs matches (options question)) in
    let q2 :=
      if (2 <=? length (options q1)) && negb (bool_decide (type q1 = writing))
      then set_type q1 multiple_choice else q1 in
    set_options q2 (js_sort compareLetters (options q2)).

(** ** parseQuestionsFromParagraphs *)

Definition canonIn (lo hi : string) (c : N) : bool :=
  inRange (unit_of lo) (unit_of hi) (canonicalize c).

(** [/SECTION\s+([A-Z])\.\s*([^:]+):\s*(.*?POINTS?)/i] *)
Definition sectionRegex : regex :=
  rseq [iword (utf16 "SECTION"); rplus rspace;
        RGroup 1 (RChar (canonIn "A" "Z"));
        ichar (unit_of "."); RStar true rspace;
        RGroup 2 (rplus (RChar (fun c => negb (c =? unit_of ":")%N)));
        ichar (unit_of ":"); RStar true rspace;
        RGroup 3 (rseq [RStar false rdot; iword (utf16 "POINT");
                        ropt (ichar (unit_of "S"))])].

(** [/^([IVX]+)\.\s*(.+)/i] *)
Definition partRegex : regex :=
  rseq [RBol;
        RGroup 1 (rplus (RChar (fun c =>
          let u := canonicalize c in
          (u =? unit_of "I")%N || (u =? unit_of "V")%N || (u =? unit_of "X")%N)));
        ichar (unit_of "."); RStar true rspace;
        RGroup 2 (rplus rdot)].

(** [/^(A surprising gift|Stewart the Dragon)/i] *)
Definition passageRegex : regex :=
  rseq [RBol;
        RGroup 1 (RAlt (iword (utf16 "A surprising gift"))
                       (iword (utf16 "Stewart the Dragon")))].

(** [/^Câu\s*\d+/i] *)
Definition questionLineRegex : regex :=
  rseq [RBol; iword (utf16 "Câu"); RStar true rspace; rplus rdigit].

(** [/^Câu\s*(\d+)[\.\s:]+(G)$/i], the group [G] being [.*] *)
Definition questionRegex : regex :=
  rseq [RBol; iword (utf16 "Câu"); RStar true rspace;
        RGroup 1 (rplus rdigit);
        rplus (RChar (fun c => (c =? unit_of ".")%N || isSpace c
                               || (c =? unit_of ":")%N));
        RGroup 2 (RStar true rdot); REol].

(** [/^\s*[A-D][\.\)]/i] *)
Definition optionLineRegex : regex :=
  rseq [RBol; RStar true rspace; RChar (canonIn "A" "D");
        RChar (fun c => (c =? unit_of ".")%N || (c =? unit_of ")")%N)].

(** [/Đáp án:\s*(.+)/i] *)
Definition answerRegex : regex :=
  rseq [iword (utf16 "Đáp án:"); RStar true rspace; RGroup 1 (rplus rdot)].

(** The integer a string of decimal digits denotes. *)
Definition digitsValue (s : str) : N :=
  foldl (fun acc c => (10 * acc + (c - 48))%N) 0%N s.

(** The Number value for a natural: the nearest double, the one with
    the even significand when two are equally near.  A double holds 53
    significant bits.  From 2^1024 - 2^970 on the nearest value is
    Infinity; it is represented by 2^1024, which lies above every
    finite double, so that the order and the equality of the Number
    values are those of their representatives. *)
Definition infinity : N := (2 ^ 1024)%N.

Definition roundToDouble (n : N) : N :=
  let bits := N.size n in
  if (bits <=? 53)%N then n
  else
    let sh := (bits - 53)%N in
    let q := N.shiftr n sh in
    let r := N.land n (N.ones sh) in
    let half := N.shiftl 1 (sh - 1) in
    let q' :=
      if (half <? r)%N || ((r =? half)%N && N.odd q) then (q + 1)%N else q in
    N.min (N.shiftl q' sh) infinity.

(** [parseInt(s, 10)] of a string of decimal digits: the Number value
    for the integer the digits denote.  (The standard lets an
    implementation take the digits behind the twentieth for 0; the
    model, as the engines do, reads them all.) *)
Definition parseInt (s : str) : N := roundToDouble (digitsValue s).

Definition newline : str := [10%N].

Definition isPartLine (line : str) : bool :=
  regex_test partRegex line &&
  (includes (toLowerCase line) (utf16 "circle")
   || includes (toLowerCase line) (utf16 "read")
   || includes (toLowerCase line) (utf16 "complete")
   || includes (toLowerCase line) (utf16 "rewrite")
   || includes (toLowerCase line) (utf16 "put")).

(** The local variables of the function, with [examData.questions]. *)
Record context : Type := Ctx {
  currentSection : option SectionInfo;
  currentPart : option str;
  currentQuestion : option Question;
  readingPassage : str;
  inReading : bool;
  pushed : list Question
}.

Definition initialContext : context := Ctx None None None [] false [].

(** Resolving the type of a question when it is pushed. *)
Definition finalize (q : Question) : Question :=
  if bool_decide (type q = unknown) then
    set_type q (if 2 <=? length (options q) then multiple_choice else writing)
  else q.

Definition pushCurrent (st : context) : list Question :=
  match currentQuestion st with
  | Some q => pushed st ++ [finalize q]
  | None => pushed st
  end.

(** One turn of the loop over the paragraphs. *)
Definition step (st : context) (pData : ParagraphData) : context :=
  let line := trim (pd_text pData) in
  if bool_decide (line = []) then st
  else
    match regex_match sectionRegex line with
    | Some m =>
        Ctx (Some {| sec_letter := group 1 m;
                         sec_name := trim (group 2 m);
                         sec_points := group 3 m |})
          (currentPart st) (currentQuestion st) (readingPassage st)
          (inReading st) (pushed st)
    | None =>
    if isPartLine line then
      Ctx (currentSection st) (Some line) (currentQuestion st)
        (readingPassage st) (inReading st) (pushed st)
    else if regex_test passageRegex line then
      Ctx (currentSection st) (currentPart st) (currentQuestion st)
        (line ++ newline) true (pushed st)
    else if inReading st && negb (regex_test questionLineRegex line) then
      Ctx (currentSection st) (currentPart st) (currentQuestion st)
        (readingPassage st ++ line ++ newline) (inReading st) (pushed st)
    else
      let inReading' :=
        if regex_test questionLineRegex line then false else inReading st in
      match regex_match questionRegex line with
      | Some m =>
          let question :=
            {| number := parseInt (group 1 m);
               section := currentSection st;
               part := currentPart st;
               q_text := trim (group 2 m);
               options := [];
               correctAnswer := None;
               type := unknown;
               passage := readingPassage st |} in
          Ctx (currentSection st) (currentPart st)
            (Some (extractOptionsWithUnderline pData question))
            (readingPassage st) inReading' (pushCurrent st)
      | None =>
          match currentQuestion st with
          | None =>
              Ctx (currentSection st) (currentPart st) None
                (readingPassage st) inReading' (pushed st)
          | Some q =>
              let q' :=
                if regex_test optionLineRegex line then
                  extractOptionsWithUnderline pData q
                else
                  match regex_match answerRegex line with
                  | Some m =>
                      let ansText := trim (group 1 m) in
                      set_type
                        (if bool_decide (ansText = []) then q
                         else set_correctAnswer q (Some ansText))
                        writing
                  | None =>
                      set_text q
                        (q_text q
                         ++ (if bool_decide (q_text q = []) then [] else newline)
                         ++ line)
                  end in
              Ctx (currentSection st) (currentPart st) (Some q')
                (readingPassage st) inReading' (pushed st)
          end
      end
    end.

Definition runLoop (paragraphs : list ParagraphData) (st : context) : context :=
  foldl step st paragraphs.

(** The forEach that reads the answer of a multiple-choice question off
    its highlighted option; [acc] is the pair of the questions already
    visited and [examData.answers]. *)
Definition markAnswer (acc : list Question * gmap N str) (q : Question)
  : list Question * gmap N str :=
  if bool_decide (type q = multiple_choice) then
    match List.find isCorrect (options q) with
    | Some correctOpt =>
        (acc.1 ++ [set_correctAnswer q (Some (letter correctOpt))],
         <[number q := letter correctOpt]> acc.2)
    | None => (acc.1 ++ [q], acc.2)
    end
  else (acc.1 ++ [q], acc.2).

Definition markAnswers (qs : list Question) : list Question * gmap N str :=
  foldl markAnswer ([], ∅) qs.

(** [a.number - b.number] as the sort reads it: its sign, a NaN (the
    difference of two Infinity) counting as zero. *)
Definition compareNumbers (a b : Question) : Z :=
  (Z.of_N (number a) - Z.of_N (number b))%Z.

(** ** groupQuestionsIntoSections *)

Definition sectionKey (q : Question) : str :=
  match section q with
  | Some s => sec_letter s ++ utf16 "-" ++ sec_name s
  | None => utf16 "default"
  end.

(** [sectionMap] is a Map, which keeps its keys in insertion order. *)
Fixpoint mapPush (key : str) (q : Question) (m : list (str * list Question))
  : list (str * list Question) :=
  match m with
  | [] => [(key, [q])]
  | (k, qs) :: m' =>
      if str_eqb k key then (k, qs ++ [q]) :: m'
      else (k, qs) :: mapPush key q m'
  end.

Definition buildSectionMap (qs : list Question) : list (str * list Question) :=
  foldl (fun m q => mapPush (sectionKey q) q m) [] qs.

(** The record pushed for one entry of the map.  An entry is never
    empty ([buildSectionMap_nonempty]), so [questions[0]] exists. *)
Definition sectionOfEntry (entry : str * list Question) : list ExamSection :=
  match entry.2 with
  | [] => []
  | firstQ :: _ =>
      [{| es_name :=
            match section firstQ with
            | Some s => utf16 "SECTION " ++ sec_letter s ++ utf16 ". " ++ sec_name s
            | None => utf16 "Tất cả câu hỏi"
            end;
          es_description := default [] (part firstQ);
          es_points := default [] (sec_points <$> section firstQ);
          es_questions := entry.2;
          es_readingPassage := passage firstQ |}]
  end.

Definition groupQuestionsIntoSections (qs : list Question) : list ExamSection :=
  flat_map sectionOfEntry (buildSectionMap qs).

(** The function fills [examData]; the embedding returns the three
    fields it writes. *)
Definition parseQuestionsFromParagraphs (paragraphs : list ParagraphData)
  : list ExamSection * list Question * gmap N str :=
  let st := runLoop paragraphs initialContext in
  let marked := markAnswers (pushCurrent st) in
  let sorted := js_sort compareNumbers marked.1 in
  (groupQuestionsIntoSections sorted, sorted, marked.2).

(** ** parseDocumentXML *)

Definition firstByTagName (name : string) (n : node) : option node :=
  head (getElementsByTagName (utf16 name) n).

Definition attr (name : string) (n : node) : option str :=
  getAttribute (utf16 name) n.

(** A value of [getAttribute] is falsy when it is null or empty. *)
Definition falsy (v : option str) : bool :=
  match v with
  | None => true
  | Some s => bool_decide (s = [])
  end.

Definition str_neb (v : option str) (s : string) : bool :=
  negb (bool_decide (v = Some (utf16 s))).

Definition highlightOf (rPr : node) : bool :=
  match firstByTagName "w:highlight" rPr with
  | Some highlight => str_neb (attr "w:val" highlight) "none"
  | None => false
  end
  ||
  match firstByTagName "w:shd" rPr with
  | Some shd =>
      let fill := attr "w:fill" shd in
      negb (falsy fill) && str_neb fill "auto"
      && str_neb (toUpperCase <$> fill) "FFFFFF"
  | None => false
  end.

Definition underlineOf (rPr : node) : bool :=
  match firstByTagName "w:u" rPr with
  | Some underline =>
      let uVal := attr "w:val" underline in
      falsy uVal || str_neb (toLowerCase <$> uVal) "none"
  | None => false
  end.

Definition boldOf (rPr : node) : bool :=
  match firstByTagName "w:b" rPr with
  | Some bold =>
      let bVal := attr "w:val" bold in
      falsy bVal || str_neb bVal "0"
  | None => false
  end.

Definition runTextOf (run : node) : str :=
  flat_map textContent (getElementsByTagName (utf16 "w:t") run).

(** The three flags of a run element, read off its first [w:rPr]
    descendant. *)
Definition runHighlight (run : node) : bool :=
  from_option highlightOf false (firstByTagName "w:rPr" run).
Definition runUnderline (run : node) : bool :=
  from_option underlineOf false (firstByTagName "w:rPr" run).
Definition runBold (run : node) : bool :=
  from_option boldOf false (firstByTagName "w:rPr" run).

(** The loop over the runs of a paragraph. *)
Fixpoint paragraphRunsFrom (runs : list node) (currentPos : Z)
  : list ParagraphRun :=
  match runs with
  | [] => []
  | run :: runs' =>
      let runText := runTextOf run in
      if bool_decide (runText = []) then paragraphRunsFrom runs' currentPos
      else
        {| run_text := runText;
           hasHighlight := runHighlight run;
           hasUnderline := runUnderline run;
           hasBold := runBold run;
           run_start := currentPos;
           run_end := (currentPos + Z.of_nat (length runText))%Z |}
        :: paragraphRunsFrom runs' (currentPos + Z.of_nat (length runText))%Z
  end.

Definition paragraphDataOf (p : node) : list ParagraphData :=
  let paragraphRuns :=
    paragraphRunsFrom (getElementsByTagName (utf16 "w:r") p) 0 in
  let paragraphText := flat_map run_text paragraphRuns in
  if bool_decide (trim paragraphText = []) then []
  else [{| pd_text := paragraphText; pd_runs := paragraphRuns |}].

Definition allParagraphData (xmlDoc : Document) : list ParagraphData :=
  flat_map paragraphDataOf (getElementsByTagName (utf16 "w:p") xmlDoc).

Definition parseDocumentXML (xmlDoc : Document) : ExamData :=
  let parsed := parseQuestionsFromParagraphs (allParagraphData xmlDoc) in
  {| title := utf16 "Đề thi Tiếng Anh";
     timeLimit := 60;
     sections := parsed.1.1;
     questions := parsed.1.2;
     answers := parsed.2 |}.

(** ** parseWordToExam

    The function awaits the file and two libraries.  Each of its three
    promises may be rejected: [file.arrayBuffer()] when the file cannot
    be read, [JSZip.loadAsync] for what is not an archive, and
    [async('string')] for an entry that cannot be decompressed; a
    rejection ends the function.  The DOMParser of the browser never
    throws: for text that is not well-formed [parseFromString] returns
    a document that describes the error. *)

(** How a call ends in rejection: with the reason of one of the three
    promises, or with the Error of line 27.  The last constructor is
    the error the specification names for text that is not well-formed;
    no line of the function raises it. *)
Inductive parseError : Type :=
| FileReadError
| ArchiveFormatError
| EntryReadError
| MissingEntryError
| MalformedDocumentError.

Inductive outcome : Type :=
| Resolved (data : ExamData)
| Rejected (e : parseError).

(** A File and the entry of an archive, each with the result of the
    one method the function calls on it; [None] is a rejected
    promise. *)
Record File : Type := {
  arrayBuffer : option (list N)
}.

Record ZipObject : Type := {
  async_string : option str
}.

Section parseWordToExam.
(** [JSZip.loadAsync]: the entries of the archive by name, or a
    rejection *)
Variable loadAsync : list N -> option (list (str * ZipObject)).
(** the XML parser behind the DOMParser: [None] when the text is not
    well-formed *)
Variable xmlParse : str -> option Document.
(** the document the DOMParser hands out instead *)
Variable errorDocument : str -> Document.

Definition parseFromString (text : str) : Document :=
  match xmlParse text with
  | Some doc => doc
  | None => errorDocument text
  end.

(** [zip.file(path)]; [None] is null. *)
Definition zipFile (path : str) (zip : list (str * ZipObject))
  : option ZipObject :=
  snd <$> List.find (fun e => str_eqb (fst e) path) zip.

(** The test [!documentXml] holds of undefined, the value for a
    missing entry, and of the empty string. *)
Definition parseWordToExam (file : File) : outcome :=
  match arrayBuffer file with
  | None => Rejected FileReadError
  | Some buffer =>
      match loadAsync buffer with
      | None => Rejected ArchiveFormatError
      | Some zip =>
          match zipFile (utf16 "word/document.xml") zip with
          | None => Rejected MissingEntryError
          | Some entry =>
              match async_string entry with
              | None => Rejected EntryReadError
              | Some documentXml =>
                  if bool_decide (documentXml = []) then
                    Rejected MissingEntryError
                  else
                    Resolved (parseDocumentXML (parseFromString documentXml))
              end
          end
      end
  end.
End parseWordToExam.

(** ** validateExamData *)

(** The decimal numeral of a natural; the fuel is enough for every
    digit ([decimalOf_value]). *)
Fixpoint decimalDigits (fuel : nat) (n : N) (acc : str) : str :=
  match fuel with
  | O => acc
  | S fuel' =>
      let acc' := (48 + n mod 10)%N :: acc in
      if (n <? 10)%N then acc' else decimalDigits fuel' (n / 10)%N acc'
  end.

Definition decimalOf (n : N) : str :=
  decimalDigits (S (N.to_nat (N.log2 n))) n [].

(** Number::toString prints the decimal with the fewest significant
    digits that reads back as the Number, the nearest one when there
    are several, the one with the even last digit when two are equally
    near.  [nearestMultiple x scale] is that decimal among the
    multiples of [scale], a power of ten, if one of the two multiples
    around [x] reads back as [x]. *)
Definition nearestMultiple (x scale : N) : option N :=
  let lo := (x / scale * scale)%N in
  let hi := (lo + scale)%N in
  match (roundToDouble lo =? x)%N, (roundToDouble hi =? x)%N with
  | true, true =>
      if (x - lo <? hi - x)%N then Some lo
      else if (hi - x <? x - lo)%N then Some hi
      else if N.even (x / scale) then Some lo else Some hi
  | true, false => Some lo
  | false, true => Some hi
  | false, false => None
  end.

(** The search runs from one significant digit upwards: [scale] is
    10^k, and the multiples of 1 end it with [x] itself. *)
Fixpoint shortestFrom (k : nat) (x scale : N) : N :=
  match k with
  | O => x
  | S k' =>
      match nearestMultiple x scale with
      | Some c => c
      | None => shortestFrom k' x (scale / 10)%N
      end
  end.

Definition shortestDecimal (x : N) : N :=
  let k := length (decimalOf x) - 1 in
  shortestFrom k x (10 ^ N.of_nat k)%N.

Fixpoint dropZeros (s : str) : str :=
  match s with
  | c :: s' => if (c =? 48)%N then dropZeros s' else s
  | [] => []
  end.

(** The exponent form of a decimal of more than 21 digits: the first
    digit, the others up to the last that is not 0 behind a point, and
    the exponent. *)
Definition exponentForm (digits : str) : str :=
  let significant := rev (dropZeros (rev digits)) in
  take 1 significant
  ++ (if 1 <? length significant then utf16 "." ++ drop 1 significant else [])
  ++ utf16 "e+" ++ decimalOf (N.of_nat (length digits - 1)).

(** The string of a question number in a template literal. *)
Definition numberToString (n : N) : str :=
  if (n =? infinity)%N then utf16 "Infinity"
  else
    let digits := decimalOf (shortestDecimal n) in
    if length digits <=? 21 then digits else exponentForm digits.

Definition questionLabel (q : Question) : str :=
  utf16 "Câu " ++ numberToString (number q) ++ utf16 ": ".

(** A string or null that [!] takes for false. *)
Definition truthy (v : option str) : bool := negb (falsy v).

(** The messages the forEach pushes for one question. *)
Definition questionErrors (q : Question) : list str :=
  (if bool_decide (q_text q = []) && bool_decide (length (options q) = 0)
   then [questionLabel q ++ utf16 "Thiếu nội dung câu hỏi"] else [])
  ++ (if bool_decide (type q = multiple_choice)
         && bool_decide (length (options q) = 0)
      then [questionLabel q ++ utf16 "Thiếu đáp án lựa chọn"] else [])
  ++ (if falsy (correctAnswer q)
      then [questionLabel q ++ utf16 "Chưa đánh dấu đáp án đúng (highlight)"]
      else []).

Record validation : Type := {
  valid : bool;
  errors : list str
}.

Definition validateExamData (data : ExamData) : validation :=
  let errors :=
    (if bool_decide (length (questions data) = 0)
     then [utf16 "Không tìm thấy câu hỏi nào trong file"] else [])
    ++ flat_map questionErrors (questions data) in
  {| valid := bool_decide (length errors = 0); errors := errors |}.

(** * Statements of the specification *)

(** ** The question list and the answer key *)

(** The questions in the order the loop pushed them. *)
Definition pushedQuestions (paragraphs : list ParagraphData) : list Question :=
  pushCurrent (runLoop paragraphs initialContext).

(** What the forEach after the loop does to one question. *)
Definition markQuestion (q : Question) : Question :=
  if bool_decide (type q = multiple_choice) then
    match List.find isCorrect (options q) with
    | Some correctOpt => set_correctAnswer q (Some (letter correctOpt))
    | None => q
    end
  else q.

Definition number_le (a b : Question) : Prop := (number a <= number b)%N.

Definition hasNumber (n : N) (q : Question) : bool := (number q =? n)%N.

(** The invariant of the data model as the specification words it:
    an entry for N exactly when Question N has a correct answer. *)
Definition answers_iff_answered (qs : list Question) (ans : gmap N str) : Prop :=
  forall n, is_Some (ans !! n) <->
            exists q, In q qs /\ number q = n /\ is_Some (correctAnswer q).

(** The same with the restriction the program makes. *)
Definition answers_iff_choice_answered (qs : list Question) (ans : gmap N str)
  : Prop :=
  forall n, is_Some (ans !! n) <->
            exists q, In q qs /\ number q = n /\ type q = multiple_choice
                      /\ is_Some (correctAnswer q).

(** A question with a recorded answer that is not multiple-choice got
    it from an answer line. *)
Definition answered_is_writing (q : Question) : Prop :=
  is_Some (correctAnswer q) -> type q = writing.

(** A property of questions holds of those pushed and of the one in
    progress. *)
Definition holds_in_context (P : Question -> Prop) (st : context) : Prop :=
  Forall P (pushed st) /\ from_option P True (currentQuestion st).

(** The question a question-start line opens, before its options are
    extracted. *)
Definition freshQuestion (st : context) (num : N) (text : str) : Question :=
  {| number := num; section := currentSection st; part := currentPart st;
     q_text := text; options := []; correctAnswer := None; type := unknown;
     passage := readingPassage st |}.

(** ** Sample inputs *)

Definition plainRun (s : string) (from : Z) (highlight : bool) : ParagraphRun :=
  {| run_text := utf16 s; hasHighlight := highlight; hasUnderline := false;
     hasBold := false; run_start := from;
     run_end := (from + Z.of_nat (length (utf16 s)))%Z |}.

(** A paragraph of one unformatted run. *)
Definition plainParagraph (s : string) : ParagraphData :=
  {| pd_text := utf16 s; pd_runs := [plainRun s 0 false] |}.

(** A free-response question followed by its answer line. *)
Definition answerLineExam : list ParagraphData :=
  [plainParagraph "Câu 1. Write a sentence"; plainParagraph "Đáp án: hello"].

(** ** Options *)

(** Sorted by letter, and no letter twice. *)
Definition optionsOrdered (opts : list QuestionOption) : Prop :=
  Sorted (cmp_le compareLetters) opts /\ NoDup (letter <$> opts).

(** A line with two inline options. *)
Definition twoOptionLine : ParagraphData := plainParagraph "A. cat B. dog".

(** ** Sections *)

(** The keys of a list in the order of their first occurrence, those
    of [seen] left out. *)
Fixpoint firstSeenFrom (seen : list str) (ks : list str) : list str :=
  match ks with
  | [] => []
  | k :: ks' =>
      if bool_decide (k ∈ seen) then firstSeenFrom seen ks'
      else k :: firstSeenFrom (seen ++ [k]) ks'
  end.

Definition firstSeenKeys (qs : list Question) : list str :=
  firstSeenFrom [] (sectionKey <$> qs).

Definition withKey (k : str) (qs : list Question) : list Question :=
  List.filter (fun q => str_eqb (sectionKey q) k) qs.

(** A list is a block of another: it stands in it in one piece. *)
Definition isBlockOf (block whole : list Question) : Prop :=
  exists before after, whole = before ++ block ++ after.

(** The grouping as the specification words it: every section is a
    block of the question list. *)
Definition sections_are_blocks (qs : list Question) (secs : list ExamSection)
  : Prop :=
  Forall (fun s => isBlockOf (es_questions s) qs) secs.

(** Section A is interrupted by section B. *)
Definition interruptedSectionExam : list ParagraphData :=
  [plainParagraph "SECTION A. GRAMMAR: 2.0 POINTS";
   plainParagraph "Câu 1. One";
   plainParagraph "SECTION B. READING: 3.0 POINTS";
   plainParagraph "Câu 2. Two";
   plainParagraph "SECTION A. GRAMMAR: 2.0 POINTS";
   plainParagraph "Câu 3. Three"].

(** The map after the questions [l] have been pushed into the map [m]
    whose keys are [seen]. *)
Definition bucketsOf (m : list (str * list Question)) (seen : list str)
    (l : list Question) : list (str * list Question) :=
  ((fun e => (e.1, e.2 ++ withKey e.1 l)) <$> m)
  ++ ((fun k => (k, withKey k l)) <$> firstSeenFrom seen (sectionKey <$> l)).

(** ** Reading passages *)

(** The line is skipped or taken as a section or part header: the
    first three exits of the loop body. *)
Definition headerLine (pData : ParagraphData) : bool :=
  let line := trim (pd_text pData) in
  bool_decide (line = [])
  || bool_decide (is_Some (regex_match sectionRegex line))
  || isPartLine line.

(** The line starts a reading passage. *)
Definition passageStartLine (pData : ParagraphData) : bool :=
  negb (headerLine pData) && regex_test passageRegex (trim (pd_text pData)).

(** The line reads as the start of a question. *)
Definition questionLine (pData : ParagraphData) : bool :=
  regex_test questionLineRegex (trim (pd_text pData)).

(** The line opens a question. *)
Definition questionStartLine (pData : ParagraphData) : bool :=
  negb (headerLine pData) && negb (passageStartLine pData)
  && questionLine pData
  && bool_decide (is_Some (regex_match questionRegex (trim (pd_text pData)))).

(** The number the question of a question-start line gets. *)
Definition lineNumber (pData : ParagraphData) : N :=
  match regex_match questionRegex (trim (pd_text pData)) with
  | Some m => parseInt (group 1 m)
  | None => 0%N
  end.

(** The numbers of the question-start lines of a document, in the
    order of the lines. *)
Definition lineNumbers (paragraphs : list ParagraphData) : list N :=
  lineNumber <$> List.filter questionStartLine paragraphs.

(** A line inside a passage block: neither a passage start nor the
    start of a question. *)
Definition passageBlockLine (pData : ParagraphData) : bool :=
  negb (passageStartLine pData) && (headerLine pData || negb (questionLine pData)).

(** What a line of a passage block adds to the accumulated text. *)
Definition passageContribution (pData : ParagraphData) : str :=
  if headerLine pData then [] else trim (pd_text pData) ++ newline.

Definition carries (R : str) (q : Question) : Prop := passage q = R.

(** The lines after a passage block: there are none, or the first of
    them reads as the start of a question and so ends the block. *)
Definition endsBlock (after : list ParagraphData) : bool :=
  match after with
  | [] => true
  | pData :: _ => negb (headerLine pData) && questionLine pData
  end.

(** What a question keeps from the line that opened it: its number and
    the passage text accumulated by then. *)
Definition origin (q : Question) : N * str := (number q, passage q).

(** The origins of the questions the lines of [paragraphs] open when
    the loop reads them from the state [st]. *)
Fixpoint originsOf (st : context) (paragraphs : list ParagraphData)
  : list (N * str) :=
  match paragraphs with
  | [] => []
  | pData :: paragraphs' =>
      (if questionStartLine pData
       then [(lineNumber pData, readingPassage st)] else [])
      ++ originsOf (step st pData) paragraphs'
  end.

(** A passage of two lines, its question, and a question that follows
    once the passage is over. *)
Definition passageStart : ParagraphData := plainParagraph "A surprising gift".
Definition passageBlock : list ParagraphData :=
  [plainParagraph "Tom got a parcel on Monday."].
Definition passageQuestion : ParagraphData :=
  plainParagraph "Câu 1. What did Tom get? A. a parcel B. a letter".
Definition afterPassage : list ParagraphData :=
  [plainParagraph "II. Rewrite the sentences.";
   plainParagraph "Câu 2. He is tall.";
   plainParagraph "Đáp án: Tall he is."].

(** A question before the passage, and a block that is ended by a line
    that reads as the start of a question without opening one. *)
Definition beforePassage : list ParagraphData :=
  [plainParagraph "Câu 7. Write your name."].
Definition numberOnlyLine : ParagraphData := plainParagraph "Câu 5".
Definition nextPassage : list ParagraphData :=
  [plainParagraph "Stewart the Dragon";
   plainParagraph "Câu 3. Who is Stewart?"].

(** ** Formatted text *)

(** Removing the markup: whatever stands between an opening angle
    bracket and the next closing one, both included. *)
Fixpoint stripTagsFrom (inTag : bool) (s : str) : str :=
  match s with
  | [] => []
  | c :: s' =>
      if inTag then
        if (c =? unit_of ">")%N then stripTagsFrom false s'
        else stripTagsFrom true s'
      else if (c =? unit_of "<")%N then stripTagsFrom true s'
      else c :: stripTagsFrom false s'
  end.

Definition stripTags (s : str) : str := stripTagsFrom false s.

(** Whether the scan stands inside a tag after [s]. *)
Fixpoint inTagAfter (inTag : bool) (s : str) : bool :=
  match s with
  | [] => inTag
  | c :: s' =>
      if inTag then inTagAfter (negb (c =? unit_of ">")%N) s'
      else inTagAfter (c =? unit_of "<")%N s'
  end.

(** The portions the loop of the builder takes from the runs, laid
    end to end. *)
Definition plainRange (runs : list ParagraphRun) (startPos endPos : Z) : str :=
  flat_map (fun run => textPortion run startPos endPos) runs.

(** The code units of a text with their offsets, the first standing at
    [offset]. *)
Fixpoint unitsAt (offset : Z) (s : str) : list (Z * N) :=
  match s with
  | [] => []
  | c :: s' => (offset, c) :: unitsAt (offset + 1) s'
  end.

(** The plain text content of an offset range as the specification
    words it: of every run, in run order, the code units that stand at
    an offset of the range; a run holds the offsets from its start up
    to its end. *)
Definition withinRange (run : ParagraphRun) (startPos endPos : Z)
    (unit : Z * N) : bool :=
  ((startPos <=? unit.1) && (unit.1 <? endPos) && (unit.1 <? run_end run))%Z.

Definition rangeText (runs : list ParagraphRun) (startPos endPos : Z) : str :=
  flat_map (fun run =>
              snd <$> List.filter (withinRange run startPos endPos)
                        (unitsAt (run_start run) (run_text run)))
    runs.

(** Runs of white space collapsed to one space, the ends trimmed. *)
Definition normalize (s : str) : str := trim (collapse isSpace s).

Definition allSpaces (s : str) : Prop := Forall (fun c => isSpace c = true) s.

(** An option text that ends in a space, as when another option
    follows on the line. *)
Definition spacedRuns : list ParagraphRun := [plainRun "A. cat B. dog" 0 false].

(** ** The scenario of the specification *)

Definition piece (s : string) (highlight : bool) : string * bool := (s, highlight).

(** Runs laid end to end, each with its highlight flag. *)
Fixpoint runsFrom (from : Z) (pieces : list (string * bool)) : list ParagraphRun :=
  match pieces with
  | [] => []
  | (s, highlight) :: pieces' =>
      plainRun s from highlight
      :: runsFrom (from + Z.of_nat (length (utf16 s)))%Z pieces'
  end.

Definition paragraphOf (pieces : list (string * bool)) : ParagraphData :=
  let runs := runsFrom 0 pieces in
  {| pd_text := flat_map run_text runs; pd_runs := runs |}.

(** The three paragraphs of the scenario; the marker of the option dog
    is highlighted. *)
Definition scenarioParagraphs : list ParagraphData :=
  [paragraphOf [piece "SECTION A. GRAMMAR: 2.0 POINTS" false];
   paragraphOf [piece "Câu 1. Choose the best answer. A. cat " false;
                piece "B." true; piece " dog" false];
   paragraphOf [piece "Đáp án: ..." false]].

Definition lettersAndTexts (q : Question) : list (str * str) :=
  (fun o => (letter o, opt_text o)) <$> options q.

(** The outcome the specification gives for the scenario. *)
Definition scenario_as_stated (qs : list Question) : Prop :=
  exists q, qs = [q] /\ number q = 1%N /\ type q = multiple_choice
            /\ lettersAndTexts q = [(utf16 "A", utf16 "cat"); (utf16 "B", utf16 "dog")]
            /\ correctAnswer q = Some (utf16 "B").

(** The outcome of the program. *)
Definition scenario_as_parsed (answer : str) (t : QuestionType)
    (qs : list Question) : Prop :=
  exists q, qs = [q] /\ number q = 1%N /\ type q = t
            /\ lettersAndTexts q = [(utf16 "A", utf16 "cat"); (utf16 "B", utf16 "dog")]
            /\ correctAnswer q = Some answer.

(** ** Bold runs *)

Definition runHasText (run : node) : bool :=
  negb (bool_decide (runTextOf run = [])).

(** Bold as the specification words it: a bold property that does not
    carry the value false. *)
Definition boldUnlessFalse (run : node) : bool :=
  match firstByTagName "w:rPr" run with
  | Some rPr =>
      match firstByTagName "w:b" rPr with
      | Some bold => negb (bool_decide (attr "w:val" bold = Some (utf16 "false")))
      | None => false
      end
  | None => false
  end.

(** Bold as the program reads it: a bold property that does not carry
    the value 0. *)
Definition boldUnlessZero (run : node) : bool :=
  match firstByTagName "w:rPr" run with
  | Some rPr =>
      match firstByTagName "w:b" rPr with
      | Some bold => negb (bool_decide (attr "w:val" bold = Some (utf16 "0")))
      | None => false
      end
  | None => false
  end.

(** The bold flags of the extracted runs follow the given reading of
    the bold property, paragraph by paragraph. *)
Definition bold_flags_follow (reading : node -> bool) (xmlDoc : Document) : Prop :=
  forall pd, In pd (allParagraphData xmlDoc) ->
    exists p, In p (getElementsByTagName (utf16 "w:p") xmlDoc)
      /\ hasBold <$> pd_runs pd
         = reading <$> List.filter runHasText (getElementsByTagName (utf16 "w:r") p).

Definition attribute (name value : string) : string * string := (name, value).

Definition element (name : string) (attrs : list (string * string))
    (children : list node) : node :=
  Element (utf16 name) ((fun a => (utf16 a.1, utf16 a.2)) <$> attrs) children.

(** A paragraph of one run, whose bold property carries [val]. *)
Definition boldValDocument (val : string) : Document :=
  element "" []
    [element "w:document" []
       [element "w:body" []
          [element "w:p" []
             [element "w:r" []
                [element "w:rPr" [] [element "w:b" [attribute "w:val" val] []];
                 element "w:t" [] [TextNode (utf16 "word")]]]]]].

(** ** Text that is not well-formed *)

(** The error handling as the specification words it. *)
Definition malformed_is_rejected
    (loadAsync : list N -> option (list (str * ZipObject)))
    (xmlParse : str -> option Document) (errorDocument : str -> Document) : Prop :=
  forall file buffer zip entry xml,
    arrayBuffer file = Some buffer ->
    loadAsync buffer = Some zip ->
    zipFile (utf16 "word/document.xml") zip = Some entry ->
    async_string entry = Some xml ->
    xmlParse xml = None ->
    parseWordToExam loadAsync xmlParse errorDocument file
    = Rejected MalformedDocumentError.

(** A readable file; an archive whose document entry breaks off inside
    a paragraph, and one whose document entry is empty; an XML parser
    that finds either text not well-formed, and the error document of
    the DOMParser. *)
Definition readableFile : File := {| arrayBuffer := Some [] |}.
Definition brokenXml : str := utf16 "<w:document><w:body><w:p><w:r>".
Definition archiveOf (xml : str) (buffer : list N)
  : option (list (str * ZipObject)) :=
  Some [(utf16 "word/document.xml", {| async_string := Some xml |})].
Definition brokenArchive : list N -> option (list (str * ZipObject)) :=
  archiveOf brokenXml.
Definition strictXmlParse (text : str) : option Document := None.
Definition parsererrorDocument (text : str) : Document :=
  element "" [] [element "parsererror" [] [TextNode (utf16 "error")]].

(** * Further statements *)

(** The type of a question is resolved, and a multiple-choice question
    has at least two options. *)
Definition typeResolved (q : Question) : Prop :=
  type q <> unknown /\ (type q = multiple_choice -> 2 <= length (options q)).

Definition choiceHasOptions (q : Question) : Prop :=
  type q = multiple_choice -> 2 <= length (options q).

(** The text of an option is not empty and has no white space at
    either end. *)
Definition optionTextTrimmed (o : QuestionOption) : Prop :=
  opt_text o <> [] /\ trim (opt_text o) = opt_text o.

Definition headNotSpace (s : str) : Prop :=
  match s with
  | [] => True
  | c :: _ => isSpace c = false
  end.

(** The question of the scenario, and the question it gives when the
    answer line is left out. *)
Definition scenarioQuestion : Question :=
  Eval vm_compute in
    hd (freshQuestion initialContext 0 [])
       (parseQuestionsFromParagraphs scenarioParagraphs).1.2.

Definition choiceQuestion : Question :=
  Eval vm_compute in
    hd (freshQuestion initialContext 0 [])
       (parseQuestionsFromParagraphs (take 2 scenarioParagraphs)).1.2.

(** The one section of an exam whose questions carry no section. *)
Definition defaultSection (firstQ : Question) (qs : list Question) : ExamSection :=
  {| es_name := utf16 "Tất cả câu hỏi";
     es_description := default [] (part firstQ);
     es_points := [];
     es_questions := qs;
     es_readingPassage := passage firstQ |}.

(** Two questions outside any section. *)
Definition unsectionedExam : list ParagraphData :=
  [plainParagraph "Câu 1. One"; plainParagraph "Câu 2. Two"].

(** The line is taken as a section header. *)
Definition sectionHeaderLine (pData : ParagraphData) : bool :=
  negb (bool_decide (trim (pd_text pData) = []))
  && bool_decide (is_Some (regex_match sectionRegex (trim (pd_text pData)))).

Definition unsectioned (q : Question) : Prop := section q = None.

(** Runs that lie end to end from the offset [from], none of them
    empty. *)
Fixpoint contiguousFrom (from : Z) (runs : list ParagraphRun) : Prop :=
  match runs with
  | [] => True
  | run :: runs' =>
      run_start run = from /\ run_text run <> []
      /\ run_end run = (from + Z.of_nat (length (run_text run)))%Z
      /\ contiguousFrom (run_end run) runs'
  end.

(** The code units of [l] from index [a] up to index [b]. *)
Definition segment (l : str) (a b : nat) : str := take (b - a) (drop a l).

(** A one-run document paragraph with an empty run before its text. *)
Definition emptyRunDocument : Document :=
  element "" []
    [element "w:document" []
       [element "w:p" []
          [element "w:r" [] [element "w:t" [] []];
           element "w:r" [] [element "w:t" [] [TextNode (utf16 "Câu 1. ")]];
           element "w:r" [] [element "w:t" [] [TextNode (utf16 "One")]]]]].

Definition emptyRunParagraph : ParagraphData :=
  Eval vm_compute in
    hd (plainParagraph "") (allParagraphData emptyRunDocument).

(** The code units that escapeHtml replaces: the ampersand, the
    no-break space and the two angle brackets. *)
Definition isMarkupUnit (c : N) : bool :=
  ((c =? 38) || (c =? 160) || (c =? 60) || (c =? 62))%N.

Definition isBracketUnit (c : N) : bool :=
  ((c =? 160) || (c =? 60) || (c =? 62))%N.

(** A run that is neither underlined nor bold. *)
Definition unformatted (run : ParagraphRun) : bool :=
  negb (hasUnderline run) && negb (hasBold run).

(** ** The scan for option markers *)

(** The matcher has read on from [s] to [s']. *)
Definition advances (s s' : mstate) : Prop :=
  exists read, m_rest s = read ++ m_rest s'
               /\ m_pos s' = m_pos s + length read.

Fixpoint groupless (r : regex) : bool :=
  match r with
  | RChar _ | REmpty | RBol | REol => true
  | RSeq a b | RAlt a b => groupless a && groupless b
  | RStar _ a => groupless a
  | RGroup _ _ => false
  end.

Definition isOptionLetter (l : str) : Prop :=
  l = utf16 "A" \/ l = utf16 "B" \/ l = utf16 "C" \/ l = utf16 "D".

(** The markers lie one after the other between [from] and [len]:
    each spans at least two code units, starts no earlier than the one
    before ends, and names one of the four letters. *)
Fixpoint wellSpaced (from len : Z) (ms : list optionMatch) : Prop :=
  match ms with
  | [] => True
  | m :: ms' =>
      (from <= matchStart m)%Z
      /\ (matchStart m + 2 <= contentStart m)%Z
      /\ (contentStart m <= len)%Z
      /\ isOptionLetter (om_letter m)
      /\ wellSpaced (contentStart m) len ms'
  end.

Definition lettersOfOptions (q : Question) : Prop :=
  Forall (fun o => isOptionLetter (letter o)) (options q).

(** ** Validation *)

(** What the validator asks of one question. *)
Definition questionComplete (q : Question) : Prop :=
  (q_text q <> [] \/ options q <> [])
  /\ (type q = multiple_choice -> options q <> [])
  /\ truthy (correctAnswer q) = true.

(** The line does not open a question. *)
Definition notQuestionStart (pData : ParagraphData) : bool :=
  bool_decide (regex_match questionRegex (trim (pd_text pData)) = None).

(** A document of three paragraphs, a section header, a part header
    and a line of text, none of which opens a question. *)
Definition textParagraph (s : string) : node :=
  element "w:p" [] [element "w:r" [] [element "w:t" [] [TextNode (utf16 s)]]].

Definition headingsDocument : Document :=
  element "" []
    [element "w:document" []
       [element "w:body" []
          [textParagraph "SECTION A. GRAMMAR: 2.0 POINTS";
           textParagraph "I. Circle the best answer.";
           textParagraph "Good luck!"]]].

Definition noQuestionsMessage : str :=
  utf16 "Không tìm thấy câu hỏi nào trong file".

Definition answerNotEmpty (q : Question) : Prop := correctAnswer q <> Some [].

(** An exam of one multiple-choice question with its answer marked. *)
Definition choiceExam : ExamData :=
  {| title := utf16 "Đề thi Tiếng Anh"; timeLimit := 60;
     sections := (parseQuestionsFromParagraphs (take 2 scenarioParagraphs)).1.1;
     questions := [choiceQuestion];
     answers := (parseQuestionsFromParagraphs (take 2 scenarioParagraphs)).2 |}.

(** * Properties *)

(** ** The stable sort *)

Section js_sort_facts.
Context {A : Type} (cmp : A -> A -> Z).

Hypothesis cmp_total : forall x y, cmp_le cmp x y \/ cmp_le cmp y x.

Lemma sort_insert_perm x l : Permutation (sort_insert cmp x l) (x :: l).
Proof.
  induction l as [|y l IH]; simpl; [done|].
  destruct (cmp x y <=? 0)%Z; [done|].
  rewrite IH. apply perm_swap.
Qed.

Lemma js_sort_perm l : Permutation (js_sort cmp l) l.
Proof.
  induction l as [|x l IH]; simpl; [done|].
  by rewrite sort_insert_perm, IH.
Qed.

Lemma sort_insert_sorted x l :
  Sorted (cmp_le cmp) l -> Sorted (cmp_le cmp) (sort_insert cmp x l).
Proof.
  induction l as [|y l IH]; intros Hs; simpl.
  - repeat constructor.
  - destruct (Z.leb_spec (cmp x y) 0) as [Hle|Hgt].
    + constructor; [done|]. by constructor.
    + inversion_clear Hs as [|? ? Hl Hhd].
      constructor; [by apply IH|].
      destruct l as [|z l]; simpl.
      * constructor. destruct (cmp_total x y) as [H|H]; [|done].
        unfold cmp_le in H. lia.
      * destruct (cmp x z <=? 0)%Z.
        -- constructor. destruct (cmp_total x y) as [H|H]; [|done].
           unfold cmp_le in H. lia.
        -- constructor. by inversion_clear Hhd.
Qed.

Lemma js_sort_sorted l : Sorted (cmp_le cmp) (js_sort cmp l).
Proof.
  induction l as [|x l IH]; simpl; [constructor|].
  by apply sort_insert_sorted.
Qed.


(** Stability: elements that the comparator does not order strictly
    keep their relative order. *)
Lemma sort_insert_filter (P : A -> bool) x l :
  (forall a b, P a = true -> P b = true -> cmp_le cmp a b) ->
  List.filter P (sort_insert cmp x l) = List.filter P (x :: l).
Proof.
  intros HP. induction l as [|y l IH]; simpl; [done|].
  destruct (Z.leb_spec (cmp x y) 0) as [Hle|Hgt]; [done|].
  simpl. rewrite IH. simpl.
  destruct (P x) eqn:Hx, (P y) eqn:Hy; try done.
  specialize (HP x y Hx Hy). unfold cmp_le in HP. lia.
Qed.

Lemma js_sort_stable (P : A -> bool) l :
  (forall a b, P a = true -> P b = true -> cmp_le cmp a b) ->
  List.filter P (js_sort cmp l) = List.filter P l.
Proof.
  intros HP. induction l as [|x l IH]; simpl; [done|].
  rewrite sort_insert_filter by done. simpl. by rewrite IH.
Qed.
End js_sort_facts.

(** ** The sort and the answer pass *)

Lemma compareNumbers_total x y :
  cmp_le compareNumbers x y \/ cmp_le compareNumbers y x.
Proof. unfold cmp_le, compareNumbers. lia. Qed.

Lemma Sorted_mono {A} (R1 R2 : A -> A -> Prop) l :
  (forall x y, R1 x y -> R2 x y) -> Sorted R1 l -> Sorted R2 l.
Proof.
  intros HR. induction 1 as [|x l Hl IH Hhd]; constructor; [done|].
  destruct Hhd; constructor; auto.
Qed.


Lemma markAnswers_foldl qs acc :
  (foldl markAnswer acc qs).1 = acc.1 ++ (markQuestion <$> qs).
Proof.
  revert acc. induction qs as [|q qs IH]; intros acc; simpl.
  - by rewrite app_nil_r.
  - rewrite IH. unfold markAnswer, markQuestion.
    repeat case_match; simpl; by rewrite <- app_assoc.
Qed.

Lemma markAnswers_fst qs : (markAnswers qs).1 = markQuestion <$> qs.
Proof. unfold markAnswers. by rewrite markAnswers_foldl. Qed.

Lemma markQuestion_number q : number (markQuestion q) = number q.
Proof. unfold markQuestion. by repeat case_match. Qed.

Lemma markQuestion_type q : type (markQuestion q) = type q.
Proof. unfold markQuestion. by repeat case_match. Qed.

Lemma filter_fmap_commute {A B} (f : A -> B) (P : B -> bool) l :
  List.filter P (f <$> l) = f <$> List.filter (fun x => P (f x)) l.
Proof.
  induction l as [|x l IH]; csimpl; [done|].
  destruct (P (f x)); csimpl; by rewrite IH.
Qed.

(** ** The answer key (C2) *)

Lemma markQuestion_answered q :
  answered_is_writing q ->
  (type (markQuestion q) = multiple_choice /\ is_Some (correctAnswer (markQuestion q)))
  <-> (type q = multiple_choice /\ is_Some (List.find isCorrect (options q))).
Proof.
  intros Hq. unfold markQuestion. case_bool_decide as Ht.
  - destruct (List.find isCorrect (options q)) eqn:Hf; simpl.
    + split; intros _; split; eauto.
    + split; intros [_ H]; [|by destruct H].
      apply Hq in H. congruence.
  - split; intros [? _]; congruence.
Qed.

Lemma markAnswers_snd_foldl qs acc n :
  is_Some ((foldl markAnswer acc qs).2 !! n) <->
  is_Some (acc.2 !! n) \/
  exists q, In q qs /\ number q = n /\ type q = multiple_choice
            /\ is_Some (List.find isCorrect (options q)).
Proof.
  revert acc. induction qs as [|q qs IH]; intros acc; simpl.
  - split; [by left|]. intros [H|(q & [] & _)]; done.
  - rewrite IH. unfold markAnswer at 1.
    case_bool_decide as Ht.
    + destruct (List.find isCorrect (options q)) eqn:Hf; simpl.
      * rewrite lookup_insert. case_decide as Hn.
        -- split; intros _; [right|left; eauto].
           exists q. rewrite Hf. eauto 10.
        -- split.
           ++ intros [H|(q' & Hin & H)]; [by left|right]. exists q'. eauto.
           ++ intros [H|(q' & [->|Hin] & H)]; [by left| |right; eauto].
              by destruct H as (? & _).
      * split.
        -- intros [H|(q' & Hin & H)]; [by left|right]. exists q'. eauto.
        -- intros [H|(q' & [->|Hin] & H)]; [by left| |right; eauto].
           destruct H as (_ & _ & H). rewrite Hf in H. by destruct H.
    + simpl. split.
      * intros [H|(q' & Hin & H)]; [by left|right]. exists q'. eauto.
      * intros [H|(q' & [->|Hin] & H)]; [by left| |right; eauto].
        by destruct H as (_ & ? & _).
Qed.

(** ** An invariant scheme for the loop over the paragraphs *)

Arguments regex_match : simpl never.
Arguments regex_test : simpl never.
Arguments trim : simpl never.
Arguments extractOptionsWithUnderline : simpl never.

Section loop_invariant.
Variable P : Question -> Prop.
Hypothesis P_fresh : forall st num text, P (freshQuestion st num text).
Hypothesis P_extract : forall pData q, P q -> P (extractOptionsWithUnderline pData q).
Hypothesis P_finalize : forall q, P q -> P (finalize q).
Hypothesis P_answer : forall q a, P q -> P (set_type (set_correctAnswer q (Some a)) writing).
Hypothesis P_writing : forall q, P q -> P (set_type q writing).
Hypothesis P_text : forall q t, P q -> P (set_text q t).

Lemma pushCurrent_holds st :
  holds_in_context P st -> Forall P (pushCurrent st).
Proof.
  intros [Hp Hc]. unfold pushCurrent.
  destruct (currentQuestion st) as [q|]; [|done].
  apply Forall_app. split; [done|]. constructor; [|done]. by apply P_finalize.
Qed.

Lemma step_holds st pData :
  holds_in_context P st -> holds_in_context P (step st pData).
Proof.
  intros Hst. pose proof (pushCurrent_holds st Hst) as Hpush.
  destruct Hst as [Hp Hc]. unfold step.
  repeat case_match; subst; try (split; simpl; done).
  all: try (split; simpl; [done|]; apply P_extract, (P_fresh st)).
  all: simplify_eq/=; split; simpl; auto.
Qed.

Lemma runLoop_holds paragraphs st :
  holds_in_context P st -> holds_in_context P (runLoop paragraphs st).
Proof.
  revert st. induction paragraphs as [|p ps IH]; intros st Hst; [done|].
  simpl. apply IH. by apply step_holds.
Qed.

Lemma pushedQuestions_hold paragraphs : Forall P (pushedQuestions paragraphs).
Proof.
  apply pushCurrent_holds, runLoop_holds. split; [constructor|done].
Qed.
End loop_invariant.

Lemma extract_correctAnswer pData q :
  correctAnswer (extractOptionsWithUnderline pData q) = correctAnswer q.
Proof. unfold extractOptionsWithUnderline. by repeat case_match. Qed.

Lemma extract_number pData q :
  number (extractOptionsWithUnderline pData q) = number q.
Proof. unfold extractOptionsWithUnderline. by repeat case_match. Qed.

Lemma extract_passage pData q :
  passage (extractOptionsWithUnderline pData q) = passage q.
Proof. unfold extractOptionsWithUnderline. by repeat case_match. Qed.

Lemma extract_type_writing pData q :
  type q = writing -> type (extractOptionsWithUnderline pData q) = writing.
Proof.
  intros Hq. unfold extractOptionsWithUnderline.
  case_bool_decide; [done|]. simpl. rewrite Hq.
  by rewrite andb_false_r.
Qed.

Lemma pushedQuestions_answered_is_writing paragraphs :
  Forall answered_is_writing (pushedQuestions paragraphs).
Proof.
  apply pushedQuestions_hold; unfold answered_is_writing.
  - intros st num text [? H]. simpl in H. done.
  - intros pData q Hq. rewrite extract_correctAnswer.
    intros H. by apply extract_type_writing, Hq.
  - intros q Hq H. unfold finalize in *.
    case_bool_decide as Ht; [|by apply Hq].
    simpl in H. apply Hq in H. congruence.
  - done.
  - done.
  - intros q t Hq. apply Hq.
Qed.

Lemma markAnswers_snd qs n :
  is_Some ((markAnswers qs).2 !! n) <->
  exists q, In q qs /\ number q = n /\ type q = multiple_choice
            /\ is_Some (List.find isCorrect (options q)).
Proof.
  unfold markAnswers. rewrite markAnswers_snd_foldl. simpl.
  rewrite lookup_empty. split; [|by right].
  intros [[? H]|H]; done.
Qed.

Lemma parse_questions paragraphs :
  (parseQuestionsFromParagraphs paragraphs).1.2
  = js_sort compareNumbers (markQuestion <$> pushedQuestions paragraphs).
Proof.
  unfold parseQuestionsFromParagraphs. simpl. by rewrite markAnswers_fst.
Qed.

Lemma parse_answers paragraphs :
  (parseQuestionsFromParagraphs paragraphs).2
  = (markAnswers (pushedQuestions paragraphs)).2.
Proof. done. Qed.

Lemma In_parse_questions paragraphs q :
  In q (parseQuestionsFromParagraphs paragraphs).1.2
  <-> In q (markQuestion <$> pushedQuestions paragraphs).
Proof.
  rewrite parse_questions. split; apply Permutation_in.
  - apply js_sort_perm.
  - symmetry. apply js_sort_perm.
Qed.

(** C2, amended: the answers mapping holds an entry for N exactly when
    a multiple-choice Question numbered N has a correct answer. *)
Theorem C2_answers_iff_choice_answered (paragraphs : list ParagraphData) :
  answers_iff_choice_answered
    (parseQuestionsFromParagraphs paragraphs).1.2
    (parseQuestionsFromParagraphs paragraphs).2.
Proof.
  intros n.
  pose proof (pushedQuestions_answered_is_writing paragraphs) as Hinv.
  rewrite List.Forall_forall in Hinv.
  rewrite parse_answers, markAnswers_snd.
  split.
  - intros (q & Hin & Hn & Hq).
    exists (markQuestion q). split.
    + apply In_parse_questions. by apply in_map.
    + rewrite markQuestion_number. split; [done|].
      apply markQuestion_answered; auto.
  - intros (q' & Hin & Hn & Hq).
    apply In_parse_questions, in_map_iff in Hin as (q & <- & Hin).
    exists q. split; [done|]. rewrite markQuestion_number in Hn. split; [done|].
    apply markQuestion_answered; auto.
Qed.

(** C2 as stated fails: the free-response question of [answerLineExam]
    has the correct answer its answer line gives and no entry in the
    answers mapping. *)
Lemma C2_counterexample :
  ~ answers_iff_answered
      (parseQuestionsFromParagraphs answerLineExam).1.2
      (parseQuestionsFromParagraphs answerLineExam).2.
Proof.
  set (r := parseQuestionsFromParagraphs answerLineExam).
  vm_compute in r. subst r. cbn [fst snd].
  intros H. destruct (H 1%N) as [_ Hback].
  destruct Hback as [? Habs]; [|by vm_compute in Habs].
  eexists. split; [left; reflexivity|].
  split; [reflexivity|]. by eexists.
Qed.

(** ** The options of a question (C7) *)

Lemma localeCompare_total a b :
  (localeCompare a b <= 0)%Z \/ (localeCompare b a <= 0)%Z.
Proof.
  revert b. induction a as [|x a IH]; intros [|y b]; simpl; try lia.
  destruct (N.ltb_spec x y), (N.ltb_spec y x); try lia. apply IH.
Qed.

Lemma compareLetters_total x y :
  cmp_le compareLetters x y \/ cmp_le compareLetters y x.
Proof. apply localeCompare_total. Qed.

Lemma hasLetter_spec l opts : hasLetter l opts = true <-> l ∈ letter <$> opts.
Proof.
  unfold hasLetter. rewrite bool_decide_eq_true.
  induction opts as [|o opts IH]; csimpl.
  - split; [by intros [? ?]|]. by intros ?%elem_of_nil.
  - rewrite elem_of_cons. unfold str_eqb at 1. case_bool_decide as Ho.
    + split; [by left|by eexists].
    + rewrite IH. split; [by right|]. intros [?|?]; [congruence|done].
Qed.


Lemma addOptions_NoDup line runs ms opts :
  NoDup (letter <$> opts) -> NoDup (letter <$> addOptions line runs ms opts).
Proof.
  revert opts. induction ms as [|m ms IH]; intros opts Hnd; simpl; [done|].
  destruct (hasLetter (om_letter m) opts) eqn:Hhas; simpl; [by apply IH|].
  case_bool_decide; [by apply IH|]. apply IH.
  rewrite fmap_app. simpl. apply NoDup_app. split; [done|]. split.
  - intros l Hl ->%list_elem_of_singleton.
    apply hasLetter_spec in Hl. congruence.
  - apply NoDup_singleton.
Qed.


Lemma extract_ordered pData q :
  optionsOrdered (options q) ->
  optionsOrdered (options (extractOptionsWithUnderline pData q)).
Proof.
  intros [Hs Hnd]. unfold extractOptionsWithUnderline.
  case_bool_decide; [done|]. simpl. split.
  - apply js_sort_sorted, compareLetters_total.
  - rewrite js_sort_perm. case_match; simpl; by apply addOptions_NoDup.
Qed.


Lemma markQuestion_options q : options (markQuestion q) = options q.
Proof. unfold markQuestion. by repeat case_match. Qed.

Lemma pushedQuestions_ordered paragraphs :
  Forall (fun q => optionsOrdered (options q)) (pushedQuestions paragraphs).
Proof.
  apply pushedQuestions_hold; try done.
  - intros st num text. split; constructor.
  - intros pData q. apply extract_ordered.
  - intros q Hq. unfold finalize. by case_match.
Qed.



Example twoOptionLine_letters :
  letter <$> options (extractOptionsWithUnderline twoOptionLine
                        (freshQuestion initialContext 1 []))
  = [utf16 "A"; utf16 "B"].
Proof. vm_compute. reflexivity. Qed.

(** ** The sections (C5) *)

Lemma withKey_cons_eq q l : withKey (sectionKey q) (q :: l) = q :: withKey (sectionKey q) l.
Proof. unfold withKey, str_eqb. simpl. by rewrite bool_decide_eq_true_2. Qed.

Lemma withKey_cons_ne k q l : sectionKey q <> k -> withKey k (q :: l) = withKey k l.
Proof. intros H. unfold withKey, str_eqb. simpl. by rewrite bool_decide_eq_false_2. Qed.

Lemma firstSeenFrom_fresh seen ks k :
  k ∈ firstSeenFrom seen ks -> k ∉ seen.
Proof.
  revert seen. induction ks as [|k' ks IH]; intros seen; simpl.
  - by intros ?%elem_of_nil.
  - case_bool_decide as Hk; [apply IH|].
    intros [->|Hin]%elem_of_cons; [done|].
    apply IH in Hin. intros ?. apply Hin, elem_of_app. by left.
Qed.

Lemma firstSeenFrom_NoDup seen ks : NoDup (firstSeenFrom seen ks).
Proof.
  revert seen. induction ks as [|k ks IH]; intros seen; simpl; [constructor|].
  case_bool_decide; [apply IH|]. constructor; [|apply IH].
  intros Hin%firstSeenFrom_fresh. apply Hin, elem_of_app. right. by left.
Qed.

Lemma firstSeenFrom_elem seen ks k :
  k ∈ firstSeenFrom seen ks <-> k ∈ ks /\ k ∉ seen.
Proof.
  revert seen. induction ks as [|k' ks IH]; intros seen; simpl.
  - split; [by intros ?%elem_of_nil|]. by intros [?%elem_of_nil _].
  - case_bool_decide as Hk.
    + rewrite IH, elem_of_cons. split; [naive_solver|].
      intros [[->|?] ?]; done.
    + rewrite !elem_of_cons, IH, elem_of_app, list_elem_of_singleton.
      split; [naive_solver|].
      intros [[->|?] ?]; [by left|].
      destruct (decide (k = k')); [by left|right]. naive_solver.
Qed.

Lemma mapPush_untouched key q m :
  key ∉ m.*1 ->
  (fun e : str * list Question =>
     (e.1, e.2 ++ (if str_eqb e.1 key then [q] else []))) <$> m = m.
Proof.
  induction m as [|[k qs] m IH]; csimpl; intros Hk; [done|].
  apply not_elem_of_cons in Hk as [Hne Hk].
  unfold str_eqb at 1. rewrite bool_decide_eq_false_2 by done.
  rewrite app_nil_r. f_equal. by apply IH.
Qed.

Lemma mapPush_seen key q m :
  key ∈ m.*1 -> NoDup m.*1 ->
  mapPush key q m
  = (fun e => (e.1, e.2 ++ (if str_eqb e.1 key then [q] else []))) <$> m.
Proof.
  induction m as [|[k qs] m IH]; csimpl; intros Hin Hnd.
  - by apply elem_of_nil in Hin.
  - apply NoDup_cons in Hnd as [Hk Hnd]. unfold str_eqb at 1 2.
    case_bool_decide as Hkey; simpl.
    + subst k. f_equal. by rewrite mapPush_untouched.
    + rewrite app_nil_r. f_equal. apply IH; [|done].
      apply elem_of_cons in Hin as [?|?]; [congruence|done].
Qed.

Lemma mapPush_fresh key q m :
  key ∉ m.*1 -> mapPush key q m = m ++ [(key, [q])].
Proof.
  induction m as [|[k qs] m IH]; csimpl; intros Hin; [done|].
  apply not_elem_of_cons in Hin as [Hne Hin].
  unfold str_eqb. rewrite bool_decide_eq_false_2 by done.
  f_equal. by apply IH.
Qed.

Arguments withKey : simpl never.

Lemma fmap_ext_elem {A B} (f g : A -> B) (l : list A) :
  (forall x, x ∈ l -> f x = g x) -> f <$> l = g <$> l.
Proof. intros H. by apply Forall_fmap_ext_1, Forall_forall. Qed.

Lemma mapPush_seen_keys key q (m : list (str * list Question)) :
  ((fun e : str * list Question =>
      (e.1, e.2 ++ (if str_eqb e.1 key then [q] else []))) <$> m).*1 = m.*1.
Proof. rewrite <- list_fmap_compose. by apply fmap_ext_elem. Qed.

Lemma bucketsOf_nil m seen : bucketsOf m seen [] = m.
Proof.
  unfold bucketsOf. simpl. rewrite app_nil_r.
  rewrite <- (list_fmap_id m) at 2. apply fmap_ext_elem.
  intros [k qs] _. unfold withKey. simpl. by rewrite app_nil_r.
Qed.

Lemma buildSectionMap_foldl l m :
  NoDup m.*1 ->
  foldl (fun m q => mapPush (sectionKey q) q m) m l = bucketsOf m m.*1 l.
Proof.
  revert m. induction l as [|q l IH]; intros m Hnd; simpl.
  - by rewrite bucketsOf_nil.
  - destruct (decide (sectionKey q ∈ m.*1)) as [Hin|Hin].
    + rewrite mapPush_seen by done. rewrite IH by by rewrite mapPush_seen_keys.
      rewrite mapPush_seen_keys.
      unfold bucketsOf. csimpl. rewrite bool_decide_eq_true_2 by done.
      rewrite <- list_fmap_compose. f_equal.
      * apply fmap_ext_elem. intros [k qs] _. simpl. f_equal.
        unfold str_eqb. case_bool_decide as Hk.
        -- subst k. by rewrite withKey_cons_eq, <- app_assoc.
        -- by rewrite withKey_cons_ne, app_nil_r.
      * apply fmap_ext_elem. intros k Hk.
        rewrite withKey_cons_ne; [done|].
        intros <-. by apply firstSeenFrom_fresh in Hk.
    + rewrite mapPush_fresh by done. rewrite IH.
      2:{ rewrite fmap_app. apply NoDup_app. split; [done|].
          split; [|apply NoDup_singleton].
          by intros k Hk ->%list_elem_of_singleton. }
      unfold bucketsOf. csimpl. rewrite bool_decide_eq_false_2 by done.
      rewrite !fmap_app. csimpl. rewrite <- !app_assoc. csimpl.
      f_equal.
      * apply fmap_ext_elem. intros [k qs] Hk. simpl.
        rewrite withKey_cons_ne; [done|].
        intros Hq. apply Hin. rewrite Hq.
        by apply (list_elem_of_fmap_2 fst _ (k, qs)).
      * rewrite withKey_cons_eq. f_equal.
        apply fmap_ext_elem. intros k Hk.
        rewrite withKey_cons_ne; [done|].
        intros <-. apply firstSeenFrom_fresh in Hk.
        apply Hk, elem_of_app. right. by left.
Qed.

Lemma buildSectionMap_spec qs :
  buildSectionMap qs = (fun k => (k, withKey k qs)) <$> firstSeenKeys qs.
Proof.
  unfold buildSectionMap. rewrite buildSectionMap_foldl by constructor.
  done.
Qed.

Lemma firstSeenKeys_elem qs k :
  k ∈ firstSeenKeys qs <-> exists q, In q qs /\ sectionKey q = k.
Proof.
  unfold firstSeenKeys. rewrite firstSeenFrom_elem, list_elem_of_fmap.
  split.
  - intros [(q & -> & Hq) _]. exists q. by rewrite <- list_elem_of_In.
  - intros (q & Hq & <-). split; [|by intros ?%elem_of_nil].
    exists q. by rewrite list_elem_of_In.
Qed.

Lemma withKey_nonempty qs k : k ∈ firstSeenKeys qs -> withKey k qs <> [].
Proof.
  intros (q & Hq & <-)%firstSeenKeys_elem Hnil.
  assert (In q (withKey (sectionKey q) qs)) as Hin.
  { apply filter_In. split; [done|]. unfold str_eqb. by apply bool_decide_eq_true_2. }
  by rewrite Hnil in Hin.
Qed.

Lemma buildSectionMap_nonempty qs :
  Forall (fun e => e.2 <> []) (buildSectionMap qs).
Proof.
  rewrite buildSectionMap_spec. apply Forall_fmap, Forall_forall.
  intros k Hk. by apply withKey_nonempty.
Qed.

Lemma sectionOfEntry_questions m :
  Forall (fun e => e.2 <> []) m ->
  es_questions <$> flat_map sectionOfEntry m = m.*2.
Proof.
  induction 1 as [|[k qs] m Hne _ IH]; csimpl; [done|].
  rewrite fmap_app, IH. unfold sectionOfEntry. simpl in *.
  by destruct qs.
Qed.

(** C5, amended: the grouper puts all the questions of one key into one
    section, adjacent or not: the sections list the keys in the order
    of their first occurrence, no key twice, and the questions of a
    section are the questions of the list with that key, in list order. *)
Theorem C5_sections_group_by_key (paragraphs : list ParagraphData) :
  let qs := (parseQuestionsFromParagraphs paragraphs).1.2 in
  let secs := (parseQuestionsFromParagraphs paragraphs).1.1 in
  es_questions <$> secs = (fun k => withKey k qs) <$> firstSeenKeys qs
  /\ NoDup (firstSeenKeys qs)
  /\ forall k, k ∈ firstSeenKeys qs <-> exists q, In q qs /\ sectionKey q = k.
Proof.
  simpl. split; [|split].
  - change (parseQuestionsFromParagraphs paragraphs).1.1
      with (groupQuestionsIntoSections (parseQuestionsFromParagraphs paragraphs).1.2).
    unfold groupQuestionsIntoSections.
    rewrite sectionOfEntry_questions by apply buildSectionMap_nonempty.
    rewrite buildSectionMap_spec, <- list_fmap_compose. done.
  - apply firstSeenFrom_NoDup.
  - apply firstSeenKeys_elem.
Qed.

(** C5 as stated fails: in [interruptedSectionExam] the section of key
    A-GRAMMAR holds questions 1 and 3, which question 2 separates in
    the question list. *)
Lemma C5_counterexample :
  ~ sections_are_blocks
      (parseQuestionsFromParagraphs interruptedSectionExam).1.2
      (parseQuestionsFromParagraphs interruptedSectionExam).1.1.
Proof.
  unfold sections_are_blocks.
  set (r := parseQuestionsFromParagraphs interruptedSectionExam).
  vm_compute in r. subst r. cbn [fst snd].
  intros H. apply Forall_cons in H as [(before & after & Heq) _].
  cbn [es_questions] in Heq.
  destruct before as [|b0 [|b1 before]]; simplify_eq/=.
  match goal with
  | H : _ = before ++ _ |- _ =>
      apply (f_equal length) in H; rewrite length_app in H; simpl in H; lia
  end.
Qed.


(** ** Reading passages *)

(** Entering the loop body past its first three exits. *)
Ltac enter_step Hh :=
  let Hempty := fresh "Hempty" in
  let Hsec := fresh "Hsec" in
  let Hpart := fresh "Hpart" in
  unfold headerLine in Hh;
  apply orb_false_iff in Hh as [Hh Hpart];
  apply orb_false_iff in Hh as [Hempty Hsec];
  unfold step; cbv zeta; rewrite Hempty;
  destruct (regex_match sectionRegex _);
  [ by rewrite bool_decide_eq_true_2 in Hsec by eauto | rewrite Hpart ].

Lemma step_header st p :
  headerLine p = true ->
  let st' := step st p in
  inReading st' = inReading st /\ readingPassage st' = readingPassage st
  /\ currentQuestion st' = currentQuestion st /\ pushed st' = pushed st.
Proof.
  intros Hh. simpl. unfold headerLine in Hh. unfold step. cbv zeta.
  case_bool_decide as He; [done|]. simpl in Hh.
  destruct (regex_match sectionRegex _); [done|].
  rewrite bool_decide_eq_false_2 in Hh by (by intros [? ?]). simpl in Hh.
  by rewrite Hh.
Qed.

Lemma step_passage_start st p :
  passageStartLine p = true ->
  step st p = Ctx (currentSection st) (currentPart st) (currentQuestion st)
                (trim (pd_text p) ++ newline) true (pushed st).
Proof.
  intros H. unfold passageStartLine in H.
  apply andb_true_iff in H as [Hh Hpass]. apply negb_true_iff in Hh.
  enter_step Hh. by rewrite Hpass.
Qed.

Lemma step_passage_block st p :
  passageBlockLine p = true -> inReading st = true ->
  let st' := step st p in
  inReading st' = true
  /\ readingPassage st' = readingPassage st ++ passageContribution p
  /\ currentQuestion st' = currentQuestion st
  /\ pushed st' = pushed st.
Proof.
  intros H Hin. simpl. unfold passageContribution.
  destruct (headerLine p) eqn:Hh.
  - destruct (step_header st p Hh) as (-> & -> & -> & ->).
    by rewrite app_nil_r.
  - unfold passageBlockLine, passageStartLine, questionLine in H.
    rewrite Hh in H. simpl in H.
    apply andb_true_iff in H as [Hpass Hq].
    apply negb_true_iff in Hpass. apply negb_true_iff in Hq.
    enter_step Hh. by rewrite Hpass, Hin, Hq.
Qed.

Lemma runLoop_passage_block block st :
  forallb passageBlockLine block = true -> inReading st = true ->
  let st' := runLoop block st in
  inReading st' = true
  /\ readingPassage st' = readingPassage st ++ flat_map passageContribution block
  /\ currentQuestion st' = currentQuestion st
  /\ pushed st' = pushed st.
Proof.
  revert st. induction block as [|p block IH]; intros st Hb Hin; simpl.
  - by rewrite app_nil_r.
  - simpl in Hb. apply andb_true_iff in Hb as [Hp Hb].
    destruct (step_passage_block st p Hp Hin) as (H1 & H2 & H3 & H4).
    destruct (IH (step st p) Hb H1) as (G1 & G2 & G3 & G4).
    unfold runLoop in *.
    rewrite G1, G2, G3, G4, H2, H3, H4. by rewrite <- app_assoc.
Qed.

Lemma finalize_passage q : passage (finalize q) = passage q.
Proof. unfold finalize. by case_match. Qed.
(** ** The lines that open a question *)

(** A matcher that succeeds with one continuation succeeds with every
    continuation that succeeds wherever the first does. *)
Lemma rmatch_mono r :
  forall k1 k2 s,
    (forall s', is_Some (k1 s') -> is_Some (k2 s')) ->
    is_Some (rmatch r k1 s) -> is_Some (rmatch r k2 s).
Proof.
  induction r as [p| |a IHa b IHb|a IHa b IHb|g a IHa|i a IHa| |];
    intros k1 k2 s Hk; cbn [rmatch].
  - destruct (m_rest s) as [|c t]; [done|]. destruct (p c); [apply Hk|done].
  - apply Hk.
  - apply IHa. intros s'. by apply IHb.
  - intros H. destruct (rmatch a k1 s) eqn:H1.
    + assert (H2 : is_Some (rmatch a k2 s)).
      { apply (IHa k1 k2 s Hk). by rewrite H1. }
      destruct H2 as [x ->]. by eexists.
    + apply (IHb k1 k2 s Hk) in H. by destruct (rmatch a k2 s).
  - generalize (length (m_rest s)). intros fuel. revert s.
    induction fuel as [|fuel IHf]; intros s; [apply Hk|].
    set (iter1 := rmatch a (fun s' => if m_pos s' =? m_pos s then None else _) s).
    set (iter2 := rmatch a (fun s' => if m_pos s' =? m_pos s then None else _) s).
    assert (Hiter : is_Some iter1 -> is_Some iter2).
    { apply IHa. intros s'. destruct (m_pos s' =? m_pos s); [done|apply IHf]. }
    destruct g.
    + intros H. destruct iter1 eqn:H1.
      * destruct Hiter as [x ->]; by eauto.
      * apply Hk in H. by destruct iter2.
    + intros H. destruct (k1 s) eqn:H1.
      * destruct (Hk s) as [x ->]; by eauto.
      * apply Hiter in H. by destruct (k2 s).
  - apply IHa. intros s'. apply Hk.
  - destruct (m_pos s =? 0); [apply Hk|done].
  - destruct (m_rest s); [apply Hk|done].
Qed.

Lemma search_from_mono r1 r2 :
  (forall s, is_Some (rmatch r1 Some s) -> is_Some (rmatch r2 Some s)) ->
  forall rest pos,
    is_Some (search_from r1 pos rest) -> is_Some (search_from r2 pos rest).
Proof.
  intros Hr. induction rest as [|c rest IH]; intros pos; cbn [search_from].
  - specialize (Hr (MState pos [] [])).
    destruct (rmatch r1 Some _); [|by intros []].
    destruct Hr as [x ->]; by eauto.
  - specialize (Hr (MState pos (c :: rest) [])).
    destruct (rmatch r1 Some _).
    + destruct Hr as [x ->]; by eauto.
    + intros H%IH. by destruct (rmatch r2 Some _).
Qed.

(** A line the question pattern matches reads as the start of a
    question: the pattern [questionLineRegex] is the pattern
    [questionRegex] cut off behind the digits. *)
Lemma questionRegex_questionLine line :
  is_Some (regex_match questionRegex line) ->
  regex_test questionLineRegex line = true.
Proof.
  intros H. apply bool_decide_eq_true. revert H. unfold regex_match.
  apply search_from_mono. intros s.
  unfold questionRegex, questionLineRegex, rseq. cbn [foldr].
  repeat (change (rmatch (RSeq ?a ?b) ?k) with (rmatch a (rmatch b k))).
  apply rmatch_mono. intros s1.
  apply rmatch_mono. intros s2.
  apply rmatch_mono. intros s3.
  change (rmatch (RGroup 1 ?a) ?k s3)
    with (rmatch a (fun s' => k (MState (m_pos s') (m_rest s')
                                   ((1, take (m_pos s' - m_pos s3) (m_rest s3))
                                    :: m_caps s'))) s3).
  apply rmatch_mono. intros s4 _. by eexists.
Qed.

Lemma finalize_number q : number (finalize q) = number q.
Proof. unfold finalize. by case_match. Qed.

Lemma origin_finalize q : origin (finalize q) = origin q.
Proof. unfold origin. by rewrite finalize_number, finalize_passage. Qed.

Lemma origin_extract pData q : origin (extractOptionsWithUnderline pData q) = origin q.
Proof. unfold origin. by rewrite extract_number, extract_passage. Qed.

(** A turn of the loop leaves the origins of the questions as they
    are, and adds one when the line opens a question. *)
Lemma step_origins st p :
  origin <$> pushCurrent (step st p)
  = (origin <$> pushCurrent st)
    ++ (if questionStartLine p
        then [(lineNumber p, readingPassage st)] else []).
Proof.
  destruct (headerLine p) eqn:Hh.
  { destruct (step_header st p Hh) as (_ & _ & Hc & Hp).
    unfold pushCurrent, questionStartLine. rewrite Hc, Hp, Hh. simpl.
    by rewrite app_nil_r. }
  assert (Hqs : questionStartLine p
                = negb (regex_test passageRegex (trim (pd_text p)))
                  && regex_test questionLineRegex (trim (pd_text p))
                  && bool_decide (is_Some (regex_match questionRegex
                                             (trim (pd_text p))))).
  { unfold questionStartLine, passageStartLine, questionLine. by rewrite Hh. }
  rewrite Hqs. clear Hqs. unfold lineNumber.
  enter_step Hh.
  destruct (regex_test passageRegex _) eqn:Hpass.
  { simpl. by rewrite app_nil_r. }
  destruct (regex_test questionLineRegex _) eqn:Hql.
  - rewrite andb_false_r.
    destruct (regex_match questionRegex _) as [m|] eqn:Hq.
    + rewrite bool_decide_eq_true_2 by eauto. simpl.
      unfold pushCurrent at 1. simpl.
      rewrite fmap_app. simpl. by rewrite origin_finalize, origin_extract.
    + rewrite bool_decide_eq_false_2 by (by intros [? ?]). simpl.
      rewrite app_nil_r. unfold pushCurrent.
      destruct (currentQuestion st) as [q|]; simpl; [|done].
      rewrite !fmap_app. simpl. rewrite !origin_finalize. do 2 f_equal.
      repeat case_match; by rewrite ?origin_extract.
  - simpl. rewrite app_nil_r.
    destruct (inReading st); simpl; [done|].
    destruct (regex_match questionRegex _) as [m|] eqn:Hq.
    { assert (Hm : is_Some (regex_match questionRegex (trim (pd_text p))))
        by (rewrite Hq; eauto).
      apply questionRegex_questionLine in Hm. congruence. }
    unfold pushCurrent.
    destruct (currentQuestion st) as [q|]; simpl; [|done].
    rewrite !fmap_app. simpl. rewrite !origin_finalize. do 2 f_equal.
    repeat case_match; by rewrite ?origin_extract.
Qed.

Lemma runLoop_origins paragraphs :
  forall st,
    origin <$> pushCurrent (runLoop paragraphs st)
    = (origin <$> pushCurrent st) ++ originsOf st paragraphs.
Proof.
  induction paragraphs as [|p ps IH]; intros st.
  - simpl. by rewrite app_nil_r.
  - change (runLoop (p :: ps) st) with (runLoop ps (step st p)).
    cbn [originsOf]. rewrite IH, step_origins. by rewrite <- app_assoc.
Qed.

Lemma originsOf_numbers paragraphs :
  forall st, (originsOf st paragraphs).*1 = lineNumbers paragraphs.
Proof.
  unfold lineNumbers.
  induction paragraphs as [|p ps IH]; intros st; [done|].
  cbn [originsOf List.filter]. rewrite fmap_app, IH.
  by destruct (questionStartLine p).
Qed.

Lemma originsOf_app l1 l2 :
  forall st,
    originsOf st (l1 ++ l2) = originsOf st l1 ++ originsOf (runLoop l1 st) l2.
Proof.
  induction l1 as [|p l1 IH]; intros st; [done|].
  change (runLoop (p :: l1) st) with (runLoop l1 (step st p)).
  cbn [app originsOf]. rewrite IH. by rewrite <- app_assoc.
Qed.

(** The questions the loop pushes are those of the question-start
    lines, one for each, in the order of the lines. *)
Lemma pushedQuestions_numbers paragraphs :
  number <$> pushedQuestions paragraphs = lineNumbers paragraphs.
Proof.
  rewrite <- (originsOf_numbers paragraphs initialContext).
  unfold pushedQuestions.
  assert (H := runLoop_origins paragraphs initialContext).
  simpl in H. rewrite <- H. by rewrite <- list_fmap_compose.
Qed.

Lemma markQuestion_passage q : passage (markQuestion q) = passage q.
Proof. unfold markQuestion. by repeat case_match. Qed.

(** Outside a passage block, and on the line that ends one, a line
    that does not start a passage leaves the accumulated text as it
    is. *)
Lemma step_keeps_passage st p :
  passageStartLine p = false ->
  inReading st = false \/ (headerLine p = false /\ questionLine p = true) ->
  readingPassage (step st p) = readingPassage st
  /\ inReading (step st p) = false.
Proof.
  intros Hps Hin.
  destruct (headerLine p) eqn:Hh.
  { destruct (step_header st p Hh) as (-> & -> & _).
    by destruct Hin as [?|[? _]]. }
  unfold passageStartLine in Hps. rewrite Hh in Hps. simpl in Hps.
  unfold questionLine in Hin.
  enter_step Hh. rewrite Hps.
  assert (Hguard : inReading st
                   && negb (regex_test questionLineRegex (trim (pd_text p)))
                   = false).
  { destruct Hin as [->|[_ ->]]; [done|by rewrite andb_false_r]. }
  rewrite Hguard.
  assert (Hin' : (if regex_test questionLineRegex (trim (pd_text p))
                  then false else inReading st) = false).
  { destruct Hin as [->|[_ ->]]; [by case_match|done]. }
  rewrite Hin'.
  destruct (regex_match questionRegex _); [done|].
  by destruct (currentQuestion st).
Qed.

Lemma originsOf_constant R paragraphs :
  forall st,
    forallb (fun p => negb (passageStartLine p)) paragraphs = true ->
    readingPassage st = R ->
    inReading st = false \/ endsBlock paragraphs = true ->
    originsOf st paragraphs
    = (fun p => (lineNumber p, R)) <$> List.filter questionStartLine paragraphs.
Proof.
  induction paragraphs as [|p ps IH]; intros st Hps HR Hin; [done|].
  cbn [forallb] in Hps. apply andb_true_iff in Hps as [Hp Hps].
  apply negb_true_iff in Hp.
  assert (Hin' : inReading st = false
                 \/ (headerLine p = false /\ questionLine p = true)).
  { destruct Hin as [?|He]; [by left|]. right. simpl in He.
    apply andb_true_iff in He as [?%negb_true_iff ?]. done. }
  destruct (step_keeps_passage st p Hp Hin') as [HR' Hin''].
  cbn [originsOf List.filter].
  rewrite (IH (step st p)); [|done|congruence|by left].
  rewrite HR. by destruct (questionStartLine p).
Qed.

Lemma passageBlockLine_not_start p :
  passageBlockLine p = true -> questionStartLine p = false.
Proof.
  unfold passageBlockLine, questionStartLine.
  intros [_ H]%andb_true_iff.
  destruct (headerLine p); [done|]. simpl in *.
  apply negb_true_iff in H. rewrite H. by rewrite andb_false_r.
Qed.

Lemma originsOf_block block :
  forall st, forallb passageBlockLine block = true -> originsOf st block = [].
Proof.
  induction block as [|p block IH]; intros st Hb; [done|].
  cbn [forallb] in Hb. apply andb_true_iff in Hb as [Hp Hb].
  cbn [originsOf]. rewrite (passageBlockLine_not_start p Hp). by apply IH.
Qed.

Lemma passageStartLine_not_start p :
  passageStartLine p = true -> questionStartLine p = false.
Proof.
  unfold questionStartLine. intros ->. by rewrite andb_false_r.
Qed.


(** Once it is not empty the accumulated text stays so. *)
Lemma step_passage_kept st p :
  readingPassage st <> [] -> readingPassage (step st p) <> [].
Proof.
  intros H. unfold step. cbv zeta.
  repeat case_match; simpl; try done;
    intros [Hl Hr]%app_eq_nil; try done;
    by apply app_eq_nil in Hr as [_ ?].
Qed.

Lemma runLoop_passage_kept paragraphs :
  forall st,
    readingPassage st <> [] -> readingPassage (runLoop paragraphs st) <> [].
Proof.
  induction paragraphs as [|p ps IH]; intros st H; [done|].
  change (runLoop (p :: ps) st) with (runLoop ps (step st p)).
  by apply IH, step_passage_kept.
Qed.

Lemma runLoop_passage_seen paragraphs :
  forall st,
    existsb passageStartLine paragraphs = true ->
    readingPassage (runLoop paragraphs st) <> [].
Proof.
  induction paragraphs as [|p ps IH]; intros st H; [done|].
  change (runLoop (p :: ps) st) with (runLoop ps (step st p)).
  cbn [existsb] in H. destruct (passageStartLine p) eqn:Hp.
  - apply runLoop_passage_kept. rewrite (step_passage_start _ _ Hp). simpl.
    intros [_ ?]%app_eq_nil. done.
  - by apply IH.
Qed.

Lemma originsOf_nonempty paragraphs :
  forall st,
    readingPassage st <> [] ->
    Forall (fun o : N * str => o.2 <> []) (originsOf st paragraphs).
Proof.
  induction paragraphs as [|p ps IH]; intros st H; [done|].
  cbn [originsOf]. apply Forall_app. split.
  - by destruct (questionStartLine p); repeat constructor.
  - by apply IH, step_passage_kept.
Qed.

(** ** The question list (C6) *)

(** C6: the question list a parse returns is in ascending order of
    number; it is a rearrangement of the questions the loop pushed
    (each as the answer pass leaves it), and those are the questions of
    the question-start lines of the document, one for each line, in
    the order of the lines and with their numbers: none is merged or
    dropped; and the questions of any one number stand in the order
    they were pushed. *)
Theorem C6_questions_sorted_stable (paragraphs : list ParagraphData) :
  let result := (parseQuestionsFromParagraphs paragraphs).1.2 in
  let inserted := markQuestion <$> pushedQuestions paragraphs in
  StronglySorted number_le result
  /\ Permutation result inserted
  /\ (forall n, List.filter (hasNumber n) result
                = List.filter (hasNumber n) inserted)
  /\ number <$> inserted = lineNumbers paragraphs.
Proof.
  simpl. split; [|split; [|split]].
  - unfold parseQuestionsFromParagraphs, pushedQuestions. simpl.
    rewrite markAnswers_fst.
    apply Sorted_StronglySorted.
    { intros x y z. unfold number_le. lia. }
    eapply Sorted_mono; [|apply js_sort_sorted, compareNumbers_total].
    intros x y. unfold cmp_le, compareNumbers, number_le. lia.
  - unfold parseQuestionsFromParagraphs, pushedQuestions. simpl.
    rewrite markAnswers_fst. apply js_sort_perm.
  - unfold parseQuestionsFromParagraphs, pushedQuestions. simpl.
    rewrite markAnswers_fst.
    intros n. apply js_sort_stable.
    intros a b Ha Hb. unfold hasNumber in *.
    apply N.eqb_eq in Ha, Hb. unfold cmp_le, compareNumbers. lia.
  - rewrite <- list_fmap_compose, <- pushedQuestions_numbers.
    apply list_fmap_ext. intros i q _. apply markQuestion_number.
Qed.

(** Three question-start lines, two of them with the number 2: both
    questions are returned, in the order of their lines. *)
Example duplicate_numbers_kept :
  (fun q => (number q, q_text q))
    <$> (parseQuestionsFromParagraphs
           [plainParagraph "Câu 2. first"; plainParagraph "Câu 1. second";
            plainParagraph "Câu 2. third"]).1.2
  = [(1%N, utf16 "second"); (2%N, utf16 "first"); (2%N, utf16 "third")].
Proof. vm_compute. reflexivity. Qed.

(** Past 2^53 parseInt rounds: the two lines give the same number, and
    their questions keep their order. *)
Example rounded_numbers_kept :
  (fun q => (number q, q_text q))
    <$> (parseQuestionsFromParagraphs
           [plainParagraph "Câu 9007199254740993. first";
            plainParagraph "Câu 9007199254740992. second"]).1.2
  = [(9007199254740992%N, utf16 "first");
     (9007199254740992%N, utf16 "second")].
Proof. vm_compute. reflexivity. Qed.

(** ** Reading passages carried by the questions (C10) *)

Lemma markQuestion_origins l :
  number <$> (markQuestion <$> l) = (origin <$> l).*1.
Proof.
  rewrite <- !list_fmap_compose. apply list_fmap_ext.
  intros i q _. apply markQuestion_number.
Qed.

(** Questions opened once a passage start has been read do not have an
    empty passage. *)
Lemma passage_never_empty (seen rest : list ParagraphData) :
  existsb passageStartLine seen = true ->
  exists olds new,
    (parseQuestionsFromParagraphs (seen ++ rest)).1.2 ≡ₚ olds ++ new
    /\ number <$> olds = lineNumbers seen
    /\ number <$> new = lineNumbers rest
    /\ Forall (fun q => passage q <> []) new.
Proof.
  intros Hseen.
  assert (Horigins :
            origin <$> pushedQuestions (seen ++ rest)
            = originsOf initialContext seen
              ++ originsOf (runLoop seen initialContext) rest).
  { unfold pushedQuestions. rewrite runLoop_origins. simpl.
    apply originsOf_app. }
  apply fmap_app_inv in Horigins as (la & lb & Ha & Hb & Hpushed).
  exists (markQuestion <$> la), (markQuestion <$> lb).
  split; [|split; [|split]].
  - rewrite <- fmap_app, <- Hpushed, parse_questions. apply js_sort_perm.
  - by rewrite markQuestion_origins, <- Ha, originsOf_numbers.
  - by rewrite markQuestion_origins, <- Hb, originsOf_numbers.
  - apply Forall_fmap, Forall_forall. intros q Hq. simpl.
    rewrite markQuestion_passage.
    assert (Ho : origin q ∈ origin <$> lb).
    { apply list_elem_of_fmap. by exists q. }
    rewrite <- Hb in Ho.
    assert (Hall := originsOf_nonempty rest (runLoop seen initialContext)
                      (runLoop_passage_seen seen initialContext Hseen)).
    rewrite Forall_forall in Hall. apply (Hall _ Ho).
Qed.

(** C10: once a passage-start line has been read the accumulated
    passage text is never empty again: in every document, the questions
    returned for the question-start lines that follow a passage-start
    line have a passage that is not empty.  And the text is carried: in
    every document, behind any passage-start line and the lines of its
    block, the questions returned for the question-start lines up to
    the next passage-start line, those that begin after the questions
    of the passage have ended too, have the whole text of the block as
    their passage. *)
Theorem C10_passage_carried :
  (forall seen rest : list ParagraphData,
     existsb passageStartLine seen = true ->
     exists olds new,
       (parseQuestionsFromParagraphs (seen ++ rest)).1.2 ≡ₚ olds ++ new
       /\ number <$> olds = lineNumbers seen
       /\ number <$> new = lineNumbers rest
       /\ Forall (fun q => passage q <> []) new)
  /\ (forall (before : list ParagraphData) (start : ParagraphData)
             (block after tail : list ParagraphData),
        passageStartLine start = true ->
        forallb passageBlockLine block = true ->
        forallb (fun p => negb (passageStartLine p)) after = true ->
        endsBlock after = true ->
        let R := trim (pd_text start) ++ newline
                 ++ flat_map passageContribution block in
        let paragraphs := before ++ start :: block ++ after ++ tail in
        R <> []
        /\ exists olds new later,
             (parseQuestionsFromParagraphs paragraphs).1.2
             ≡ₚ olds ++ new ++ later
             /\ number <$> olds = lineNumbers before
             /\ number <$> new = lineNumbers after
             /\ number <$> later = lineNumbers tail
             /\ Forall (carries R) new).
Proof.
  split; [apply passage_never_empty|].
  intros before start block after tail.
  intros Hstart Hblock Hafter Hends. cbv zeta.
  set (R := trim (pd_text start) ++ newline ++ flat_map passageContribution block).
  split.
  { unfold R. intros Hnil. by apply app_eq_nil in Hnil as [_ Hnil]. }
  set (st0 := runLoop before initialContext).
  set (st1 := step st0 start).
  set (st2 := runLoop block st1).
  set (st3 := runLoop after st2).
  assert (HR : readingPassage st2 = R).
  { assert (Hin : inReading st1 = true).
    { unfold st1. by rewrite (step_passage_start _ _ Hstart). }
    destruct (runLoop_passage_block block st1 Hblock Hin) as (_ & H2 & _).
    unfold st2. rewrite H2. unfold st1.
    rewrite (step_passage_start _ _ Hstart). simpl.
    unfold R. by rewrite <- app_assoc. }
  assert (Horigins :
            origin <$> pushedQuestions (before ++ start :: block ++ after ++ tail)
            = originsOf initialContext before
              ++ ((fun p => (lineNumber p, R))
                    <$> List.filter questionStartLine after)
              ++ originsOf st3 tail).
  { unfold pushedQuestions. rewrite runLoop_origins. simpl.
    rewrite originsOf_app. fold st0. f_equal.
    cbn [originsOf]. rewrite (passageStartLine_not_start _ Hstart). simpl.
    fold st1. rewrite originsOf_app, (originsOf_block _ _ Hblock). simpl.
    fold st2. rewrite originsOf_app. fold st3. f_equal.
    apply originsOf_constant; [done|done|by right]. }
  apply fmap_app_inv in Horigins as (la & rest & Ha & Hrest & Hpushed).
  symmetry in Hrest.
  apply fmap_app_inv in Hrest as (lb & lc & Hb & Hc & ->).
  exists (markQuestion <$> la), (markQuestion <$> lb), (markQuestion <$> lc).
  assert (Hnum := markQuestion_origins).
  split; [|split; [|split; [|split]]].
  - rewrite <- !fmap_app, <- Hpushed.
    unfold parseQuestionsFromParagraphs, pushedQuestions. simpl.
    rewrite markAnswers_fst. apply js_sort_perm.
  - by rewrite Hnum, <- Ha, originsOf_numbers.
  - by rewrite Hnum, <- Hb, <- list_fmap_compose.
  - by rewrite Hnum, <- Hc, originsOf_numbers.
  - apply Forall_fmap, Forall_forall. intros q Hq. unfold carries. simpl.
    rewrite markQuestion_passage.
    assert (Ho : origin q ∈ origin <$> lb).
    { apply list_elem_of_fmap. by exists q. }
    rewrite <- Hb in Ho. apply list_elem_of_fmap in Ho as (p & Ho & _).
    unfold origin in Ho. by injection Ho as _ ->.
Qed.

Lemma C10_witness :
  let after := numberOnlyLine :: passageQuestion :: afterPassage in
  let R := trim (pd_text passageStart) ++ newline
           ++ flat_map passageContribution passageBlock in
  let paragraphs := beforePassage ++ passageStart :: passageBlock
                    ++ after ++ nextPassage in
  R <> []
  /\ exists olds new later,
       (parseQuestionsFromParagraphs paragraphs).1.2 ≡ₚ olds ++ new ++ later
       /\ number <$> olds = lineNumbers beforePassage
       /\ number <$> new = lineNumbers after
       /\ number <$> later = lineNumbers nextPassage
       /\ Forall (carries R) new.
Proof.
  apply (proj2 C10_passage_carried beforePassage passageStart passageBlock
           (numberOnlyLine :: passageQuestion :: afterPassage) nextPassage);
    vm_compute; reflexivity.
Defined.

(** The document of the witness: the question before the passage has
    no passage, the two behind its block have its text, though the
    block is ended by a line that opens no question and the second of
    them begins after a part header, and the last has the text of the
    next passage. *)
Example passages_of_returned_questions :
  origin <$> (parseQuestionsFromParagraphs
                (beforePassage ++ passageStart :: passageBlock
                 ++ (numberOnlyLine :: passageQuestion :: afterPassage)
                 ++ nextPassage)).1.2
  = [(1%N, utf16 "A surprising gift" ++ newline
           ++ utf16 "Tom got a parcel on Monday." ++ newline);
     (2%N, utf16 "A surprising gift" ++ newline
           ++ utf16 "Tom got a parcel on Monday." ++ newline);
     (3%N, utf16 "Stewart the Dragon" ++ newline);
     (7%N, [])].
Proof. vm_compute. reflexivity. Qed.

(** ** The formatted text (C8) *)

Lemma space_not_angle c :
  isSpace c = true -> (c =? unit_of "<")%N = false /\ (c =? unit_of ">")%N = false.
Proof.
  intros Hc. split; apply N.eqb_neq; intros ->; by vm_compute in Hc.
Qed.

Arguments isSpace : simpl never.
Arguments unit_of : simpl never.

(** Collapsing white space before the tags are stripped changes nothing
    that a later collapse would not change. *)
Lemma collapse_strip_collapse raw t b c :
  (t = false -> b = true -> c = true) ->
  collapseFrom isSpace c (stripTagsFrom t (collapseFrom isSpace b raw))
  = collapseFrom isSpace c (stripTagsFrom t raw).
Proof.
  revert t b c. induction raw as [|x raw IH]; intros t b c Hbc; [done|].
  simpl. destruct (isSpace x) eqn:Hx.
  - destruct (space_not_angle x Hx) as [Hlt Hgt].
    destruct t; rewrite ?Hlt, ?Hgt.
    + destruct b; simpl; rewrite ?Hgt; by apply IH.
    + destruct b; simpl; rewrite ?Hlt, ?Hx; simpl.
      * rewrite (Hbc eq_refl eq_refl). by apply IH.
      * destruct c; rewrite IH; done.
  - simpl. destruct t.
    + destruct (x =? unit_of ">")%N; by apply IH.
    + destruct (x =? unit_of "<")%N; [by apply IH|].
      simpl. rewrite Hx. f_equal. by apply IH.
Qed.

Lemma trimStart_split s :
  exists ws, allSpaces ws /\ s = ws ++ trimStart s.
Proof.
  induction s as [|c s (ws & Hws & IH)]; simpl.
  - exists []. split; [constructor|done].
  - destruct (isSpace c) eqn:Hc.
    + exists (c :: ws). split; [by constructor|]. simpl. by f_equal.
    + exists []. split; [constructor|done].
Qed.

Lemma trimStart_spaces ws s : allSpaces ws -> trimStart (ws ++ s) = trimStart s.
Proof. induction 1 as [|c ws Hc _ IH]; simpl; [done|]. by rewrite Hc. Qed.

Lemma trimStart_all_spaces ws : allSpaces ws -> trimStart ws = [].
Proof.
  intros H. rewrite <- (app_nil_r ws). by rewrite trimStart_spaces.
Qed.

Lemma allSpaces_rev ws : allSpaces ws -> allSpaces (rev ws).
Proof. apply Forall_rev. Qed.

Lemma trimEnd_split s :
  exists ws, allSpaces ws /\ s = trimEnd s ++ ws.
Proof.
  unfold trimEnd. destruct (trimStart_split (rev s)) as (ws & Hws & Heq).
  exists (rev ws). split; [by apply allSpaces_rev|].
  rewrite <- rev_app_distr, <- Heq. by rewrite rev_involutive.
Qed.

Lemma trimEnd_spaces ws s : allSpaces ws -> trimEnd (s ++ ws) = trimEnd s.
Proof.
  intros H. unfold trimEnd. rewrite rev_app_distr.
  by rewrite trimStart_spaces by by apply allSpaces_rev.
Qed.

Lemma trimStart_app_r s ws :
  allSpaces ws -> trimStart (s ++ ws) = [] \/ trimStart (s ++ ws) = trimStart s ++ ws.
Proof.
  intros H. induction s as [|c s IH]; simpl.
  - left. by apply trimStart_all_spaces.
  - destruct (isSpace c); [done|]. by right.
Qed.

Lemma trimStart_nil_app s ws : trimStart (s ++ ws) = [] -> trimStart s = [].
Proof.
  induction s as [|c s IH]; simpl; [done|].
  destruct (isSpace c); [done|]. done.
Qed.

Lemma trim_spaces_l ws s : allSpaces ws -> trim (ws ++ s) = trim s.
Proof. intros H. unfold trim. by rewrite trimStart_spaces. Qed.

Lemma trim_spaces_r ws s : allSpaces ws -> trim (s ++ ws) = trim s.
Proof.
  intros H. unfold trim. destruct (trimStart_app_r s ws H) as [Hn|Hn].
  - rewrite Hn. by rewrite (trimStart_nil_app _ _ Hn).
  - rewrite Hn. by apply trimEnd_spaces.
Qed.

Lemma allSpaces_nil : allSpaces [].
Proof. constructor. Qed.

Lemma collapseFrom_true_false s :
  exists ws, allSpaces ws
             /\ collapseFrom isSpace false s = ws ++ collapseFrom isSpace true s.
Proof.
  destruct s as [|c s]; simpl.
  { exists []. split; [apply allSpaces_nil|done]. }
  destruct (isSpace c).
  - exists [32%N]. split; [|done]. by repeat constructor.
  - exists []. split; [apply allSpaces_nil|done].
Qed.

Lemma collapseFrom_spaces b ws :
  allSpaces ws -> allSpaces (collapseFrom isSpace b ws).
Proof.
  intros H. revert b. induction H as [|c ws Hc _ IH]; intros b; simpl; [constructor|].
  rewrite Hc. destruct b; [apply IH|]. constructor; [done|apply IH].
Qed.

Lemma collapseFrom_app b x y :
  exists b', collapseFrom isSpace b (x ++ y)
             = collapseFrom isSpace b x ++ collapseFrom isSpace b' y.
Proof.
  revert b. induction x as [|c x IH]; intros b; simpl; [by exists b|].
  destruct (isSpace c).
  - destruct (IH true) as [b' ->]. exists b'. by destruct b.
  - destruct (IH false) as [b' ->]. by exists b'.
Qed.

Lemma normalize_spaces_l ws s : allSpaces ws -> normalize (ws ++ s) = normalize s.
Proof.
  intros H. unfold normalize, collapse.
  destruct (collapseFrom_app false ws s) as [b' ->].
  rewrite trim_spaces_l by by apply collapseFrom_spaces.
  destruct b'; [|done].
  destruct (collapseFrom_true_false s) as (ws' & Hws' & ->).
  by rewrite trim_spaces_l.
Qed.

Lemma normalize_spaces_r ws s : allSpaces ws -> normalize (s ++ ws) = normalize s.
Proof.
  intros H. unfold normalize, collapse.
  destruct (collapseFrom_app false s ws) as [b' ->].
  by rewrite trim_spaces_r by by apply collapseFrom_spaces.
Qed.

Lemma strip_spaces_l ws y :
  allSpaces ws -> stripTagsFrom false (ws ++ y) = ws ++ stripTagsFrom false y.
Proof.
  induction 1 as [|c ws Hc _ IH]; simpl; [done|].
  destruct (space_not_angle c Hc) as [-> _]. by f_equal.
Qed.

Lemma strip_spaces_r t y ws :
  allSpaces ws ->
  exists ws', allSpaces ws'
              /\ stripTagsFrom t (y ++ ws) = stripTagsFrom t y ++ ws'.
Proof.
  intros H. revert t. induction y as [|c y IH]; intros t.
  - destruct t.
    + exists []. split; [apply allSpaces_nil|]. simpl.
      induction H as [|c ws Hc _ IH]; simpl; [done|].
      by destruct (space_not_angle c Hc) as [_ ->].
    + exists ws. split; [done|]. simpl.
      rewrite <- (app_nil_r ws) at 1. rewrite strip_spaces_l by done.
      by rewrite app_nil_r.
  - simpl. destruct t.
    + destruct (c =? unit_of ">")%N; apply IH.
    + destruct (c =? unit_of "<")%N; [apply IH|].
      destruct (IH false) as (ws' & Hws' & ->). by exists ws'.
Qed.

Lemma normalize_strip_trim x :
  normalize (stripTags (trim x)) = normalize (stripTags x).
Proof.
  destruct (trimStart_split x) as (ws1 & H1 & E1).
  destruct (trimEnd_split (trimStart x)) as (ws2 & H2 & E2).
  fold (trim x) in E2. rewrite E1 at 2. rewrite E2. unfold stripTags.
  rewrite strip_spaces_l by done.
  destruct (strip_spaces_r false (trim x) ws2 H2) as (ws' & Hws' & ->).
  rewrite normalize_spaces_l by done. by rewrite normalize_spaces_r.
Qed.

(** Normalising the marked-up text and then stripping the tags shows
    the same text, up to white space, as stripping the tags at once. *)
Lemma normalize_strip_normalize raw :
  normalize (stripTags (normalize raw)) = normalize (stripTags raw).
Proof.
  unfold normalize at 2. rewrite normalize_strip_trim.
  unfold normalize, stripTags, collapse. f_equal.
  by apply collapse_strip_collapse.
Qed.

Lemma strip_app t x y :
  stripTagsFrom t (x ++ y)
  = stripTagsFrom t x ++ stripTagsFrom (inTagAfter t x) y.
Proof.
  revert t. induction x as [|c x IH]; intros t; simpl; [done|].
  destruct t.
  - destruct (c =? unit_of ">")%N; simpl; apply IH.
  - destruct (c =? unit_of "<")%N; simpl; [apply IH|]. f_equal. apply IH.
Qed.


Lemma strip_escapeUnit c y :
  stripTagsFrom false (escapeUnit c ++ y) = escapeUnit c ++ stripTagsFrom false y.
Proof.
  unfold escapeUnit.
  destruct (c =? 38)%N; [vm_compute (utf16 _); reflexivity|].
  destruct (c =? 160)%N; [vm_compute (utf16 _); reflexivity|].
  destruct (c =? 60)%N eqn:Hlt; [vm_compute (utf16 _); reflexivity|].
  destruct (c =? 62)%N; [vm_compute (utf16 _); reflexivity|].
  simpl. change (unit_of "<") with 60%N. by rewrite Hlt.
Qed.

Lemma strip_escapeHtml p y :
  stripTagsFrom false (escapeHtml p ++ y) = escapeHtml p ++ stripTagsFrom false y.
Proof.
  unfold escapeHtml. induction p as [|c p IH]; [done|].
  cbn [flat_map]. by rewrite <- !app_assoc, strip_escapeUnit, IH.
Qed.

Lemma strip_tag g y :
  stripTagsFrom false g = [] -> inTagAfter false g = false ->
  stripTagsFrom false (g ++ y) = stripTagsFrom false y.
Proof. intros H1 H2. by rewrite strip_app, H1, H2. Qed.

Lemma strip_span_open y :
  stripTagsFrom false (span_open ++ y) = stripTagsFrom false y.
Proof. apply strip_tag; vm_compute; reflexivity. Qed.

Lemma strip_span_close y :
  stripTagsFrom false (span_close ++ y) = stripTagsFrom false y.
Proof. apply strip_tag; vm_compute; reflexivity. Qed.

Lemma strip_strong_open y :
  stripTagsFrom false (strong_open ++ y) = stripTagsFrom false y.
Proof. apply strip_tag; vm_compute; reflexivity. Qed.

Lemma strip_strong_close y :
  stripTagsFrom false (strong_close ++ y) = stripTagsFrom false y.
Proof. apply strip_tag; vm_compute; reflexivity. Qed.

Lemma strip_applyFormatting run p y :
  stripTagsFrom false (applyFormatting run (escapeHtml p) ++ y)
  = escapeHtml p ++ stripTagsFrom false y.
Proof.
  unfold applyFormatting.
  destruct (hasUnderline run), (hasBold run); cbn [andb];
    rewrite <- ?app_assoc;
    rewrite ?strip_span_open, ?strip_strong_open, strip_escapeHtml,
      ?strip_strong_close, ?strip_span_close;
    done.
Qed.

Lemma strip_formattedRuns runs startPos endPos :
  stripTags (formattedRuns runs startPos endPos)
  = escapeHtml (plainRange runs startPos endPos).
Proof.
  unfold stripTags, plainRange.
  induction runs as [|run runs IH]; [done|].
  cbn [formattedRuns flat_map]. unfold escapeHtml at 2.
  rewrite flat_map_app. fold (escapeHtml (textPortion run startPos endPos)).
  fold (escapeHtml (flat_map (fun run => textPortion run startPos endPos) runs)).
  case_bool_decide as Hp.
  - rewrite Hp. simpl. exact IH.
  - rewrite strip_applyFormatting. f_equal. exact IH.
Qed.

Lemma take_min_length {A} (l : list A) n : take n l = take (n `min` length l) l.
Proof. rewrite <- take_take. by rewrite (take_ge l (length l)). Qed.

(** The code units of a text that stand at the offsets of a window are
    a slice of it. *)
Lemma unitsAt_window s :
  forall offset lo hi,
    snd <$> List.filter (fun u : Z * N => (lo <=? u.1)%Z && (u.1 <? hi)%Z)
              (unitsAt offset s)
    = take (Z.to_nat (hi - Z.max lo offset)) (drop (Z.to_nat (lo - offset)) s).
Proof.
  induction s as [|c s IH]; intros offset lo hi.
  - by rewrite drop_nil, take_nil.
  - cbn [unitsAt List.filter]. cbn beta. cbn [fst].
    specialize (IH (offset + 1)%Z lo hi).
    destruct (Z.leb_spec lo offset) as [Hlo|Hlo].
    + replace (Z.to_nat (lo - offset)) with 0 by lia.
      replace (Z.to_nat (lo - (offset + 1))) with 0 in IH by lia.
      rewrite drop_0 in *.
      destruct (Z.ltb_spec offset hi) as [Hhi|Hhi]; cbn [andb fmap list_fmap].
      * replace (Z.to_nat (hi - Z.max lo offset))
          with (S (Z.to_nat (hi - Z.max lo (offset + 1)))) by lia.
        cbn [take snd]. f_equal. exact IH.
      * replace (Z.to_nat (hi - Z.max lo offset)) with 0 by lia.
        replace (Z.to_nat (hi - Z.max lo (offset + 1))) with 0 in IH by lia.
        rewrite take_0 in *. exact IH.
    + cbn [andb].
      replace (Z.to_nat (lo - offset))
        with (S (Z.to_nat (lo - (offset + 1)))) by lia.
      replace (Z.max lo offset) with (Z.max lo (offset + 1)) by lia.
      exact IH.
Qed.

(** The portion the builder takes from a run is the text of the run
    that stands at the offsets of the range. *)
Lemma textPortion_range run startPos endPos :
  textPortion run startPos endPos
  = snd <$> List.filter (withinRange run startPos endPos)
              (unitsAt (run_start run) (run_text run)).
Proof.
  transitivity
    (snd <$> List.filter
               (fun u : Z * N =>
                  (startPos <=? u.1)%Z && (u.1 <? Z.min (run_end run) endPos)%Z)
               (unitsAt (run_start run) (run_text run))).
  2:{ f_equal. apply filter_ext. intros [o c]. unfold withinRange. simpl. lia. }
  rewrite unitsAt_window. unfold textPortion, substr.
  destruct (Z.leb_spec (run_end run) startPos) as [He|He]; simpl.
  { replace (Z.to_nat _) with 0 at 1 by lia. done. }
  destruct (Z.leb_spec endPos (run_start run)) as [Hs|Hs]; simpl.
  { replace (Z.to_nat _) with 0 at 1 by lia. done. }
  set (len := Z.of_nat (length (run_text run))).
  destruct (Z.ltb_spec (Z.max (run_start run) startPos - run_start run) 0)
    as [Hneg|_]; [lia|].
  destruct (Z.le_gt_cases (startPos - run_start run) len) as [Hin|Hout].
  - replace (Z.to_nat (Z.min (Z.max (run_start run) startPos - run_start run) len))
      with (Z.to_nat (startPos - run_start run)) by lia.
    rewrite (take_min_length (drop _ _)), (take_min_length (drop _ _) (Z.to_nat (_ - _))).
    f_equal. rewrite length_drop. unfold len. lia.
  - rewrite !drop_ge by (unfold len in *; lia). by rewrite !take_nil.
Qed.

Lemma plainRange_rangeText runs startPos endPos :
  plainRange runs startPos endPos = rangeText runs startPos endPos.
Proof.
  unfold plainRange, rangeText. apply flat_map_ext.
  intros run. apply textPortion_range.
Qed.

(** C8, amended: stripping the markup tags from the builder's result
    gives the HTML-escaped plain text of the offset range, the code
    units of the runs that stand at the offsets of the range, up to
    white space: the two are equal once runs of white space are
    collapsed to one space and the ends are trimmed. *)
Theorem C8_visible_text_up_to_space
    (runs : list ParagraphRun) (startPos endPos : Z) :
  normalize (stripTags (buildFormattedText runs startPos endPos))
  = normalize (escapeHtml (rangeText runs startPos endPos)).
Proof.
  unfold buildFormattedText. fold (normalize (formattedRuns runs startPos endPos)).
  by rewrite normalize_strip_normalize, strip_formattedRuns, plainRange_rangeText.
Qed.

(** C8 as stated fails: over the range of the first option text of
    [spacedRuns], the three code units of cat and the space after
    them, the builder returns the three letters. *)
Lemma C8_counterexample :
  stripTags (buildFormattedText spacedRuns 3 7) <> rangeText spacedRuns 3 7.
Proof. vm_compute. discriminate. Qed.

Example rangeText_sample :
  rangeText spacedRuns 3 7 = utf16 "cat "
  /\ stripTags (buildFormattedText spacedRuns 3 7) = utf16 "cat".
Proof. split; vm_compute; reflexivity. Qed.

(** ** The scenario (C1) *)

(** C1, amended: in the scenario the parse gives one question, number
    1, with the options A cat and B dog; its third paragraph is an
    answer line, so the question is free-response and its correct
    answer is the text of that line, and the answers mapping is empty.
    Without the third paragraph the question is multiple-choice, its
    correct answer is B, and the answers mapping holds B for 1. *)
Theorem C1_scenario :
  scenario_as_parsed (utf16 "...") writing
    (parseQuestionsFromParagraphs scenarioParagraphs).1.2
  /\ (parseQuestionsFromParagraphs scenarioParagraphs).2 = ∅
  /\ scenario_as_parsed (utf16 "B") multiple_choice
       (parseQuestionsFromParagraphs (take 2 scenarioParagraphs)).1.2
  /\ (parseQuestionsFromParagraphs (take 2 scenarioParagraphs)).2 !! 1%N
     = Some (utf16 "B").
Proof.
  set (r := parseQuestionsFromParagraphs scenarioParagraphs).
  set (r2 := parseQuestionsFromParagraphs (take 2 scenarioParagraphs)).
  vm_compute in r, r2. subst r r2. cbn [fst snd].
  split; [|split; [|split]].
  - eexists. split; [reflexivity|]. repeat split; vm_compute; reflexivity.
  - vm_compute. reflexivity.
  - eexists. split; [reflexivity|]. repeat split; vm_compute; reflexivity.
  - vm_compute. reflexivity.
Qed.

(** C1 as stated fails: the question of the scenario is not
    multiple-choice. *)
Lemma C1_counterexample :
  ~ scenario_as_stated (parseQuestionsFromParagraphs scenarioParagraphs).1.2.
Proof.
  set (r := parseQuestionsFromParagraphs scenarioParagraphs).
  vm_compute in r. subst r. cbn [fst snd].
  intros (q & Hq & _ & Ht & _). injection Hq as <-. discriminate Ht.
Qed.

(** ** Title and time limit (C9) *)

(** C9: whatever the document, the exam a parse returns is titled
    Đề thi Tiếng Anh and has the time limit 60. *)
Theorem C9_title_and_time_limit :
  (forall xmlDoc : Document,
     title (parseDocumentXML xmlDoc) = utf16 "Đề thi Tiếng Anh"
     /\ timeLimit (parseDocumentXML xmlDoc) = 60%Z)
  /\ (forall loadAsync xmlParse errorDocument file,
        match parseWordToExam loadAsync xmlParse errorDocument file with
        | Resolved data =>
            title data = utf16 "Đề thi Tiếng Anh" /\ timeLimit data = 60%Z
        | Rejected _ => True
        end).
Proof.
  split; [done|].
  intros loadAsync xmlParse errorDocument file. unfold parseWordToExam.
  destruct (arrayBuffer file); [|done].
  destruct (loadAsync _); [|done].
  destruct (zipFile _ _) as [entry|]; [|done].
  destruct (async_string entry); [|done].
  case_bool_decide; [done|]. split; reflexivity.
Qed.

(** ** Text that is not well-formed (C3) *)

Lemma parseWordToExam_never_malformed loadAsync xmlParse errorDocument file :
  parseWordToExam loadAsync xmlParse errorDocument file
  <> Rejected MalformedDocumentError.
Proof.
  unfold parseWordToExam. destruct (arrayBuffer file); [|done].
  destruct (loadAsync _); [|done].
  destruct (zipFile _ _) as [entry|]; [|done].
  destruct (async_string entry); [|done].
  by case_bool_decide.
Qed.

(** C3, amended: when the text of the document entry cannot be parsed
    as well-formed markup the parse never fails with a
    MalformedDocumentError.  Empty text is reported as a missing
    document entry; for any other text the parse does not fail at all:
    it resolves with the exam read off the document the DOMParser
    returns in place of the parsed one. *)
Theorem C3_malformed_resolves
    (loadAsync : list N -> option (list (str * ZipObject)))
    (xmlParse : str -> option Document) (errorDocument : str -> Document)
    (file : File) (buffer : list N) (zip : list (str * ZipObject))
    (entry : ZipObject) (xml : str) :
  arrayBuffer file = Some buffer ->
  loadAsync buffer = Some zip ->
  zipFile (utf16 "word/document.xml") zip = Some entry ->
  async_string entry = Some xml ->
  xmlParse xml = None ->
  parseWordToExam loadAsync xmlParse errorDocument file
  = (if bool_decide (xml = []) then Rejected MissingEntryError
     else Resolved (parseDocumentXML (errorDocument xml)))
  /\ parseWordToExam loadAsync xmlParse errorDocument file
     <> Rejected MalformedDocumentError.
Proof.
  intros Hfile Hzip Hentry Hxml Hbad.
  split; [|apply parseWordToExam_never_malformed].
  unfold parseWordToExam.
  rewrite Hfile, Hzip, Hentry, Hxml.
  case_bool_decide; [done|].
  unfold parseFromString. by rewrite Hbad.
Qed.

Lemma C3_witness :
  parseWordToExam brokenArchive strictXmlParse parsererrorDocument readableFile
  = (if bool_decide (brokenXml = []) then Rejected MissingEntryError
     else Resolved (parseDocumentXML (parsererrorDocument brokenXml)))
  /\ parseWordToExam brokenArchive strictXmlParse parsererrorDocument
       readableFile
     <> Rejected MalformedDocumentError.
Proof.
  apply (C3_malformed_resolves brokenArchive strictXmlParse parsererrorDocument
           readableFile []
           [(utf16 "word/document.xml", {| async_string := Some brokenXml |})]
           {| async_string := Some brokenXml |} brokenXml).
  - reflexivity.
  - reflexivity.
  - vm_compute. reflexivity.
  - reflexivity.
  - reflexivity.
Defined.

(** The two outcomes on samples: the entry that breaks off resolves,
    the empty entry is reported as missing. *)
Example broken_entry_resolves :
  parseWordToExam brokenArchive strictXmlParse parsererrorDocument readableFile
  = Resolved (parseDocumentXML (parsererrorDocument brokenXml)).
Proof. vm_compute. reflexivity. Qed.

Example empty_entry_is_missing :
  parseWordToExam (archiveOf []) strictXmlParse parsererrorDocument readableFile
  = Rejected MissingEntryError.
Proof. vm_compute. reflexivity. Qed.

(** C3 as stated fails: for the broken archive the parse resolves. *)
Lemma C3_counterexample :
  ~ malformed_is_rejected brokenArchive strictXmlParse parsererrorDocument.
Proof.
  intros H.
  specialize (H readableFile []
                [(utf16 "word/document.xml",
                  {| async_string := Some brokenXml |})]
                {| async_string := Some brokenXml |} brokenXml
                eq_refl eq_refl).
  assert (Hres : exists data,
             parseWordToExam brokenArchive strictXmlParse parsererrorDocument
               readableFile
             = Resolved data).
  { eexists. vm_compute. reflexivity. }
  destruct Hres as [data Hres]. rewrite Hres in H.
  discriminate H.
  - vm_compute. reflexivity.
  - reflexivity.
  - reflexivity.
Qed.

(** ** Bold runs (C4) *)

Lemma runBold_boldUnlessZero run : runBold run = boldUnlessZero run.
Proof.
  unfold runBold, boldUnlessZero, boldOf.
  destruct (firstByTagName "w:rPr" run) as [rPr|]; simpl; [|done].
  destruct (firstByTagName "w:b" rPr) as [bold|]; [|done].
  unfold falsy, str_neb. destruct (attr "w:val" bold) as [v|]; [|done].
  case_bool_decide as Hempty; [|done].
  subst v. by vm_compute.
Qed.

Lemma paragraphRunsFrom_bold runs pos :
  hasBold <$> paragraphRunsFrom runs pos
  = runBold <$> List.filter runHasText runs.
Proof.
  revert pos. induction runs as [|run runs IH]; intros pos; [done|].
  cbn [paragraphRunsFrom List.filter]. unfold runHasText at 1.
  case_bool_decide as Ht; simpl; [apply IH|].
  f_equal. apply IH.
Qed.

Lemma allParagraphData_runs xmlDoc pd :
  In pd (allParagraphData xmlDoc) ->
  exists p, In p (getElementsByTagName (utf16 "w:p") xmlDoc)
    /\ pd_runs pd = paragraphRunsFrom (getElementsByTagName (utf16 "w:r") p) 0.
Proof.
  unfold allParagraphData. intros (p & Hp & Hpd)%in_flat_map.
  exists p. split; [done|]. unfold paragraphDataOf in Hpd.
  case_bool_decide; [done|]. by destruct Hpd as [<-|[]].
Qed.

(** C4, amended: the bold flag of an extracted run is set exactly when
    the properties of the run hold a bold property whose value
    attribute is absent or is not 0; a bold property that carries 0
    leaves the run not bold. *)
Theorem C4_bold_unless_zero (xmlDoc : Document) :
  bold_flags_follow boldUnlessZero xmlDoc
  /\ flat_map (fun pd => hasBold <$> pd_runs pd)
       (allParagraphData (boldValDocument "0")) = [false].
Proof.
  split; [|vm_compute; reflexivity].
  intros pd (p & Hp & Hruns)%allParagraphData_runs.
  exists p. split; [done|]. rewrite Hruns, paragraphRunsFrom_bold.
  apply fmap_ext_elem. intros run _. apply runBold_boldUnlessZero.
Qed.

(** C4 as stated fails: a run whose bold property carries the value
    false is marked bold. *)
Lemma C4_counterexample :
  ~ bold_flags_follow boldUnlessFalse (boldValDocument "false").
Proof.
  intros H.
  set (pds := allParagraphData (boldValDocument "false")) in H.
  set (ps := getElementsByTagName (utf16 "w:p") (boldValDocument "false")) in H.
  vm_compute in pds, ps. subst pds ps.
  destruct (H _ (or_introl eq_refl)) as (p & [<-|[]] & Heq).
  vm_compute in Heq. discriminate Heq.
Qed.

(** * Further properties of the parser *)

(** ** Question types and answers *)

Lemma addOptions_extends line runs ms opts :
  exists new, addOptions line runs ms opts = opts ++ new.
Proof.
  revert opts. induction ms as [|m ms IH]; intros opts; simpl.
  - exists []. by rewrite app_nil_r.
  - case_match; [apply IH|].
    match goal with
    | |- exists new, addOptions _ _ _ (opts ++ [?o]) = _ =>
        destruct (IH (opts ++ [o])) as [new Hnew]
    end.
    eexists. rewrite Hnew, <- app_assoc. reflexivity.
Qed.

Lemma extract_options pData q :
  exists new,
    Permutation (options (extractOptionsWithUnderline pData q)) (options q ++ new).
Proof.
  unfold extractOptionsWithUnderline. case_bool_decide.
  - exists []. by rewrite app_nil_r.
  - destruct (addOptions_extends (pd_text pData) (pd_runs pData)
                (optionMatches (pd_text pData)) (options q)) as [new Hnew].
    exists new. cbv zeta. cbn [options set_options set_type type].
    rewrite <- Hnew.
    case_match; cbn [options set_options set_type type]; apply js_sort_perm.
Qed.

Lemma extract_options_length pData q :
  length (options q) <= length (options (extractOptionsWithUnderline pData q)).
Proof.
  destruct (extract_options pData q) as [new Hnew].
  rewrite (Permutation_length Hnew), length_app. lia.
Qed.

Lemma extract_type pData q :
  type (extractOptionsWithUnderline pData q) = type q
  \/ (type (extractOptionsWithUnderline pData q) = multiple_choice
      /\ type q <> writing
      /\ 2 <= length (options (extractOptionsWithUnderline pData q))).
Proof.
  unfold extractOptionsWithUnderline. case_bool_decide; [by left|].
  cbv zeta. cbn [options set_options set_type type].
  destruct ((2 <=? length _) && negb (bool_decide (type q = writing))) eqn:Hc;
    cbn [options set_options set_type type]; [|by left].
  right. apply andb_true_iff in Hc as [Hlen Hw].
  apply Nat.leb_le in Hlen. apply negb_true_iff, bool_decide_eq_false in Hw.
  split; [done|]. split; [done|].
  by rewrite (Permutation_length (js_sort_perm _ _)).
Qed.

Lemma extract_choiceHasOptions pData q :
  choiceHasOptions q -> choiceHasOptions (extractOptionsWithUnderline pData q).
Proof.
  intros Hq Hmc. destruct (extract_type pData q) as [Ht|(_ & _ & Hlen)]; [|done].
  rewrite Ht in Hmc. specialize (Hq Hmc).
  pose proof (extract_options_length pData q). lia.
Qed.

Lemma finalize_typeResolved q : choiceHasOptions q -> typeResolved (finalize q).
Proof.
  intros Hq. unfold finalize, typeResolved. case_bool_decide as Ht.
  - cbn [options set_options set_type type].
    destruct (Nat.leb_spec 2 (length (options q))); split; try done.
  - split; [done|]. apply Hq.
Qed.

Lemma pushedQuestions_choiceHasOptions paragraphs :
  Forall choiceHasOptions (pushedQuestions paragraphs).
Proof.
  apply pushedQuestions_hold; unfold choiceHasOptions; try done.
  - apply extract_choiceHasOptions.
  - intros q Hq. apply (finalize_typeResolved q Hq).
Qed.

Lemma step_pushed st p :
  pushed (step st p) = pushed st \/ pushed (step st p) = pushCurrent st.
Proof. unfold step. repeat case_match; simpl; auto. Qed.

Lemma runLoop_pushed_resolved paragraphs st :
  holds_in_context choiceHasOptions st ->
  Forall typeResolved (pushed st) ->
  Forall typeResolved (pushed (runLoop paragraphs st)).
Proof.
  revert st. induction paragraphs as [|p ps IH]; intros st Hst Hres; [done|].
  simpl. apply IH.
  - apply step_holds; unfold choiceHasOptions; try done.
    + apply extract_choiceHasOptions.
    + intros q Hq. apply (finalize_typeResolved q Hq).
  - destruct (step_pushed st p) as [->| ->]; [done|].
    unfold pushCurrent. destruct Hst as [_ Hc].
    destruct (currentQuestion st) as [q|]; [|done].
    apply Forall_app. split; [done|]. constructor; [|done].
    by apply finalize_typeResolved.
Qed.

Lemma pushedQuestions_resolved paragraphs :
  Forall typeResolved (pushedQuestions paragraphs).
Proof.
  unfold pushedQuestions.
  assert (Hinit : holds_in_context choiceHasOptions initialContext)
    by (split; [constructor|done]).
  pose proof (runLoop_holds choiceHasOptions) as Hloop.
  assert (Hst : holds_in_context choiceHasOptions
                  (runLoop paragraphs initialContext)).
  { apply Hloop; unfold choiceHasOptions; try done.
    - apply extract_choiceHasOptions.
    - intros q Hq. apply (finalize_typeResolved q Hq). }
  pose proof (runLoop_pushed_resolved paragraphs initialContext Hinit
                (Forall_nil_2 _)) as Hres.
  unfold pushCurrent. destruct Hst as [_ Hc].
  destruct (currentQuestion _) as [q|]; [|done].
  apply Forall_app. split; [done|]. constructor; [|done].
  by apply finalize_typeResolved.
Qed.

(** X1: every question a parse returns has its type resolved to
    multiple-choice or free-response, and a multiple-choice question
    has at least two options. *)
Theorem X1_types_resolved (paragraphs : list ParagraphData) (q : Question) :
  In q (parseQuestionsFromParagraphs paragraphs).1.2 ->
  type q <> unknown
  /\ (type q = multiple_choice -> 2 <= length (options q)).
Proof.
  intros (q0 & <- & Hin)%In_parse_questions%in_map_iff.
  pose proof (pushedQuestions_resolved paragraphs) as Hall.
  rewrite List.Forall_forall in Hall. specialize (Hall q0 Hin).
  by rewrite markQuestion_type, markQuestion_options.
Qed.

Lemma X1_witness :
  type choiceQuestion <> unknown
  /\ (type choiceQuestion = multiple_choice -> 2 <= length (options choiceQuestion)).
Proof.
  apply (X1_types_resolved (take 2 scenarioParagraphs)).
  vm_compute. left. reflexivity.
Defined.

(** X2: the correct answer of a multiple-choice question of a parse
    result is the letter of its first highlighted option, or null when
    no option is highlighted; in the first case the answers mapping has
    an entry for the number of the question. *)
Theorem X2_choice_answer (paragraphs : list ParagraphData) (q : Question) :
  In q (parseQuestionsFromParagraphs paragraphs).1.2 ->
  type q = multiple_choice ->
  correctAnswer q = letter <$> List.find isCorrect (options q)
  /\ (is_Some (List.find isCorrect (options q)) ->
      is_Some ((parseQuestionsFromParagraphs paragraphs).2 !! number q)).
Proof.
  intros (q0 & <- & Hin)%In_parse_questions%in_map_iff Hmc.
  rewrite markQuestion_type in Hmc.
  rewrite markQuestion_options, markQuestion_number. split.
  - unfold markQuestion. rewrite bool_decide_eq_true_2 by done.
    destruct (List.find isCorrect (options q0)) eqn:Hf; [done|]. simpl.
    pose proof (pushedQuestions_answered_is_writing paragraphs) as Hall.
    rewrite List.Forall_forall in Hall. specialize (Hall q0 Hin).
    destruct (correctAnswer q0) eqn:Ha; [|done].
    unfold answered_is_writing in Hall. rewrite Ha in Hall.
    specialize (Hall (mk_is_Some _ _ eq_refl)). congruence.
  - intros Hf. rewrite parse_answers. apply markAnswers_snd.
    exists q0. done.
Qed.

Lemma X2_witness :
  correctAnswer choiceQuestion
  = letter <$> List.find isCorrect (options choiceQuestion)
  /\ (is_Some (List.find isCorrect (options choiceQuestion)) ->
      is_Some ((parseQuestionsFromParagraphs (take 2 scenarioParagraphs)).2
               !! number choiceQuestion)).
Proof.
  apply (X2_choice_answer (take 2 scenarioParagraphs)).
  - vm_compute. left. reflexivity.
  - reflexivity.
Defined.

(** ** What the option extractor changes *)

(** X3: the option extractor changes nothing of a question but its
    options and its type: the options it finds are added to those
    present, none of which is dropped or altered, and the type either
    stays or becomes multiple-choice, the latter only for a question
    that is not free-response and now has at least two options. *)
Theorem X3_extract_frame (pData : ParagraphData) (q : Question) :
  let q' := extractOptionsWithUnderline pData q in
  number q' = number q /\ section q' = section q /\ part q' = part q
  /\ q_text q' = q_text q /\ correctAnswer q' = correctAnswer q
  /\ passage q' = passage q
  /\ (exists new, Permutation (options q') (options q ++ new))
  /\ (type q' = type q
      \/ (type q' = multiple_choice /\ type q <> writing
          /\ 2 <= length (options q'))).
Proof.
  simpl. repeat split.
  - apply extract_number.
  - unfold extractOptionsWithUnderline. by repeat case_match.
  - unfold extractOptionsWithUnderline. by repeat case_match.
  - unfold extractOptionsWithUnderline. by repeat case_match.
  - apply extract_correctAnswer.
  - apply extract_passage.
  - apply extract_options.
  - apply extract_type.
Qed.

(** ** Option texts *)

Lemma trimStart_headNotSpace s : headNotSpace (trimStart s).
Proof.
  induction s as [|c s IH]; simpl; [done|].
  destruct (isSpace c) eqn:Hc; [done|]. simpl. done.
Qed.

Lemma trimStart_id s : headNotSpace s -> trimStart s = s.
Proof. destruct s as [|c s]; simpl; [done|]. by intros ->. Qed.

Lemma trimStart_idem s : trimStart (trimStart s) = trimStart s.
Proof. apply trimStart_id, trimStart_headNotSpace. Qed.

Lemma trimEnd_idem s : trimEnd (trimEnd s) = trimEnd s.
Proof. unfold trimEnd. by rewrite rev_involutive, trimStart_idem. Qed.

Lemma trimEnd_headNotSpace s : headNotSpace s -> headNotSpace (trimEnd s).
Proof.
  intros Hs. destruct (trimEnd_split s) as (ws & _ & Heq).
  destruct (trimEnd s) as [|c t] eqn:Ht; [done|].
  rewrite Heq in Hs. exact Hs.
Qed.

Lemma trim_idem s : trim (trim s) = trim s.
Proof.
  unfold trim.
  rewrite (trimStart_id (trimEnd (trimStart s)))
    by apply trimEnd_headNotSpace, trimStart_headNotSpace.
  apply trimEnd_idem.
Qed.

Lemma addOptions_trimmed line runs ms opts :
  Forall optionTextTrimmed opts ->
  Forall optionTextTrimmed (addOptions line runs ms opts).
Proof.
  revert opts. induction ms as [|m ms IH]; intros opts Hopts; simpl; [done|].
  destruct (hasLetter (om_letter m) opts); simpl; [by apply IH|].
  case_bool_decide as Hne; [by apply IH|].
  apply IH, Forall_app. split; [done|]. constructor; [|done].
  split; [exact Hne|]. simpl. apply trim_idem.
Qed.

Lemma extract_trimmed pData q :
  Forall optionTextTrimmed (options q) ->
  Forall optionTextTrimmed (options (extractOptionsWithUnderline pData q)).
Proof.
  intros Hq. unfold extractOptionsWithUnderline. case_bool_decide; [done|].
  cbv zeta. cbn [options set_options set_type type].
  rewrite js_sort_perm.
  case_match; cbn [options set_options set_type type];
    by apply addOptions_trimmed.
Qed.

(** X4: in every question a parse returns, the text of every option is
    not empty and neither starts nor ends with white space. *)
Theorem X4_option_texts_trimmed
    (paragraphs : list ParagraphData) (q : Question) (o : QuestionOption) :
  In q (parseQuestionsFromParagraphs paragraphs).1.2 ->
  In o (options q) ->
  opt_text o <> [] /\ trim (opt_text o) = opt_text o.
Proof.
  intros (q0 & <- & Hin)%In_parse_questions%in_map_iff Ho.
  rewrite markQuestion_options in Ho.
  assert (Hall : Forall (fun q => Forall optionTextTrimmed (options q))
                   (pushedQuestions paragraphs)).
  { apply pushedQuestions_hold.
    - intros st num text. constructor.
    - intros pData q1. apply extract_trimmed.
    - intros q1 Hq1. unfold finalize. by case_match.
    - done.
    - done.
    - done. }
  rewrite List.Forall_forall in Hall. specialize (Hall q0 Hin).
  rewrite List.Forall_forall in Hall. exact (Hall o Ho).
Qed.

Lemma X4_witness :
  Forall (fun o => opt_text o <> [] /\ trim (opt_text o) = opt_text o)
    (options choiceQuestion).
Proof.
  apply List.Forall_forall. intros o Ho.
  apply (X4_option_texts_trimmed (take 2 scenarioParagraphs) choiceQuestion).
  - vm_compute. left. reflexivity.
  - exact Ho.
Defined.

(** ** Sections *)

Lemma group_questions qs :
  es_questions <$> groupQuestionsIntoSections qs
  = (fun k => withKey k qs) <$> firstSeenKeys qs.
Proof.
  unfold groupQuestionsIntoSections.
  rewrite sectionOfEntry_questions by apply buildSectionMap_nonempty.
  by rewrite buildSectionMap_spec, <- list_fmap_compose.
Qed.

Lemma withKey_nil k : withKey k [] = [].
Proof. done. Qed.

Lemma flat_map_ext_elem {A B} (f g : A -> list B) (l : list A) :
  (forall x, x ∈ l -> f x = g x) -> flat_map f l = flat_map g l.
Proof.
  induction l as [|x l IH]; intros H; simpl; [done|].
  rewrite (H x) by by left. f_equal. apply IH.
  intros y Hy. apply H. by right.
Qed.

Lemma flat_map_withKey_cons q l ks :
  NoDup ks -> sectionKey q ∈ ks ->
  Permutation (flat_map (fun k => withKey k (q :: l)) ks)
              (q :: flat_map (fun k => withKey k l) ks).
Proof.
  induction ks as [|k ks IH]; intros Hnd Hin.
  - by apply elem_of_nil in Hin.
  - apply NoDup_cons in Hnd as [Hk Hnd]. cbn [flat_map].
    destruct (decide (sectionKey q = k)) as [<-|Hne].
    + rewrite withKey_cons_eq. simpl. constructor.
      apply Permutation_app_head.
      assert (Heq : flat_map (fun k => withKey k (q :: l)) ks
                    = flat_map (fun k => withKey k l) ks); [|by rewrite Heq].
      apply flat_map_ext_elem. intros k' Hk'. apply withKey_cons_ne.
      intros Heq. apply Hk. by rewrite Heq.
    + rewrite withKey_cons_ne by done.
      apply elem_of_cons in Hin as [?|Hin]; [done|].
      rewrite (IH Hnd Hin). symmetry. apply Permutation_middle.
Qed.

Lemma flat_map_withKey ks l :
  NoDup ks -> (forall q, In q l -> sectionKey q ∈ ks) ->
  Permutation (flat_map (fun k => withKey k l) ks) l.
Proof.
  intros Hnd. induction l as [|q l IH]; intros Hkeys.
  - clear. induction ks as [|k ks IH]; [done|]. exact IH.
  - rewrite flat_map_withKey_cons; [|done|apply Hkeys; by left].
    constructor. apply IH. intros q' Hq'. apply Hkeys. by right.
Qed.

(** X5: the sections divide the question list: every question stands
    in exactly one section (the questions of the sections, put end to
    end, are a rearrangement of the list), and no section is empty. *)
Theorem X5_sections_partition (qs : list Question) :
  Permutation (flat_map es_questions (groupQuestionsIntoSections qs)) qs
  /\ Forall (fun s => es_questions s <> []) (groupQuestionsIntoSections qs).
Proof.
  split.
  - rewrite flat_map_concat_map.
    change (map es_questions (groupQuestionsIntoSections qs))
      with (es_questions <$> groupQuestionsIntoSections qs).
    rewrite group_questions.
    change ((fun k => withKey k qs) <$> firstSeenKeys qs)
      with (map (fun k => withKey k qs) (firstSeenKeys qs)).
    rewrite <- flat_map_concat_map.
    apply flat_map_withKey; [apply firstSeenFrom_NoDup|].
    intros q Hq. apply firstSeenKeys_elem. by exists q.
  - apply List.Forall_forall. intros s Hs.
    assert (Hin : In (es_questions s)
                    (es_questions <$> groupQuestionsIntoSections qs))
      by by apply in_map.
    rewrite group_questions in Hin.
    apply in_map_iff in Hin as (k & <- & Hk).
    by apply withKey_nonempty, list_elem_of_In.
Qed.

Lemma firstSeenFrom_default seen ks k :
  k ∉ seen -> ks <> [] -> Forall (fun k' => k' = k) ks ->
  firstSeenFrom seen ks = [k].
Proof.
  intros Hseen Hne Hall. destruct Hall as [|k0 ks -> Hall]; [done|].
  simpl. rewrite bool_decide_eq_false_2 by done. f_equal.
  clear Hne. induction Hall as [|k1 ks -> _ IH]; [done|].
  simpl. rewrite bool_decide_eq_true_2; [done|].
  apply elem_of_app. right. by left.
Qed.

Lemma withKey_all k qs :
  Forall (fun q => sectionKey q = k) qs -> withKey k qs = qs.
Proof.
  induction 1 as [|q qs Hq _ IH]; [done|].
  rewrite <- Hq at 1. rewrite withKey_cons_eq, Hq. by f_equal.
Qed.

Lemma group_unsectioned firstQ qs :
  Forall unsectioned (firstQ :: qs) ->
  groupQuestionsIntoSections (firstQ :: qs)
  = [defaultSection firstQ (firstQ :: qs)].
Proof.
  intros Hall.
  assert (Hkeys : Forall (fun q => sectionKey q = utf16 "default") (firstQ :: qs)).
  { eapply Forall_impl; [exact Hall|]. intros q Hq.
    unfold sectionKey. by rewrite Hq. }
  unfold groupQuestionsIntoSections. rewrite buildSectionMap_spec.
  unfold firstSeenKeys.
  rewrite (firstSeenFrom_default [] _ (utf16 "default")).
  - simpl. rewrite app_nil_r. unfold sectionOfEntry. simpl.
    rewrite (withKey_all _ _ Hkeys). unfold defaultSection.
    apply Forall_cons in Hall as [Hq _]. unfold unsectioned in Hq.
    by rewrite Hq.
  - by intros ?%elem_of_nil.
  - done.
  - by apply Forall_fmap.
Qed.

Lemma step_unsectioned st p :
  sectionHeaderLine p = false ->
  currentSection st = None -> holds_in_context unsectioned st ->
  currentSection (step st p) = None /\ holds_in_context unsectioned (step st p).
Proof.
  intros Hh Hsec Hst.
  assert (Hpush : Forall unsectioned (pushCurrent st)).
  { destruct Hst as [Hp Hc]. unfold pushCurrent.
    destruct (currentQuestion st) as [q|]; [|done].
    apply Forall_app. split; [done|]. constructor; [|done].
    unfold finalize. by case_match. }
  assert (Hext : forall pData q, unsectioned q ->
                   unsectioned (extractOptionsWithUnderline pData q)).
  { intros pData q Hq. unfold unsectioned, extractOptionsWithUnderline.
    by repeat case_match. }
  destruct Hst as [Hp Hc]. unfold sectionHeaderLine in Hh. unfold step. cbv zeta.
  case_bool_decide as He; [done|]. simpl in Hh.
  destruct (regex_match sectionRegex _).
  { by rewrite bool_decide_eq_true_2 in Hh by eauto. }
  repeat case_match; subst; simpl; try done.
  all: split; [done|]; split; simpl; try done.
  all: try (apply Hext; done).
  all: simplify_eq/=; auto.
Qed.

Lemma runLoop_unsectioned paragraphs st :
  forallb (fun p => negb (sectionHeaderLine p)) paragraphs = true ->
  currentSection st = None -> holds_in_context unsectioned st ->
  holds_in_context unsectioned (runLoop paragraphs st).
Proof.
  revert st. induction paragraphs as [|p ps IH]; intros st Hps Hsec Hst; [done|].
  simpl in Hps. apply andb_true_iff in Hps as [Hp Hps].
  apply negb_true_iff in Hp.
  destruct (step_unsectioned st p Hp Hsec Hst) as [Hsec' Hst'].
  simpl. by apply IH.
Qed.

(** X6: when no paragraph is a section header, the questions of the
    parse result carry no section and the exam has no section at all if
    it has no question, and otherwise the single section named
    Tất cả câu hỏi, which holds every question and takes its description
    and reading passage from the first one. *)
Theorem X6_default_section (paragraphs : list ParagraphData) :
  forallb (fun p => negb (sectionHeaderLine p)) paragraphs = true ->
  (parseQuestionsFromParagraphs paragraphs).1.1
  = match (parseQuestionsFromParagraphs paragraphs).1.2 with
    | [] => []
    | firstQ :: _ =>
        [defaultSection firstQ (parseQuestionsFromParagraphs paragraphs).1.2]
    end.
Proof.
  intros Hps.
  change (parseQuestionsFromParagraphs paragraphs).1.1
    with (groupQuestionsIntoSections (parseQuestionsFromParagraphs paragraphs).1.2).
  assert (Hall : Forall unsectioned (parseQuestionsFromParagraphs paragraphs).1.2).
  { apply List.Forall_forall.
    intros q (q0 & <- & Hin)%In_parse_questions%in_map_iff.
    assert (Hst : holds_in_context unsectioned
                    (runLoop paragraphs initialContext)).
    { apply runLoop_unsectioned; [done|done|]. split; [constructor|done]. }
    assert (Hpush : Forall unsectioned (pushedQuestions paragraphs)).
    { unfold pushedQuestions, pushCurrent. destruct Hst as [Hp Hc].
      destruct (currentQuestion _) as [q|]; [|done].
      apply Forall_app. split; [done|]. constructor; [|done].
      unfold finalize. by case_match. }
    rewrite List.Forall_forall in Hpush. specialize (Hpush q0 Hin).
    unfold unsectioned, markQuestion in *. by repeat case_match. }
  destruct (parseQuestionsFromParagraphs paragraphs).1.2 as [|firstQ qs]; [done|].
  by apply group_unsectioned.
Qed.

Lemma X6_witness :
  (parseQuestionsFromParagraphs unsectionedExam).1.1
  = match (parseQuestionsFromParagraphs unsectionedExam).1.2 with
    | [] => []
    | firstQ :: _ =>
        [defaultSection firstQ (parseQuestionsFromParagraphs unsectionedExam).1.2]
    end.
Proof. apply X6_default_section. vm_compute. reflexivity. Defined.

Example unsectionedExam_sections :
  es_name <$> (parseQuestionsFromParagraphs unsectionedExam).1.1
  = [utf16 "Tất cả câu hỏi"]
  /\ length (parseQuestionsFromParagraphs unsectionedExam).1.2 = 2.
Proof. vm_compute. split; reflexivity. Qed.

(** ** The offsets of the runs *)

Lemma paragraphRunsFrom_contiguous runs pos :
  contiguousFrom pos (paragraphRunsFrom runs pos).
Proof.
  revert pos. induction runs as [|run runs IH]; intros pos; simpl; [done|].
  case_bool_decide as Ht; [apply IH|]. simpl. repeat split; [done|]. apply IH.
Qed.

(** X7: the runs of every extracted paragraph lie end to end from
    offset 0: each starts where the one before ends, ends after as many
    code units as its text holds and is not empty; the text of the
    paragraph is the run texts put end to end, and it is not blank. *)
Theorem X7_runs_contiguous (xmlDoc : Document) (pd : ParagraphData) :
  In pd (allParagraphData xmlDoc) ->
  contiguousFrom 0 (pd_runs pd)
  /\ pd_text pd = flat_map run_text (pd_runs pd)
  /\ trim (pd_text pd) <> [].
Proof.
  unfold allParagraphData. intros (p & _ & Hpd)%in_flat_map.
  unfold paragraphDataOf in Hpd. case_bool_decide as Hblank; [done|].
  destruct Hpd as [<-|[]]. simpl.
  split; [apply paragraphRunsFrom_contiguous|done].
Qed.

Lemma X7_witness :
  contiguousFrom 0 (pd_runs emptyRunParagraph)
  /\ pd_text emptyRunParagraph = flat_map run_text (pd_runs emptyRunParagraph)
  /\ trim (pd_text emptyRunParagraph) <> [].
Proof.
  apply (X7_runs_contiguous emptyRunDocument). vm_compute. left. reflexivity.
Defined.

Example emptyRunParagraph_offsets :
  (fun r => (run_start r, run_end r)) <$> pd_runs emptyRunParagraph
  = [(0, 7); (7, 10)]%Z.
Proof. vm_compute. reflexivity. Qed.

Lemma segment_app (t u : str) a b :
  segment (t ++ u) a b
  = segment t a b ++ segment u (a - length t) (b - length t).
Proof.
  unfold segment. rewrite drop_app, take_app, length_drop.
  f_equal. f_equal. lia.
Qed.

Lemma take_same_min {A} (l : list A) n m :
  n `min` length l = m `min` length l -> take n l = take m l.
Proof.
  intros H. rewrite (take_min_length l n), (take_min_length l m). by rewrite H.
Qed.

Lemma textPortion_segment run from s e :
  run_start run = from ->
  run_end run = (from + Z.of_nat (length (run_text run)))%Z ->
  textPortion run s e
  = segment (run_text run) (Z.to_nat (s - from)) (Z.to_nat (e - from)).
Proof.
  intros Hstart Hend. unfold textPortion, segment. rewrite Hstart, Hend.
  set (t := run_text run). set (n := length t).
  destruct (Z.leb_spec (from + Z.of_nat n) s) as [Hs|Hs]; simpl.
  { rewrite drop_ge by (fold n; lia). by rewrite take_nil. }
  destruct (Z.leb_spec e from) as [He|He]; simpl.
  { replace (Z.to_nat (e - from)) with 0 by lia. done. }
  unfold substr. fold n.
  assert (Hoff : (0 <= Z.max from s - from)%Z) by lia.
  destruct (Z.ltb_spec (Z.max from s - from) 0) as [?|_]; [lia|].
  replace (Z.to_nat (Z.min (Z.max from s - from) (Z.of_nat n)))
    with (Z.to_nat (s - from)) by lia.
  apply take_same_min. rewrite length_drop. fold n. lia.
Qed.

Lemma plainRange_segment runs from s e :
  contiguousFrom from runs ->
  plainRange runs s e
  = segment (flat_map run_text runs) (Z.to_nat (s - from)) (Z.to_nat (e - from)).
Proof.
  revert from. induction runs as [|run runs IH]; intros from Hruns.
  - unfold segment. simpl. by rewrite drop_nil, take_nil.
  - destruct Hruns as (Hstart & _ & Hend & Hruns).
    unfold plainRange in *. cbn [flat_map].
    rewrite (textPortion_segment run from) by done.
    rewrite (IH _ Hruns), segment_app. f_equal. rewrite Hend. f_equal; lia.
Qed.

Lemma slice_segment (l : str) (s e : Z) :
  (0 <= s)%Z -> (0 <= e)%Z ->
  slice l s e = segment l (Z.to_nat s) (Z.to_nat e).
Proof.
  intros Hs He. unfold slice, segment.
  destruct (Z.ltb_spec s 0) as [?|_]; [lia|].
  destruct (Z.ltb_spec e 0) as [?|_]; [lia|].
  destruct (Z.le_gt_cases (Z.of_nat (length l)) s) as [Hlen|Hlen].
  - rewrite !drop_ge by lia. by rewrite !take_nil.
  - replace (Z.to_nat (Z.min s (Z.of_nat (length l)))) with (Z.to_nat s) by lia.
    apply take_same_min. rewrite length_drop. lia.
Qed.

(** X8: for runs that lie end to end from offset 0, as the extracted
    ones do, the portions of text the formatted-text builder takes from
    the runs for an offset range make up the substring of the paragraph
    text that [slice] gives for the range. *)
Theorem X8_plain_range_is_slice
    (runs : list ParagraphRun) (startPos endPos : Z) :
  contiguousFrom 0 runs -> (0 <= startPos)%Z -> (0 <= endPos)%Z ->
  plainRange runs startPos endPos
  = slice (flat_map run_text runs) startPos endPos.
Proof.
  intros Hruns Hs He. rewrite (plainRange_segment runs 0) by done.
  rewrite slice_segment by done. by rewrite !Z.sub_0_r.
Qed.

Lemma X8_witness :
  plainRange (pd_runs emptyRunParagraph) 7 9
  = slice (flat_map run_text (pd_runs emptyRunParagraph)) 7 9.
Proof.
  apply X8_plain_range_is_slice.
  - vm_compute. repeat split; discriminate.
  - lia.
  - lia.
Defined.

(** ** escapeHtml *)

Lemma escapeUnit_no_bracket c :
  forallb (fun x => negb (isBracketUnit x)) (escapeUnit c) = true.
Proof.
  unfold escapeUnit.
  destruct (c =? 38)%N eqn:H1; [by vm_compute|].
  destruct (c =? 160)%N eqn:H2; [by vm_compute|].
  destruct (c =? 60)%N eqn:H3; [by vm_compute|].
  destruct (c =? 62)%N eqn:H4; [by vm_compute|].
  simpl. unfold isBracketUnit. by rewrite H2, H3, H4.
Qed.

Lemma escapeHtml_no_bracket text :
  forallb (fun c => negb (isBracketUnit c)) (escapeHtml text) = true.
Proof.
  unfold escapeHtml. induction text as [|c text IH]; [done|].
  cbn [flat_map]. rewrite forallb_app, IH, escapeUnit_no_bracket. done.
Qed.

Lemma escapeHtml_plain text :
  forallb (fun c => negb (isMarkupUnit c)) text = true ->
  escapeHtml text = text.
Proof.
  unfold escapeHtml. induction text as [|c text IH]; [done|].
  cbn [flat_map forallb]. intros [Hc Ht]%andb_true_iff.
  rewrite (IH Ht). unfold isMarkupUnit in Hc.
  apply negb_true_iff in Hc.
  apply orb_false_iff in Hc as [Hc H4]. apply orb_false_iff in Hc as [Hc H3].
  apply orb_false_iff in Hc as [H1 H2].
  unfold escapeUnit. by rewrite H1, H2, H3, H4.
Qed.

(** X9: the text escapeHtml returns holds no angle bracket and no
    no-break space, so nothing in it can open or close a tag; a text
    free of the ampersand, the no-break space and the angle brackets is
    returned as it is. *)
Theorem X9_escapeHtml_safe (text : str) :
  forallb (fun c => negb (isBracketUnit c)) (escapeHtml text) = true
  /\ (forallb (fun c => negb (isMarkupUnit c)) text = true ->
      escapeHtml text = text).
Proof. split; [apply escapeHtml_no_bracket|apply escapeHtml_plain]. Qed.

Lemma X9_witness : escapeHtml (utf16 "cat") = utf16 "cat".
Proof. apply (X9_escapeHtml_safe (utf16 "cat")). vm_compute. reflexivity. Defined.

Example escapeHtml_markup :
  escapeHtml (utf16 "a<b & c>") = utf16 "a&lt;b &amp; c&gt;".
Proof. vm_compute. reflexivity. Qed.

(** ** The shape of the formatted text *)

Lemma collapseFrom_collapseFrom b c s :
  (c = true -> b = true) ->
  collapseFrom isSpace c (collapseFrom isSpace b s) = collapseFrom isSpace b s.
Proof.
  revert b c. induction s as [|x s IH]; intros b c Hcb; [done|].
  simpl. destruct (isSpace x) eqn:Hx.
  - destruct b; [by apply IH|].
    destruct c; [by specialize (Hcb eq_refl)|].
    simpl.
    f_equal. by apply IH.
  - simpl. rewrite Hx. f_equal. by apply IH.
Qed.

Lemma trim_split s :
  exists ws1 ws2, allSpaces ws1 /\ allSpaces ws2 /\ s = ws1 ++ trim s ++ ws2.
Proof.
  destruct (trimStart_split s) as (ws1 & H1 & E1).
  destruct (trimEnd_split (trimStart s)) as (ws2 & H2 & E2).
  exists ws1, ws2. split; [done|]. split; [done|].
  unfold trim. by rewrite <- E2.
Qed.

Lemma normalize_trim s : normalize (trim s) = normalize s.
Proof.
  destruct (trim_split s) as (ws1 & ws2 & H1 & H2 & Heq).
  rewrite Heq at 2. rewrite normalize_spaces_l by done.
  by rewrite normalize_spaces_r.
Qed.

Lemma normalize_idem s : normalize (normalize s) = normalize s.
Proof.
  unfold normalize at 2. rewrite normalize_trim.
  unfold normalize, collapse. by rewrite collapseFrom_collapseFrom.
Qed.

(** X10: the formatted text of an option is in the form its last
    statement gives it: cleaning it again changes nothing, so it holds
    no run of white space but single spaces and neither starts nor ends
    with white space. *)
Theorem X10_formatted_text_clean
    (runs : list ParagraphRun) (startPos endPos : Z) :
  let result := buildFormattedText runs startPos endPos in
  trim (collapse isSpace result) = result /\ trim result = result.
Proof.
  simpl. unfold buildFormattedText.
  fold (normalize (formattedRuns runs startPos endPos)). split.
  - apply normalize_idem.
  - unfold normalize. apply trim_idem.
Qed.

Lemma collapse_tabs_then_spaces b c s :
  (b = true -> c = true) ->
  collapseFrom isSpace c (collapseFrom (fun x => (x =? 9)%N) b s)
  = collapseFrom isSpace c s.
Proof.
  revert b c. induction s as [|x s IH]; intros b c Hbc; [done|].
  simpl. destruct (x =? 9)%N eqn:Htab.
  - apply N.eqb_eq in Htab. subst x.
    assert (Hsp : isSpace 9 = true) by done. rewrite Hsp.
    destruct b.
    + rewrite (Hbc eq_refl). by apply IH.
    + simpl. destruct c; rewrite IH; done.
  - simpl. destruct (isSpace x); [destruct c|]; rewrite IH; done.
Qed.

Lemma optionText_normalize s :
  trim (collapse isSpace (collapse (fun x => (x =? 9)%N) (trim s)))
  = normalize s.
Proof.
  unfold collapse. rewrite collapse_tabs_then_spaces by done.
  apply normalize_trim.
Qed.

Lemma formattedRuns_unformatted runs startPos endPos :
  forallb unformatted runs = true ->
  formattedRuns runs startPos endPos
  = escapeHtml (plainRange runs startPos endPos).
Proof.
  unfold plainRange. induction runs as [|run runs IH]; [done|].
  cbn [forallb formattedRuns flat_map]. intros [Hrun Hruns]%andb_true_iff.
  unfold escapeHtml at 2. rewrite flat_map_app.
  fold (escapeHtml (textPortion run startPos endPos)).
  fold (escapeHtml (flat_map (fun run => textPortion run startPos endPos) runs)).
  rewrite (IH Hruns). f_equal.
  case_bool_decide as Hp; [by rewrite Hp|].
  unfold unformatted in Hrun. apply andb_true_iff in Hrun as [Hu Hb].
  apply negb_true_iff in Hu, Hb. unfold applyFormatting. by rewrite Hu, Hb.
Qed.

Lemma forallb_slice (P : N -> bool) (l : str) a b :
  forallb P l = true -> forallb P (slice l a b) = true.
Proof.
  intros Hl. apply forallb_forall. intros x Hx.
  rewrite forallb_forall in Hl. apply Hl. unfold slice in Hx.
  apply list_elem_of_In. apply list_elem_of_In in Hx.
  eapply subseteq_drop, subseteq_take, Hx.
Qed.

Lemma optionMatches_nonneg line :
  Forall (fun m => (0 <= matchStart m)%Z /\ (0 <= contentStart m)%Z)
    (optionMatches line).
Proof.
  unfold optionMatches. destruct (exec_all _ _ _ _) as [ms|]; [|done].
  apply Forall_fmap, Forall_forall. intros m _. simpl. lia.
Qed.

Lemma addOptions_unformatted line runs ms opts o :
  contiguousFrom 0 runs -> line = flat_map run_text runs ->
  forallb unformatted runs = true ->
  forallb (fun c => negb (isMarkupUnit c)) line = true ->
  Forall (fun m => (0 <= matchStart m)%Z /\ (0 <= contentStart m)%Z) ms ->
  In o (addOptions line runs ms opts) ->
  In o opts \/ textWithUnderline o = opt_text o.
Proof.
  intros Hcont Hline Hplain Hsafe. revert opts.
  induction ms as [|m ms IH]; intros opts Hms Ho; [by left|].
  apply Forall_cons in Hms as [[Hm1 Hm2] Hms]. simpl in Ho.
  destruct (hasLetter _ _ || bool_decide _); [by apply IH|].
  apply IH in Ho; [|done]. destruct Ho as [Ho|Ho]; [|by right].
  apply in_app_or in Ho as [Ho|[<-|[]]]; [by left|]. right. simpl.
  set (nextStart := match ms with [] => _ | _ => _ end).
  assert (Hnext : (0 <= nextStart)%Z).
  { unfold nextStart. destruct Hms as [|m' ms' [? _] _]; lia. }
  unfold buildFormattedText.
  rewrite formattedRuns_unformatted by done.
  rewrite (plainRange_segment runs 0) by done.
  rewrite !Z.sub_0_r, <- slice_segment, <- Hline by done.
  rewrite escapeHtml_plain by by apply forallb_slice.
  by rewrite optionText_normalize.
Qed.

(** X11: on a paragraph whose runs lie end to end, none underlined or
    bold, and whose text holds no ampersand, no-break space or angle
    bracket, every option the extractor adds has a formatted text equal
    to its plain text. *)
Theorem X11_unformatted_option
    (pData : ParagraphData) (q : Question) (o : QuestionOption) :
  contiguousFrom 0 (pd_runs pData) ->
  pd_text pData = flat_map run_text (pd_runs pData) ->
  forallb unformatted (pd_runs pData) = true ->
  forallb (fun c => negb (isMarkupUnit c)) (pd_text pData) = true ->
  In o (options (extractOptionsWithUnderline pData q)) ->
  In o (options q) \/ textWithUnderline o = opt_text o.
Proof.
  intros Hcont Hline Hplain Hsafe Ho.
  assert (Hadd : forall opts : list QuestionOption,
            In o (js_sort compareLetters opts) -> In o opts).
  { intros opts. apply Permutation_in, js_sort_perm. }
  unfold extractOptionsWithUnderline in Ho.
  case_bool_decide; [by left|]. cbv zeta in Ho.
  cbn [options set_options set_type type] in Ho. apply Hadd in Ho.
  apply (addOptions_unformatted (pd_text pData) (pd_runs pData)
           (optionMatches (pd_text pData))); try done.
  - apply optionMatches_nonneg.
  - by destruct ((2 <=? _) && _).
Qed.

Lemma X11_witness :
  Forall (fun o => textWithUnderline o = opt_text o)
    (options (extractOptionsWithUnderline twoOptionLine
                (freshQuestion initialContext 1 []))).
Proof.
  apply List.Forall_forall. intros o Ho.
  destruct (X11_unformatted_option twoOptionLine
              (freshQuestion initialContext 1 []) o) as [[]|Heq].
  - vm_compute. repeat split; discriminate.
  - vm_compute. reflexivity.
  - vm_compute. reflexivity.
  - vm_compute. reflexivity.
  - exact Ho.
  - exact Heq.
Defined.

(** ** The scan for option markers *)

Lemma advances_refl s : advances s s.
Proof. exists []. split; [done|]. simpl. lia. Qed.

Lemma advances_trans s1 s2 s3 : advances s1 s2 -> advances s2 s3 -> advances s1 s3.
Proof.
  intros (r1 & E1 & P1) (r2 & E2 & P2). exists (r1 ++ r2).
  rewrite E1, E2, P2, P1, length_app, <- app_assoc. split; [done|lia].
Qed.

(** What a successful run of the matcher has done when it hands over to
    its continuation. *)
Lemma rmatch_sound r :
  forall k s x,
    rmatch r k s = Some x ->
    exists s', advances s s'
               /\ (groupless r = true -> m_caps s' = m_caps s)
               /\ k s' = Some x.
Proof.
  induction r as [p| |a IHa b IHb|a IHa b IHb|g a IHa|i a IHa| |];
    intros k s x H; cbn [rmatch] in H.
  - destruct (m_rest s) as [|c t] eqn:Hrest; [done|].
    destruct (p c); [|done].
    eexists. split; [|split; [|exact H]]; [|done].
    exists [c]. simpl. split; [done|lia].
  - exists s. split; [apply advances_refl|done].
  - apply IHa in H as (s1 & A1 & C1 & H). apply IHb in H as (s2 & A2 & C2 & H).
    exists s2. split; [by eapply advances_trans|]. split; [|done].
    simpl. intros [Ga Gb]%andb_true_iff. by rewrite C2, C1.
  - simpl. destruct (rmatch a k s) eqn:Ha.
    + injection H as ->. apply IHa in Ha as (s1 & A1 & C1 & H).
      exists s1. split; [done|]. split; [|done].
      by intros [Ga Gb]%andb_true_iff; auto.
    + apply IHb in H as (s1 & A1 & C1 & H).
      exists s1. split; [done|]. split; [|done].
      by intros [Ga Gb]%andb_true_iff; auto.
  - revert H. generalize (length (m_rest s)). intros fuel. revert s x.
    induction fuel as [|fuel IHf]; intros s x H.
    + exists s. split; [apply advances_refl|done].
    + assert (Hiter : forall y,
                rmatch a (fun s' => if m_pos s' =? m_pos s then None
                                    else (fix loop (fuel : nat) (s : mstate)
                                            {struct fuel} : option mstate :=
                                            match fuel with
                                            | 0 => k s
                                            | S fuel' =>
                                                if g
                                                then
                                                 match
                                                   rmatch a
                                                     (fun s' =>
                                                        if m_pos s' =? m_pos s
                                                        then None
                                                        else loop fuel' s') s
                                                 with
                                                 | Some x => Some x
                                                 | None => k s
                                                 end
                                                else
                                                 match k s with
                                                 | Some x => Some x
                                                 | None =>
                                                     rmatch a
                                                       (fun s' =>
                                                          if m_pos s' =? m_pos s
                                                          then None
                                                          else loop fuel' s') s
                                                 end
                                            end) fuel s') s = Some y ->
                exists s', advances s s'
                           /\ (groupless (RStar g a) = true -> m_caps s' = m_caps s)
                           /\ k s' = Some y).
      { intros y Hy. apply IHa in Hy as (s1 & A1 & C1 & Hy).
        destruct (m_pos s1 =? m_pos s); [done|].
        apply IHf in Hy as (s2 & A2 & C2 & Hy).
        exists s2. split; [by eapply advances_trans|]. split; [|done].
        simpl in *. intros G. by rewrite C2, C1. }
      destruct g.
      * destruct (rmatch a _ s) eqn:Hm.
        -- injection H as ->. by apply Hiter.
        -- exists s. split; [apply advances_refl|done].
      * destruct (k s) eqn:Hk.
        -- injection H as ->. exists s. split; [apply advances_refl|done].
        -- by apply Hiter.
  - apply IHa in H as (s1 & A1 & _ & H).
    eexists. split; [|split; [|exact H]]; [|done].
    destruct A1 as (read & E & P). exists read. done.
  - destruct (m_pos s =? 0); [|done].
    exists s. split; [apply advances_refl|done].
  - destruct (m_rest s); [|done].
    exists s. split; [apply advances_refl|done].
Qed.

Lemma search_from_found r rest :
  forall pos m,
    search_from r pos rest = Some m ->
    exists skipped rest' s',
      rest = skipped ++ rest'
      /\ index m = pos + length skipped
      /\ rmatch r Some (MState (index m) rest' []) = Some s'
      /\ matched m = take (m_pos s' - index m) rest'
      /\ groups m = m_caps s' /\ after m = m_rest s'.
Proof.
  induction rest as [|c rest IH]; intros pos m H; simpl in H.
  - destruct (rmatch r Some (MState pos [] [])) as [s'|] eqn:Hm; [|done].
    injection H as <-. exists [], [], s'. simpl.
    repeat split; try done; lia.
  - destruct (rmatch r Some (MState pos (c :: rest) [])) as [s'|] eqn:Hm.
    + injection H as <-. exists [], (c :: rest), s'. simpl.
      repeat split; try done; lia.
    + apply IH in H as (skipped & rest' & s' & E & I & Hm' & M & G & A).
      exists (c :: skipped), rest', s'. simpl. rewrite E.
      repeat split; try done; lia.
Qed.

Lemma optionRegex_match pos rest x :
  rmatch optionRegex Some (MState pos rest []) = Some x ->
  exists c d spaces,
    rest = c :: d :: spaces ++ m_rest x
    /\ inRange (unit_of "A") (unit_of "D") c = true
    /\ m_pos x = pos + 2 + length spaces
    /\ m_caps x = [(1, [c])].
Proof.
  unfold optionRegex, rseq. cbn [foldr rmatch m_rest m_pos m_caps].
  destruct rest as [|c rest]; [done|].
  destruct (inRange _ _ c) eqn:Hc; [|done].
  destruct rest as [|d rest]; [done|].
  destruct (_ || _); [|done].
  replace (S pos - pos) with 1 by lia. cbn [take].
  intros H.
  change (rmatch (RStar true rspace) (rmatch REmpty Some)
            (MState (S (S pos)) rest [(1, [c])]) = Some x) in H.
  apply rmatch_sound in H as (s' & (spaces & E & P) & C & H).
  simpl in H. injection H as <-. simpl in *.
  exists c, d, spaces. rewrite E, P, (C eq_refl). repeat split; try done; lia.
Qed.

Lemma optionLetter_upper c :
  inRange (unit_of "A") (unit_of "D") c = true ->
  isOptionLetter (toUpperCase [c]).
Proof.
  unfold inRange. intros [Hlo Hhi]%andb_true_iff.
  apply N.leb_le in Hlo, Hhi.
  change (unit_of "A") with 65%N in Hlo. change (unit_of "D") with 68%N in Hhi.
  assert (Hc : c = 65%N \/ c = 66%N \/ c = 67%N \/ c = 68%N) by lia.
  unfold isOptionLetter.
  destruct Hc as [-> | [-> | [-> | ->]]]; vm_compute; auto.
Qed.

Lemma exec_all_optionRegex fuel :
  forall pos rest,
    length rest <= fuel ->
    exists ms,
      exec_all fuel optionRegex pos rest = Some ms
      /\ wellSpaced (Z.of_nat pos) (Z.of_nat (pos + length rest))
           (optionMatch_of <$> ms).
Proof.
  induction fuel as [|fuel IH]; intros pos rest Hlen.
  - destruct rest; [|simpl in Hlen; lia].
    exists []. split; [|done]. simpl.
    destruct (rmatch optionRegex Some (MState pos [] [])) eqn:Hm; [|done].
    by apply optionRegex_match in Hm as (c & d & sp & ? & _).
  - cbn [exec_all].
    destruct (search_from optionRegex pos rest) as [m|] eqn:Hs.
    2:{ exists []. done. }
    apply search_from_found in Hs
      as (skipped & rest' & s' & E & I & Hm & M & G & A).
    apply optionRegex_match in Hm as (c & d & spaces & E' & Hc & P & C).
    assert (Hmatched : matched m = c :: d :: spaces).
    { rewrite M, P, E'.
      replace (index m + 2 + length spaces - index m) with (2 + length spaces) by lia.
      simpl. f_equal. f_equal. by rewrite take_app_length. }
    rewrite bool_decide_eq_false_2 by by rewrite Hmatched.
    destruct (IH (index m + length (matched m)) (after m)) as (ms & Hms & Hws).
    { rewrite A. rewrite E, E', !length_app in Hlen. simpl in Hlen.
      rewrite length_app in Hlen. lia. }
    exists (m :: ms). rewrite Hms. split; [done|].
    rewrite fmap_cons. cbn [wellSpaced optionMatch_of matchStart contentStart om_letter].
    assert (Htotal : pos + length rest
                     = index m + length (matched m) + length (after m)).
    { rewrite E, E', A, Hmatched, I, !length_app. simpl.
      rewrite length_app. lia. }
    rewrite Hmatched in *. simpl length in *.
    repeat split; try lia.
    + unfold group. rewrite G, C. simpl. by apply optionLetter_upper.
    + rewrite Htotal.
      replace (Z.of_nat (index m) + Z.of_nat (S (S (length spaces))))%Z
        with (Z.of_nat (index m + S (S (length spaces)))) by lia.
      exact Hws.
Qed.

Lemma optionMatches_total line :
  is_Some (exec_all (length line) optionRegex 0 line).
Proof.
  destruct (exec_all_optionRegex (length line) 0 line) as (ms & Hms & _);
    [done|].
  by eexists.
Qed.

(** X12: the loop that scans a line for option markers ends, whatever
    the line; the markers it collects lie one after the other within
    the line, each at least two code units long and none starting
    before the one before has ended, and each names A, B, C or D. *)
Theorem X12_option_scan (line : str) :
  is_Some (exec_all (length line) optionRegex 0 line)
  /\ wellSpaced 0 (Z.of_nat (length line)) (optionMatches line).
Proof.
  destruct (exec_all_optionRegex (length line) 0 line) as (ms & Hms & Hws);
    [done|].
  unfold optionMatches. rewrite Hms. split; [by eexists|]. exact Hws.
Qed.

Example optionMatches_sample :
  (fun m => (om_letter m, matchStart m, contentStart m))
    <$> optionMatches (utf16 "A. cat  B) dog")
  = [(utf16 "A", 0, 3); (utf16 "B", 8, 11)]%Z.
Proof. vm_compute. reflexivity. Qed.

Lemma wellSpaced_letters from len ms :
  wellSpaced from len ms -> Forall (fun m => isOptionLetter (om_letter m)) ms.
Proof.
  revert from. induction ms as [|m ms IH]; intros from H; [constructor|].
  destruct H as (_ & _ & _ & Hl & H). constructor; [done|]. by eapply IH.
Qed.

Lemma optionMatches_letters line :
  Forall (fun m => isOptionLetter (om_letter m)) (optionMatches line).
Proof.
  destruct (exec_all_optionRegex (length line) 0 line) as (ms & Hms & Hws);
    [done|].
  unfold optionMatches. rewrite Hms. by eapply wellSpaced_letters.
Qed.

Lemma addOptions_letters line runs ms opts :
  Forall (fun m => isOptionLetter (om_letter m)) ms ->
  Forall (fun o => isOptionLetter (letter o)) opts ->
  Forall (fun o => isOptionLetter (letter o)) (addOptions line runs ms opts).
Proof.
  intros Hms. revert opts. induction Hms as [|m ms Hm _ IH]; intros opts Hopts;
    simpl; [done|].
  destruct (_ || _); [by apply IH|].
  apply IH, Forall_app. split; [done|]. by constructor.
Qed.

Lemma extract_letters pData q :
  lettersOfOptions q -> lettersOfOptions (extractOptionsWithUnderline pData q).
Proof.
  unfold lettersOfOptions, extractOptionsWithUnderline. intros Hq.
  case_bool_decide; [done|]. cbv zeta. cbn [options set_options set_type type].
  rewrite js_sort_perm.
  case_match; cbn [options set_options set_type type];
    by apply addOptions_letters; [apply optionMatches_letters|].
Qed.

Lemma pushedQuestions_letters paragraphs :
  Forall lettersOfOptions (pushedQuestions paragraphs).
Proof.
  apply pushedQuestions_hold.
  - intros st num text. constructor.
  - apply extract_letters.
  - intros q Hq. unfold finalize. by case_match.
  - done.
  - done.
  - done.
Qed.

Lemma four_letters (l : list str) :
  NoDup l -> Forall isOptionLetter l -> length l <= 4.
Proof.
  intros Hnd Hall.
  change 4 with (length [utf16 "A"; utf16 "B"; utf16 "C"; utf16 "D"]).
  apply submseteq_length, NoDup_submseteq; [done|].
  intros x Hx. rewrite Forall_forall in Hall.
  destruct (Hall x Hx) as [-> | [-> | [-> | ->]]]; set_solver.
Qed.

(** X13: in every question a parse returns, the letter of every option
    is A, B, C or D, and there are at most four options. *)
Theorem X13_at_most_four_options
    (paragraphs : list ParagraphData) (q : Question) :
  In q (parseQuestionsFromParagraphs paragraphs).1.2 ->
  Forall (fun o => isOptionLetter (letter o)) (options q)
  /\ length (options q) <= 4.
Proof.
  intros (q0 & <- & Hin)%In_parse_questions%in_map_iff.
  rewrite markQuestion_options.
  pose proof (pushedQuestions_letters paragraphs) as Hletters.
  pose proof (pushedQuestions_ordered paragraphs) as Hord.
  rewrite List.Forall_forall in Hletters, Hord.
  specialize (Hletters q0 Hin). destruct (Hord q0 Hin) as [_ Hnd].
  split; [done|].
  rewrite <- (length_fmap letter). apply four_letters; [done|].
  by apply Forall_fmap.
Qed.

Lemma X13_witness :
  Forall (fun o => isOptionLetter (letter o)) (options choiceQuestion)
  /\ length (options choiceQuestion) <= 4.
Proof.
  apply (X13_at_most_four_options (take 2 scenarioParagraphs)).
  vm_compute. left. reflexivity.
Defined.

(** ** validateExamData *)

Arguments Utf8.decode : simpl never.

Lemma questionErrors_nil q : questionErrors q = [] <-> questionComplete q.
Proof.
  unfold questionErrors, questionComplete, truthy.
  destruct (bool_decide (q_text q = [])) eqn:Ht;
    destruct (bool_decide (length (options q) = 0)) eqn:Ho;
    destruct (bool_decide (type q = multiple_choice)) eqn:Hm;
    destruct (falsy (correctAnswer q)) eqn:Hf; simpl;
    try apply bool_decide_eq_true in Ht; try apply bool_decide_eq_false in Ht;
    try apply bool_decide_eq_true in Ho; try apply bool_decide_eq_false in Ho;
    try apply bool_decide_eq_true in Hm; try apply bool_decide_eq_false in Hm;
    try apply length_zero_iff_nil in Ho;
    (split; [try done|]).
  all: try (intros (H1 & H2 & H3); try done; try (by destruct H1);
            try (by specialize (H2 Hm))).
  all: try (intros _; repeat split; try done; auto).
  all: try (right; intros Hnil; apply Ho; by rewrite Hnil).
  all: try (intros _ Hnil; apply Ho; by rewrite Hnil).
Qed.

Lemma flat_map_nil {A B} (f : A -> list B) (l : list A) :
  flat_map f l = [] <-> Forall (fun x => f x = []) l.
Proof.
  induction l as [|x l IH]; simpl.
  - split; [constructor|done].
  - split.
    + intros [Hx Hl]%app_eq_nil. constructor; [done|]. by apply IH.
    + intros [Hx Hl]%Forall_cons. rewrite Hx. by apply IH.
Qed.

Lemma validate_valid data :
  valid (validateExamData data) = true
  <-> questions data <> [] /\ Forall questionComplete (questions data).
Proof.
  unfold validateExamData. cbn [valid]. rewrite bool_decide_eq_true.
  rewrite length_zero_iff_nil. split.
  - intros [H1 H2]%app_eq_nil. split.
    + case_bool_decide as Hq; [done|].
      intros Hnil. apply Hq. by rewrite Hnil.
    + apply flat_map_nil in H2. eapply Forall_impl; [exact H2|].
      intros q. apply questionErrors_nil.
  - intros [Hne Hall].
    rewrite bool_decide_eq_false_2.
    2:{ intros Hlen. by apply length_zero_iff_nil in Hlen. }
    simpl. apply flat_map_nil. eapply Forall_impl; [exact Hall|].
    intros q. apply questionErrors_nil.
Qed.

Lemma questionErrors_length q : length (questionErrors q) <= 3.
Proof.
  unfold questionErrors. rewrite !length_app.
  destruct (_ && _), (_ && _), (falsy _); cbn [length]; lia.
Qed.

Lemma flat_map_questionErrors_length qs :
  length (flat_map questionErrors qs) <= 3 * length qs.
Proof.
  induction qs as [|q qs IH]; [simpl; lia|].
  cbn [flat_map length]. rewrite length_app.
  pose proof (questionErrors_length q). lia.
Qed.

(** X15: the validator reports an exam valid exactly when it has at
    least one question and every question has a text or an option, has
    an option if it is multiple-choice, and has a correct answer that
    is neither null nor empty; it gives at most one message for the
    exam and three for each question. *)
Theorem X15_valid_iff (data : ExamData) :
  (valid (validateExamData data) = true
   <-> questions data <> [] /\ Forall questionComplete (questions data))
  /\ length (errors (validateExamData data)) <= 1 + 3 * length (questions data).
Proof.
  split; [apply validate_valid|].
  unfold validateExamData. cbn [errors]. rewrite length_app.
  pose proof (flat_map_questionErrors_length (questions data)) as H2.
  destruct (bool_decide (length (questions data) = 0)); cbn [length]; lia.
Qed.

Lemma X15_witness : valid (validateExamData choiceExam) = true.
Proof.
  apply (proj1 (X15_valid_iff choiceExam)). split; [done|].
  constructor; [|constructor].
  vm_compute. repeat split; try discriminate. left. discriminate.
Defined.

(** The invariant scheme again, for properties that need the answer
    text of an answer line to be non-empty. *)
Section loop_invariant_answer.
Variable P : Question -> Prop.
Hypothesis P_fresh : forall st num text, P (freshQuestion st num text).
Hypothesis P_extract : forall pData q, P q -> P (extractOptionsWithUnderline pData q).
Hypothesis P_finalize : forall q, P q -> P (finalize q).
Hypothesis P_answer : forall q a, a <> [] -> P q ->
  P (set_type (set_correctAnswer q (Some a)) writing).
Hypothesis P_writing : forall q, P q -> P (set_type q writing).
Hypothesis P_text : forall q t, P q -> P (set_text q t).

Lemma step_holds_answer st pData :
  holds_in_context P st -> holds_in_context P (step st pData).
Proof.
  intros Hst.
  assert (Hpush : Forall P (pushCurrent st)).
  { destruct Hst as [Hp Hc]. unfold pushCurrent.
    destruct (currentQuestion st) as [q|]; [|done].
    apply Forall_app. split; [done|]. constructor; [|done]. by apply P_finalize. }
  destruct Hst as [Hp Hc]. unfold step.
  repeat case_match; subst; try (split; simpl; done).
  all: try (split; simpl; [done|]; apply P_extract, (P_fresh st)).
  all: simplify_eq/=; split; simpl; auto.
  all: apply P_answer; [|done].
  all: match goal with
       | H : bool_decide (?a = []) = false |- ?a <> [] =>
           exact (bool_decide_eq_false_1 _ H)
       end.
Qed.

Lemma pushedQuestions_hold_answer paragraphs :
  Forall P (pushedQuestions paragraphs).
Proof.
  assert (Hloop : forall ps st, holds_in_context P st ->
                                holds_in_context P (runLoop ps st)).
  { induction ps as [|p ps IH]; intros st Hst; [done|].
    simpl. apply IH. by apply step_holds_answer. }
  destruct (Hloop paragraphs initialContext) as [Hp Hc].
  { split; [constructor|done]. }
  unfold pushedQuestions, pushCurrent.
  destruct (currentQuestion _) as [q|]; [|done].
  apply Forall_app. split; [done|]. constructor; [|done]. by apply P_finalize.
Qed.
End loop_invariant_answer.

Lemma pushedQuestions_answerNotEmpty paragraphs :
  Forall answerNotEmpty (pushedQuestions paragraphs).
Proof.
  apply pushedQuestions_hold_answer; unfold answerNotEmpty.
  - done.
  - intros pData q Hq. by rewrite extract_correctAnswer.
  - intros q Hq. unfold finalize. by case_match.
  - intros q a Ha _. simpl. congruence.
  - done.
  - done.
Qed.

Lemma isOptionLetter_nonempty l : isOptionLetter l -> l <> [].
Proof. intros [-> | [-> | [-> | ->]]]; by vm_compute. Qed.

Lemma parsed_question_complete paragraphs q :
  In q (parseQuestionsFromParagraphs paragraphs).1.2 ->
  questionComplete q
  <-> (q_text q <> [] \/ options q <> []) /\ is_Some (correctAnswer q).
Proof.
  intros Hq. pose proof Hq as Hq'.
  apply In_parse_questions, in_map_iff in Hq' as (q0 & Hq0 & Hin).
  assert (Hne : answerNotEmpty q).
  { pose proof (pushedQuestions_answerNotEmpty paragraphs) as Hall.
    pose proof (pushedQuestions_letters paragraphs) as Hlet.
    rewrite List.Forall_forall in Hall, Hlet.
    specialize (Hall q0 Hin). specialize (Hlet q0 Hin).
    subst q. unfold answerNotEmpty, markQuestion in *.
    case_bool_decide; [|done].
    destruct (List.find isCorrect (options q0)) as [o|] eqn:Hf; [|done].
    simpl. apply find_some in Hf as [Ho _].
    unfold lettersOfOptions in Hlet. rewrite List.Forall_forall in Hlet.
    intros [= Hl]. by apply (isOptionLetter_nonempty _ (Hlet o Ho)). }
  assert (Hmc : type q = multiple_choice -> options q <> []).
  { intros Hmc.
    pose proof (pushedQuestions_resolved paragraphs) as Hall.
    rewrite List.Forall_forall in Hall. destruct (Hall q0 Hin) as [_ Hlen].
    subst q. rewrite markQuestion_type in Hmc. rewrite markQuestion_options.
    specialize (Hlen Hmc). intros Hnil. rewrite Hnil in Hlen. simpl in Hlen. lia. }
  unfold questionComplete, truthy, falsy, answerNotEmpty in *. split.
  - intros (H1 & _ & H3). split; [done|].
    destruct (correctAnswer q); [by eexists|done].
  - intros (H1 & [a Ha]). split; [done|]. split; [done|].
    rewrite Ha in *. apply negb_true_iff, bool_decide_eq_false. congruence.
Qed.

(** X16: the validator accepts the exam parsed from a document exactly
    when the exam has a question and every question has a text or an
    option, and a correct answer; its check of the options of a
    multiple-choice question never fails on a parsed exam. *)
Theorem X16_parsed_exam_valid (xmlDoc : Document) :
  valid (validateExamData (parseDocumentXML xmlDoc)) = true
  <-> questions (parseDocumentXML xmlDoc) <> []
      /\ Forall (fun q => (q_text q <> [] \/ options q <> [])
                          /\ is_Some (correctAnswer q))
           (questions (parseDocumentXML xmlDoc)).
Proof.
  rewrite validate_valid.
  change (questions (parseDocumentXML xmlDoc))
    with (parseQuestionsFromParagraphs (allParagraphData xmlDoc)).1.2.
  rewrite !List.Forall_forall.
  split; intros [Hne Hall]; (split; [done|]); intros q Hq;
    apply (parsed_question_complete _ _ Hq), Hall, Hq.
Qed.

Lemma step_no_question st p :
  notQuestionStart p = true ->
  currentQuestion st = None -> pushed st = [] ->
  currentQuestion (step st p) = None /\ pushed (step st p) = [].
Proof.
  intros Hq%bool_decide_eq_true Hcur Hpush. unfold step. cbv zeta.
  rewrite Hq, Hcur. by repeat case_match.
Qed.

Lemma runLoop_no_question paragraphs st :
  forallb notQuestionStart paragraphs = true ->
  currentQuestion st = None -> pushed st = [] ->
  currentQuestion (runLoop paragraphs st) = None
  /\ pushed (runLoop paragraphs st) = [].
Proof.
  revert st. induction paragraphs as [|p ps IH]; intros st Hps Hcur Hpush; [done|].
  simpl in Hps. apply andb_true_iff in Hps as [Hp Hps].
  destruct (step_no_question st p Hp Hcur Hpush) as [Hcur' Hpush'].
  simpl. by apply IH.
Qed.

Lemma validate_no_questions data :
  questions data = [] ->
  validateExamData data = {| valid := false; errors := [noQuestionsMessage] |}.
Proof.
  intros H. unfold validateExamData, noQuestionsMessage. rewrite H.
  cbn [length flat_map].
  rewrite (bool_decide_eq_true_2 (0 = 0)) by reflexivity.
  cbn [app length].
  by rewrite (bool_decide_eq_false_2 (1 = 0)) by discriminate.
Qed.

(** X17: when no paragraph of the document opens a question, the parse
    returns an exam without questions, sections and answers, and the
    validator refuses it with the single message that no question was
    found. *)
Theorem X17_no_question (xmlDoc : Document) :
  forallb notQuestionStart (allParagraphData xmlDoc) = true ->
  questions (parseDocumentXML xmlDoc) = []
  /\ sections (parseDocumentXML xmlDoc) = []
  /\ answers (parseDocumentXML xmlDoc) = ∅
  /\ validateExamData (parseDocumentXML xmlDoc)
     = {| valid := false; errors := [noQuestionsMessage] |}.
Proof.
  intros Hps.
  assert (Hpushed : pushedQuestions (allParagraphData xmlDoc) = []).
  { unfold pushedQuestions, pushCurrent.
    destruct (runLoop_no_question (allParagraphData xmlDoc) initialContext Hps
                eq_refl eq_refl) as [-> ->]. done. }
  assert (Hparse : parseQuestionsFromParagraphs (allParagraphData xmlDoc)
                   = ([], [], ∅)).
  { unfold parseQuestionsFromParagraphs.
    fold (pushedQuestions (allParagraphData xmlDoc)). by rewrite Hpushed. }
  split; [unfold parseDocumentXML; by rewrite Hparse|].
  split; [unfold parseDocumentXML; by rewrite Hparse|].
  split; [unfold parseDocumentXML; by rewrite Hparse|].
  apply validate_no_questions. unfold parseDocumentXML. by rewrite Hparse.
Qed.

Lemma X17_witness :
  questions (parseDocumentXML headingsDocument) = []
  /\ sections (parseDocumentXML headingsDocument) = []
  /\ answers (parseDocumentXML headingsDocument) = ∅
  /\ validateExamData (parseDocumentXML headingsDocument)
     = {| valid := false; errors := [noQuestionsMessage] |}.
Proof. apply X17_no_question. vm_compute. reflexivity. Defined.

Example headingsDocument_paragraphs :
  pd_text <$> allParagraphData headingsDocument
  = [utf16 "SECTION A. GRAMMAR: 2.0 POINTS"; utf16 "I. Circle the best answer.";
     utf16 "Good luck!"].
Proof. vm_compute. reflexivity. Qed.

(** ** Order inside the sections, and the values of the answer key *)

Lemma StronglySorted_withKey k qs :
  StronglySorted number_le qs -> StronglySorted number_le (withKey k qs).
Proof.
  unfold withKey. induction 1 as [|q qs Hqs IH Hq]; simpl; [constructor|].
  destruct (str_eqb (sectionKey q) k); [|done].
  constructor; [done|].
  rewrite List.Forall_forall in *. intros q' [Hq' _]%filter_In. by apply Hq.
Qed.

Lemma parse_questions_sorted paragraphs :
  StronglySorted number_le (parseQuestionsFromParagraphs paragraphs).1.2.
Proof.
  rewrite parse_questions. apply Sorted_StronglySorted.
  { intros x y z. unfold number_le. lia. }
  eapply Sorted_mono; [|apply js_sort_sorted, compareNumbers_total].
  intros x y. unfold cmp_le, compareNumbers, number_le. lia.
Qed.

(** X18: in every section of a parse result the questions stand in
    ascending order of number. *)
Theorem X18_sections_sorted (paragraphs : list ParagraphData) (s : ExamSection) :
  In s (parseQuestionsFromParagraphs paragraphs).1.1 ->
  StronglySorted number_le (es_questions s).
Proof.
  change (parseQuestionsFromParagraphs paragraphs).1.1
    with (groupQuestionsIntoSections (parseQuestionsFromParagraphs paragraphs).1.2).
  intros Hs.
  assert (Hin : In (es_questions s)
                  (es_questions <$> groupQuestionsIntoSections
                     (parseQuestionsFromParagraphs paragraphs).1.2))
    by by apply in_map.
  rewrite group_questions in Hin. apply in_map_iff in Hin as (k & <- & _).
  apply StronglySorted_withKey, parse_questions_sorted.
Qed.

Lemma X18_witness :
  Forall (fun s => StronglySorted number_le (es_questions s))
    (parseQuestionsFromParagraphs interruptedSectionExam).1.1
  /\ length (parseQuestionsFromParagraphs interruptedSectionExam).1.1 = 2.
Proof.
  split; [|vm_compute; reflexivity].
  apply List.Forall_forall. intros s Hs.
  exact (X18_sections_sorted interruptedSectionExam s Hs).
Defined.

Lemma markAnswers_value_foldl qs acc n a :
  (foldl markAnswer acc qs).2 !! n = Some a ->
  acc.2 !! n = Some a
  \/ exists q o, In q qs /\ number q = n /\ type q = multiple_choice
                 /\ List.find isCorrect (options q) = Some o /\ letter o = a.
Proof.
  revert acc. induction qs as [|q qs IH]; intros acc H; simpl in H; [by left|].
  apply IH in H as [H|(q' & o & Hin & H)].
  2:{ right. exists q', o. split; [by right|done]. }
  unfold markAnswer in H. case_bool_decide as Ht; [|by left].
  destruct (List.find isCorrect (options q)) as [o|] eqn:Hf; [|by left].
  simpl in H. rewrite lookup_insert in H. case_decide as Hn; [|by left].
  injection H as <-. right. exists q, o. split; [by left|done].
Qed.

(** X19: every value of the answers mapping is one of the letters A,
    B, C, D, and it is the correct answer of a multiple-choice question
    of the result that has the number of the entry. *)
Theorem X19_answer_values (paragraphs : list ParagraphData) (n : N) (a : str) :
  (parseQuestionsFromParagraphs paragraphs).2 !! n = Some a ->
  isOptionLetter a
  /\ exists q, In q (parseQuestionsFromParagraphs paragraphs).1.2
               /\ number q = n /\ type q = multiple_choice
               /\ correctAnswer q = Some a.
Proof.
  rewrite parse_answers. unfold markAnswers.
  intros [H|(q & o & Hin & Hn & Ht & Hf & Ha)]%markAnswers_value_foldl;
    [simpl in H; by rewrite lookup_empty in H|].
  split.
  - pose proof (pushedQuestions_letters paragraphs) as Hlet.
    rewrite List.Forall_forall in Hlet. specialize (Hlet q Hin).
    unfold lettersOfOptions in Hlet. rewrite List.Forall_forall in Hlet.
    apply find_some in Hf as [Ho _]. rewrite <- Ha. by apply Hlet.
  - exists (markQuestion q). split; [|split; [|split]].
    + apply In_parse_questions. by apply in_map.
    + by rewrite markQuestion_number.
    + by rewrite markQuestion_type.
    + unfold markQuestion. rewrite bool_decide_eq_true_2 by done.
      rewrite Hf. simpl. by rewrite Ha.
Qed.

Lemma X19_witness :
  isOptionLetter (utf16 "B")
  /\ exists q, In q (parseQuestionsFromParagraphs (take 2 scenarioParagraphs)).1.2
               /\ number q = 1%N /\ type q = multiple_choice
               /\ correctAnswer q = Some (utf16 "B").
Proof.
  apply (X19_answer_values (take 2 scenarioParagraphs) 1 (utf16 "B")).
  vm_compute. reflexivity.
Defined.

(** The decimal numeral of a natural denotes it: the printer has fuel
    enough. *)
Lemma decimalDigits_value fuel :
  forall n acc,
    (n < 2 ^ N.of_nat fuel)%N ->
    foldl (fun a c => (10 * a + (c - 48))%N) 0%N (decimalDigits fuel n acc)
    = foldl (fun a c => (10 * a + (c - 48))%N) n acc.
Proof.
  induction fuel as [|fuel IH]; intros n acc Hn.
  - simpl in *. assert (n = 0%N) as -> by lia. done.
  - cbn [decimalDigits]. destruct (N.ltb_spec n 10) as [Hlt|Hge].
    + cbn [foldl]. f_equal. rewrite N.mod_small by done.
      rewrite (N.add_comm 48), N.add_sub. lia.
    + rewrite IH.
      * cbn [foldl]. f_equal. rewrite (N.add_comm 48), N.add_sub.
        symmetry. apply N.div_mod. lia.
      * rewrite Nat2N.inj_succ, N.pow_succ_r' in Hn.
        apply N.Div0.div_lt_upper_bound. lia.
Qed.

Lemma decimalOf_value n : digitsValue (decimalOf n) = n.
Proof.
  unfold digitsValue, decimalOf. rewrite decimalDigits_value; [done|].
  destruct n as [|p]; [done|].
  rewrite Nat2N.inj_succ, N2Nat.id.
  apply N.log2_spec. lia.
Qed.

(** A natural that 53 bits hold is a Number, and its string is its
    decimal numeral. *)
Lemma roundToDouble_small n : (n < 2 ^ 53)%N -> roundToDouble n = n.
Proof.
  intros Hn. unfold roundToDouble.
  destruct (N.leb_spec (N.size n) 53) as [_|Hbits]; [done|].
  exfalso. destruct n as [|p]; [done|].
  assert (H := N.size_gt (N.pos p)).
  assert (H2 := N.size_le (N.pos p)).
  assert (2 ^ 53 <= 2 ^ N.pred (N.size (N.pos p)))%N
    by (apply N.pow_le_mono_r; lia).
  replace (N.size (N.pos p)) with (N.succ (N.pred (N.size (N.pos p)))) in H2
    by lia.
  rewrite N.pow_succ_r' in H2. lia.
Qed.

Example numberToString_samples :
  numberToString <$> [0; 7; 120; 2 ^ 60; 10 ^ 21; 2 ^ 70; infinity]%N
  = utf16 <$> ["0"; "7"; "120"; "1152921504606847000"; "1e+21";
               "1.1805916207174113e+21"; "Infinity"]%string.
Proof. vm_compute. reflexivity. Qed.
